(** * Massimo: centre-of-mass node and section registry

    A shallow embedding of the logic of the repository:

    - [Runtime]: [CenterOfMassNode.compute] and its helpers [center],
      [lerp_float] and [lerp_vector], and what [CenterOfMassDrawOverride]
      prepares for the draw (plug-ins/massimo_runtime.py);
    - [Core]: the section / influence registry, its process wide
      [MassimoCache], and [serialise] / [deserialise]
      (scripts/massimo/core.py);
    - [Defaults]: the default weights by name (scripts/massimo/defaults.py).

    Python exceptions are results of type [Result]; the registry functions
    thread the host scene and the cache through a state-and-error monad. *)

From Stdlib Require Import Floats QArith Qround Qabs Qcanon Ascii.
From stdpp Require Import gmap strings list pretty sorting.

Set Default Proof Using "Type".

(** ** Python results *)

Inductive PyError :=
  | ZeroDivisionError
  | MayaNodeError
  | IOError
  | OutOfFuel    (* a bounded loop of the embedding ran out of turns *)
  | FloatRange.  (* a value beyond the range of a 32-bit float, for which the
                    embedding has no number *)

Inductive Result (A : Type) :=
  | Ok (a : A)
  | Raise (e : PyError).
Arguments Ok {A} a.
Arguments Raise {A} e.

#[export] Instance PyError_eq_dec : EqDecision PyError.
Proof. solve_decision. Defined.

#[export] Instance Result_eq_dec {A} `{EqDecision A} : EqDecision (Result A).
Proof. solve_decision. Defined.

Definition rbind {A B} (r : Result A) (k : A → Result B) : Result B :=
  match r with
  | Ok a => k a
  | Raise e => Raise e
  end.

Declare Scope result_scope.
Delimit Scope result_scope with result.
Notation "x ← r ; k" := (rbind r (λ x, k))
  (at level 20, r at level 100, k at level 200, only parsing) : result_scope.
Notation "' p ← r ; k" := (rbind r (λ x, match x with p => k end))
  (at level 20, p pattern, r at level 100, k at level 200, only parsing)
  : result_scope.

(** ** The arithmetic of Python floats

    The source computes with Python floats.  Its functions are embedded over
    an interface of the operations they use, so that one definition can be
    read in exact arithmetic (rationals, [Qc]) and in IEEE binary64
    ([PrimFloat], the precision of Python's [float]). *)

Class PyFloat (F : Type) := {
  fzero : F;
  fadd : F → F → F;
  fsub : F → F → F;
  fmul : F → F → F;
  fdiv : F → F → F;          (* the quotient, for a non-zero divisor *)
  feqb : F → F → bool;       (* [==] *)
  fltb : F → F → bool;       (* [<] *)
  of_len : nat → F           (* [float(len(...))] *)
}.

(** [a / b] on Python floats raises when the divisor equals zero. *)
Definition truediv `{PyFloat F} (a b : F) : Result F :=
  if feqb b fzero then Raise ZeroDivisionError else Ok (fdiv a b).

#[export] Instance Qc_float : PyFloat Qc := {|
  fzero := 0%Qc;
  fadd := Qcplus;
  fsub := Qcminus;
  fmul := Qcmult;
  fdiv := Qcdiv;
  feqb := λ a b, bool_decide (a = b);
  fltb := λ a b, bool_decide (a < b)%Qc;
  of_len := λ n, Qc_of_Z (Z.of_nat n)
|}.

#[export] Instance binary64 : PyFloat float := {|
  fzero := 0%float;
  fadd := PrimFloat.add;
  fsub := PrimFloat.sub;
  fmul := PrimFloat.mul;
  fdiv := PrimFloat.div;
  feqb := PrimFloat.eqb;
  fltb := PrimFloat.ltb;
  of_len := λ n, PrimFloat.of_uint63 (Uint63.of_Z (Z.of_nat n))
|}.

(** ** Single-precision attributes

    The host attributes [mass] and [sphereSize] are declared [kFloat]: a
    value set on them is stored as the nearest 32-bit float (ties to even),
    and read back as that float.  On the rationals: *)

(** [2^k] *)
Definition two_to (k : Z) : Q :=
  if (0 <=? k)%Z then inject_Z (2 ^ k) else / inject_Z (2 ^ (- k)).

(** The binade of a positive rational: the [e] with [2^e <= q < 2^(e+1)]. *)
Definition binade (q : Q) : Z :=
  let e := (Z.log2 (Qnum q) - Z.log2 (Zpos (Qden q)))%Z in
  if Qle_bool (two_to e) q then e else (e - 1)%Z.

(** The nearest integer, a tie going to the even one. *)
Definition round_half_even (x : Q) : Z :=
  let f := Qfloor x in
  match ((x - inject_Z f) ?= (1 # 2))%Q with
  | Lt => f
  | Gt => (f + 1)%Z
  | Eq => if Z.even f then f else (f + 1)%Z
  end.

(** The nearest multiple of the spacing of the 32-bit floats around [q]:
    24 significant bits, and exponents from -126 (below which the floats
    are evenly spaced). *)
Definition nearest_float32 (q : Qc) : Qc :=
  if bool_decide (q = 0%Qc) then 0%Qc
  else
    let ulp := two_to (Z.max (binade (Qabs q)) (-126) - 23) in
    Q2Qc (inject_Z (round_half_even (q / ulp)%Q) * ulp)%Q.

(** The largest 32-bit float. *)
Definition max_float32 : Qc := Q2Qc (inject_Z (2 ^ 24 - 1) * two_to 104)%Q.

(** The 32-bit float that stores [q]; none that is a number when [q] rounds
    beyond the largest. *)
Definition float32 (q : Qc) : option Qc :=
  let r := nearest_float32 q in
  if Qle_bool (Qabs r) max_float32 then Some r else None.

(** [q] is a 32-bit float. *)
Definition is_float32 (q : Qc) : Prop := float32 q = Some q.

(** ** plug-ins/massimo_runtime.py *)

Module Runtime.

Section WithFloat.
Context {F : Type} `{PyFloat F}.

(** A position is the slice [12:15] of the sixteen entries of a matrix: a
    Python list of exactly three floats, never empty (and so never falsy). *)
Record Vec3 := mkVec3 { vx : F; vy : F; vz : F }.

(** The four rows of an [MMatrix]; iterating it yields the sixteen entries
    row by row. *)
Record MMatrix := mkMMatrix {
  row0 : F * F * F * F;
  row1 : F * F * F * F;
  row2 : F * F * F * F;
  row3 : F * F * F * F
}.

(** [[n for n in matrix][12:15]] *)
Definition matrix_position (m : MMatrix) : Vec3 :=
  let '(x, y, z, _) := row3 m in mkVec3 x y z.

(** One physical element of the [inputs] compound array. *)
Record InputElement := mkInput {
  considerInCalculation : bool;
  mass : F;
  pointsOfBounds : list MMatrix
}.

Inductive Plug :=
  | aTranslateX
  | aTranslateY
  | aTranslateZ
  | aCenterOfMass
  | aOtherPlug.

(** The part of the data block that [compute] reads and writes. *)
Record DataBlock := mkData {
  calculate : bool;
  inputs : list InputElement;
  comTranslateX : F;
  comTranslateY : F;
  comTranslateZ : F;
  cleanX : bool;
  cleanY : bool;
  cleanZ : bool
}.

Definition origin : Vec3 := mkVec3 fzero fzero fzero.

(** [list(map(operator.add, result, position))] *)
Definition vec_add (a b : Vec3) : Vec3 :=
  mkVec3 (fadd (vx a) (vx b)) (fadd (vy a) (vy b)) (fadd (vz a) (vz b)).

(** [CenterOfMassNode.center] *)
Definition center (positions : list Vec3) : Result Vec3 :=
  match positions with
  | [] => Ok origin
  | _ =>
    let result :=
      foldl (λ (result : option Vec3) position,
               match result with
               | None => Some position
               | Some r => Some (vec_add r position)
               end) None positions in
    match result with
    | None => Ok origin
    | Some r =>
      let n := of_len (length positions) in
      (x ← truediv (vx r) n;
       y ← truediv (vy r) n;
       z ← truediv (vz r) n;
       Ok (mkVec3 x y z))%result
    end
  end.

(** [CenterOfMassNode.lerp_float] *)
Definition lerp_float (a b percent : F) : F :=
  fadd (fmul (fsub b a) percent) a.

(** [CenterOfMassNode.lerp_vector] *)
Definition lerp_vector (a b : Vec3) (percent : F) : Vec3 :=
  let x := lerp_float (vx a) (vx b) percent in
  let y := lerp_float (vy a) (vy b) percent in
  let z := lerp_float (vz a) (vz b) percent in
  mkVec3 x y z.

(** [sorted(collated_data, key=lambda v: v[0])]: Python's sort is stable and
    compares keys with [<] only.  The insertion below gives the list that
    [sorted] gives whenever [<] orders the keys totally, which it does in
    exact arithmetic and on floats that are numbers; a key that is not a
    number is outside this embedding of the sort. *)
Fixpoint insert_by_mass (x : F * Vec3) (l : list (F * Vec3)) : list (F * Vec3) :=
  match l with
  | [] => [x]
  | y :: l' => if fltb (fst y) (fst x) then y :: insert_by_mass x l' else x :: l
  end.

Definition sorted_by_mass (l : list (F * Vec3)) : list (F * Vec3) :=
  foldr insert_by_mass [] l.

(** The first loop of [compute] (lines 103-150): the entries that take part,
    each with its mass and the centre of its bounds. *)
Fixpoint collate (elements : list InputElement) : Result (list (F * Vec3)) :=
  match elements with
  | [] => Ok []
  | e :: rest =>
    let weighting := mass e in
    let consider_in_calculation := considerInCalculation e in
    if feqb weighting fzero || negb consider_in_calculation
    then collate rest
    else
      (c ← center (matrix_position <$> pointsOfBounds e);
       collated ← collate rest;
       Ok ((weighting, c) :: collated))%result
  end.

(** One turn of the second loop (lines 162-180). *)
Definition blend_step (state : F * option Vec3) (item : F * Vec3)
  : Result (F * option Vec3) :=
  let '(running_mass, current_location) := state in
  let '(mass, location) := item in
  let running_mass := fadd running_mass mass in
  match current_location with
  | None => Ok (running_mass, Some location)
  | Some current =>
    (percent ← truediv mass running_mass;
     Ok (running_mass, Some (lerp_vector current location percent)))%result
  end.

Fixpoint blend_loop (state : F * option Vec3) (items : list (F * Vec3))
  : Result (F * option Vec3) :=
  match items with
  | [] => Ok state
  | item :: rest =>
    (state' ← blend_step state item; blend_loop state' rest)%result
  end.

(** Lines 152-183: sort, blend, and fall back to the origin. *)
Definition aggregate (collated_data : list (F * Vec3)) : Result Vec3 :=
  let collated_data := sorted_by_mass collated_data in
  ('(_, current_location) ← blend_loop (fzero, None) collated_data;
   Ok (default origin current_location))%result.

Definition is_output_plug (plug : Plug) : bool :=
  match plug with
  | aTranslateX | aTranslateY | aTranslateZ | aCenterOfMass => true
  | aOtherPlug => false
  end.

Definition set_clean (data : DataBlock) : DataBlock :=
  mkData (calculate data) (inputs data)
         (comTranslateX data) (comTranslateY data) (comTranslateZ data)
         true true true.

Definition set_outputs (data : DataBlock) (v : Vec3) : DataBlock :=
  mkData (calculate data) (inputs data) (vx v) (vy v) (vz v)
         (cleanX data) (cleanY data) (cleanZ data).

(** [CenterOfMassNode.compute] *)
Definition compute (plug : Plug) (data : DataBlock) : Result DataBlock :=
  if is_output_plug plug then
    if negb (calculate data) then Ok (set_clean data)
    else
      (collated_data ← collate (inputs data);
       current_location ← aggregate collated_data;
       Ok (set_clean (set_outputs data current_location)))%result
  else Ok data.

(** The entries that [compute] lets through its guard
    [weighting == 0.0 or not consider_in_calculation]. *)
Definition takes_part (e : InputElement) : bool :=
  negb (feqb (mass e) fzero || negb (considerInCalculation e)).

(** The entries that the specification keeps: a mass above zero, and marked
    considered. *)
Definition spec_takes_part (e : InputElement) : bool :=
  fltb fzero (mass e) && considerInCalculation e.

Definition with_inputs (data : DataBlock) (elements : list InputElement)
  : DataBlock :=
  mkData (calculate data) elements
         (comTranslateX data) (comTranslateY data) (comTranslateZ data)
         (cleanX data) (cleanY data) (cleanZ data).

(** The three output values of a data block. *)
Definition outputs (data : DataBlock) : F * F * F :=
  (comTranslateX data, comTranslateY data, comTranslateZ data).

End WithFloat.

Arguments Vec3 F : clear implicits.
Arguments MMatrix F : clear implicits.
Arguments InputElement F : clear implicits.
Arguments DataBlock F : clear implicits.

(** *** The closed-form weighted mean, in exact arithmetic *)

Definition total_mass (pairs : list (Qc * Vec3 Qc)) : Qc :=
  foldr (λ p acc, p.1 + acc)%Qc 0%Qc pairs.

Definition scale (m : Qc) (c : Vec3 Qc) : Vec3 Qc :=
  mkVec3 (m * vx c)%Qc (m * vy c)%Qc (m * vz c)%Qc.

(** [sum(mass_i * center_i)] *)
Definition weighted_sum (pairs : list (Qc * Vec3 Qc)) : Vec3 Qc :=
  foldr (λ p acc, vec_add (scale p.1 p.2) acc) origin pairs.

(** [sum(mass_i * center_i) / sum(mass_i)] *)
Definition weighted_mean (pairs : list (Qc * Vec3 Qc)) : Vec3 Qc :=
  let s := weighted_sum pairs in
  let m := total_mass pairs in
  mkVec3 (vx s / m)%Qc (vy s / m)%Qc (vz s / m)%Qc.

Definition positive_masses (pairs : list (Qc * Vec3 Qc)) : Prop :=
  Forall (λ p, 0 < p.1)%Qc pairs.

(** Ascending by mass. *)
Definition mass_le (p q : Qc * Vec3 Qc) : Prop := (p.1 ≤ q.1)%Qc.

(** *** The procedure of the specification, in exact arithmetic

    Written from the specification's words, not from the code.  [lerp] is
    the point at the fraction [t] of the way from [a] to [b]. *)
Definition spec_lerp (a b : Vec3 Qc) (t : Qc) : Vec3 Qc :=
  mkVec3 ((1 - t) * vx a + t * vx b)%Qc
         ((1 - t) * vy a + t * vy b)%Qc
         ((1 - t) * vz a + t * vz b)%Qc.

(** For each pair, add its mass to [running_mass] and either take its centre
    (when [current] is null) or move [current] towards it by
    [mass / running_mass].  The procedure has no result where that ratio has
    a zero divisor. *)
Fixpoint spec_blend (running_mass : Qc) (current : option (Vec3 Qc))
    (pairs : list (Qc * Vec3 Qc)) : option (option (Vec3 Qc)) :=
  match pairs with
  | [] => Some current
  | (m, c) :: rest =>
    let running_mass := (running_mass + m)%Qc in
    match current with
    | None => spec_blend running_mass (Some c) rest
    | Some cur =>
      if decide (running_mass = 0%Qc) then None
      else spec_blend running_mass
                      (Some (spec_lerp cur c (m / running_mass)%Qc)) rest
    end
  end.

(** Start with [running_mass = 0] and [current = null] on the pairs in
    ascending order of mass; return [current], or the origin (0,0,0). *)
Definition spec_procedure (sorted : list (Qc * Vec3 Qc))
  : option (Vec3 Qc) :=
  match spec_blend 0%Qc None sorted with
  | Some (Some current) => Some current
  | Some None => Some (mkVec3 0%Qc 0%Qc 0%Qc)
  | None => None
  end.

(** [sorted] holds the pairs in ascending order of mass. *)
Definition ascending_by_mass (pairs sorted : list (Qc * Vec3 Qc)) : Prop :=
  sorted ≡ₚ pairs ∧ Sorted mass_le sorted.

(** *** The centre of mass in closed form, in exact arithmetic *)

(** The componentwise sum of the positions. *)
Definition vec_sum (positions : list (Vec3 Qc)) : Vec3 Qc :=
  foldr vec_add origin positions.

(** [sum(positions) / len(positions)] *)
Definition arithmetic_mean (positions : list (Vec3 Qc)) : Vec3 Qc :=
  let s := vec_sum positions in
  let n := Qc_of_Z (Z.of_nat (length positions)) in
  mkVec3 (vx s / n)%Qc (vy s / n)%Qc (vz s / n)%Qc.

(** The centre of the bounds of an entry: the mean of the positions of its
    matrices, the origin for an entry without bounds. *)
Definition centre_of_bounds (e : InputElement Qc) : Vec3 Qc :=
  match pointsOfBounds e with
  | [] => origin
  | ms => arithmetic_mean (matrix_position <$> ms)
  end.

(** The entries that take part, each as its mass and the centre of its
    bounds, in the order of the [inputs] array. *)
Definition parts (elements : list (InputElement Qc)) : list (Qc * Vec3 Qc) :=
  (λ e, (mass e, centre_of_bounds e))
    <$> filter (λ e, takes_part e = true) elements.

(** The weighted mean of the parts, the origin when nothing takes part. *)
Definition centre_of_mass (elements : list (InputElement Qc)) : Vec3 Qc :=
  match parts elements with
  | [] => origin
  | ps => weighted_mean ps
  end.

(** *** [CenterOfMassDrawOverride] *)

Section Drawing.
Context {F : Type} `{PyFloat F}.

(** [CenterOfMassData]: what [prepareForDraw] hands to the draw. *)
Record CenterOfMassData := mkDrawData {
  position : Vec3 F;
  floor : Vec3 F;
  ceil : Vec3 F;
  sphereSize : F;
  drawSphere : bool;
  drawVerticalLine : bool;
  drawDebugLines : bool
}.

(** The attributes of the node that the draw reads; a plug is null when the
    node does not bear the attribute. *)
Record DrawnNode := mkDrawnNode {
  xPlug : option F;
  yPlug : option F;
  zPlug : option F;
  aSphereSize : F;
  aDrawSphere : bool;
  aDrawVerticalLine : bool;
  aDrawDebugLines : bool
}.

(** [CenterOfMassDrawOverride.getCOM] *)
Definition getCOM (node : DrawnNode) : Vec3 F :=
  match xPlug node, yPlug node, zPlug node with
  | Some x, Some y, Some z => mkVec3 x y z
  | _, _, _ => mkVec3 fzero fzero fzero
  end.

(** The literal [2.0]. *)
Definition two : F := of_len 2.

(** [CenterOfMassDrawOverride.prepareForDraw]; [upAxis] is the answer of
    [pm.upAxis(q=True, axis=True)].  Every field of the data is assigned, so
    the old data does not show in the result. *)
Definition prepareForDraw (upAxis : string) (node : DrawnNode)
  : CenterOfMassData :=
  let comVector := getCOM node in
  let position := mkVec3 (vx comVector) (vy comVector) (vz comVector) in
  let '(floor, ceil) :=
    if bool_decide (upAxis = "z")
    then (mkVec3 (vx comVector) (vy comVector) fzero,
          mkVec3 (vx comVector) (vy comVector) (fmul (vz comVector) two))
    else (mkVec3 (vx comVector) fzero (vz comVector),
          mkVec3 (vx comVector) (fmul (vy comVector) two) (vz comVector)) in
  mkDrawData position floor ceil (aSphereSize node) (aDrawSphere node)
             (aDrawVerticalLine node) (aDrawDebugLines node).

(** The component of a vector along the up axis. *)
Definition height (upAxis : string) (v : Vec3 F) : F :=
  if bool_decide (upAxis = "z") then vz v else vy v.

(** A vector with its component along the up axis replaced. *)
Definition at_height (upAxis : string) (v : Vec3 F) (h : F) : Vec3 F :=
  if bool_decide (upAxis = "z") then mkVec3 (vx v) (vy v) h
  else mkVec3 (vx v) h (vz v).

End Drawing.

Arguments CenterOfMassData F : clear implicits.
Arguments DrawnNode F : clear implicits.

(** *** Sample data, in binary64 *)

(** A matrix that translates by (x, 0, 0). *)
Definition translation_x (x : float) : MMatrix float :=
  mkMMatrix (1, 0, 0, 0)%float (0, 1, 0, 0)%float (0, 0, 1, 0)%float
            (x, 0, 0, 1)%float.

(** The calculate flag is off; the outputs hold 7, 8 and 9. *)
Definition idle_data : DataBlock float :=
  mkData false [mkInput true 2%float [translation_x 3]]
         7%float 8%float 9%float false false false.

(** Two considered entries: mass -1 at x = 1, mass 2 at x = 3. *)
Definition negative_mass_data : DataBlock float :=
  mkData true
    [mkInput true (-1)%float [translation_x 1];
     mkInput true 2%float [translation_x 3]]
    0%float 0%float 0%float false false false.

(** *** Sample data, in exact arithmetic *)

(** A matrix that translates by (x, 0, 0). *)
Definition translation_exact (x : Qc) : MMatrix Qc :=
  mkMMatrix (1, 0, 0, 0)%Qc (0, 1, 0, 0)%Qc (0, 0, 1, 0)%Qc (x, 0, 0, 1)%Qc.

(** The calculation is on.  A section of mass 1 bounded at x = 0 and x = 2,
    one of mass 3 bounded at x = 5, and one of mass 0. *)
Definition exact_data : DataBlock Qc :=
  mkData true
    [mkInput true 1%Qc [translation_exact 0%Qc; translation_exact (Qc_of_Z 2)];
     mkInput true (Qc_of_Z 3) [translation_exact (Qc_of_Z 5)];
     mkInput true 0%Qc [translation_exact (Qc_of_Z 9)]]
    0%Qc 0%Qc 0%Qc false false false.

End Runtime.

(** ** scripts/massimo/core.py *)

Module Core.

(** *** The host scene

    The registry lives on attributes of a host node.  The host is modelled by
    what the source relies on: [inputs] is a sparse array of section
    elements, each with a [sectionIdentifier] (absent until first set), a
    [mass] (default 1.0) and a sparse array [pointsOfBounds] whose elements
    are driven by the [worldMatrix[0]] of an influence.  Multi-attribute
    elements are listed in ascending index order. *)

(** A Python value that is a [str] or [None]. *)
Abbreviation PyName := (option string).

Record SectionPlug := mkSection {
  sectionIdentifier : PyName;
  mass : Qc;
  considerInCalculation : bool;
  pointsOfBounds : list (option string)
}.

Record Settings := mkSettings {
  calculate : bool;
  drawDebuggingLines : bool;
  drawSphere : bool;
  drawVerticalLine : bool;
  sphereSize : Qc
}.

Record MassNode := mkNode {
  settings : Settings;
  inputs : list (option SectionPlug)
}.

(** The objects of the scene in creation order, each with whether it has a
    [worldMatrix] (is a DAG object), and the CenterOfMass nodes by name. *)
Record Scene := mkScene {
  objects : list (string * bool);
  mass_nodes : gmap string MassNode
}.

(** [MassimoCache]: class attributes, shared by every node of the process. *)
Record MassimoCache := mkCache {
  _SECTION_INDICES : gmap string (list nat);
  _SECTION_CACHE_IS_DIRTY : bool
}.

(** The persisted document. *)
Record SectionData := mkSectionData {
  name : PyName;
  weight : Qc;
  influences : list string
}.

#[export] Instance SectionData_eq_dec : EqDecision SectionData.
Proof. solve_decision. Defined.

Record MassData := mkMassData {
  data_name : string;
  data_sections : list SectionData;
  data_settings : option Settings
}.

Record World := mkWorld {
  scene : Scene;
  cache : MassimoCache;
  files : gmap string MassData
}.

(** The attribute defaults of [CenterOfMassNode.initialize]. *)
Definition default_section : SectionPlug :=
  mkSection None 1%Qc true [].

Definition default_settings : Settings :=
  mkSettings true true true true (Qc_of_Z 10).

Definition default_node : MassNode := mkNode default_settings [].

(** *** Sparse arrays *)

Fixpoint used_from {A} (i : nat) (l : list (option A)) : list nat :=
  match l with
  | [] => []
  | None :: l' => used_from (S i) l'
  | Some _ :: l' => i :: used_from (S i) l'
  end.

(** The indices of the elements that exist, ascending. *)
Definition used_indices {A} (l : list (option A)) : list nat := used_from 0 l.

Definition sparse_get {A} (i : nat) (l : list (option A)) : option A :=
  mjoin (l !! i).

(** Writing an element creates it, and leaves the indices before it as they
    are. *)
Fixpoint sparse_set {A} (i : nat) (v : A) (l : list (option A))
  : list (option A) :=
  match i, l with
  | 0, [] => [Some v]
  | 0, _ :: l' => Some v :: l'
  | S i', [] => None :: sparse_set i' v []
  | S i', x :: l' => x :: sparse_set i' v l'
  end.

(** [removeMultiInstance]: the element is gone, the others keep their
    indices. *)
Definition sparse_remove {A} (i : nat) (l : list (option A))
  : list (option A) :=
  <[i := None]> l.

(** *** The state-and-error monad of the registry functions *)

Definition M (A : Type) : Type := World → Result (A * World).

Definition ret {A} (a : A) : M A := λ w, Ok (a, w).

Definition bind {A B} (m : M A) (k : A → M B) : M B :=
  λ w, match m w with
       | Ok (a, w') => k a w'
       | Raise e => Raise e
       end.

Definition raise {A} (e : PyError) : M A := λ _, Raise e.

Declare Scope core_scope.
Delimit Scope core_scope with core.
Notation "x ← m ; k" := (bind m (λ x, k))
  (at level 20, m at level 100, k at level 200, only parsing) : core_scope.
Notation "m ;; k" := (bind m (λ _, k))
  (at level 100, k at level 200, right associativity, only parsing) : core_scope.
Local Open Scope core_scope.

Fixpoint mapM {A B} (f : A → M B) (l : list A) : M (list B) :=
  match l with
  | [] => ret []
  | a :: l' => b ← f a; bs ← mapM f l'; ret (b :: bs)
  end.

Fixpoint forM_ {A} (l : list A) (f : A → M unit) : M unit :=
  match l with
  | [] => ret ()
  | a :: l' => f a;; forM_ l' f
  end.

Definition get_scene : M Scene := λ w, Ok (scene w, w).
Definition put_scene (s : Scene) : M unit :=
  λ w, Ok ((), mkWorld s (cache w) (files w)).
Definition get_cache : M MassimoCache := λ w, Ok (cache w, w).
Definition put_cache (c : MassimoCache) : M unit :=
  λ w, Ok ((), mkWorld (scene w) c (files w)).
Definition get_files : M (gmap string MassData) := λ w, Ok (files w, w).
Definition put_files (f : gmap string MassData) : M unit :=
  λ w, Ok ((), mkWorld (scene w) (cache w) f).

(** *** Host operations *)

(** [pm.PyNode(mass_node)]: raises when the scene has no such node. *)
Definition PyNode (mass_node : string) : M MassNode :=
  s ← get_scene;
  match mass_nodes s !! mass_node with
  | Some node => ret node
  | None => raise MayaNodeError
  end.

Definition put_node (mass_node : string) (node : MassNode) : M unit :=
  s ← get_scene;
  put_scene (mkScene (objects s) (<[mass_node := node]> (mass_nodes s))).

Definition put_section (mass_node : string) (idx : nat) (s : SectionPlug)
  : M unit :=
  node ← PyNode mass_node;
  put_node mass_node (mkNode (settings node) (sparse_set idx s (inputs node))).

(** Reading or writing an attribute of [inputs[idx]] instantiates the element
    with its defaults when it does not exist yet. *)
Definition touch_section (mass_node : string) (idx : nat) : M SectionPlug :=
  node ← PyNode mass_node;
  match sparse_get idx (inputs node) with
  | Some s => ret s
  | None => put_section mass_node idx default_section;; ret default_section
  end.

(** [cmds.getAttr('{}.inputs[{}].sectionIdentifier')] *)
Definition getAttr_sectionIdentifier (mass_node : string) (idx : nat)
  : M PyName :=
  s ← touch_section mass_node idx; ret (sectionIdentifier s).

(** [cmds.getAttr('{}.inputs[{}].mass')] *)
Definition getAttr_mass (mass_node : string) (idx : nat) : M Qc :=
  s ← touch_section mass_node idx; ret (mass s).

(** [mass_node.attr('inputs[{}].sectionIdentifier').set(name)] *)
Definition setAttr_sectionIdentifier (mass_node : string) (idx : nat)
    (new_name : PyName) : M unit :=
  s ← touch_section mass_node idx;
  put_section mass_node idx
    (mkSection new_name (mass s) (considerInCalculation s) (pointsOfBounds s)).

(** [mass_node.attr('inputs[{}].mass').set(weight)]: [mass] is a [kFloat]
    attribute, it stores the weight as a 32-bit float. *)
Definition setAttr_mass (mass_node : string) (idx : nat) (w : Qc) : M unit :=
  match float32 w with
  | None => raise FloatRange
  | Some stored =>
    s ← touch_section mass_node idx;
    put_section mass_node idx
      (mkSection (sectionIdentifier s) stored (considerInCalculation s)
                 (pointsOfBounds s))
  end.

(** [cmds.connectAttr(influence.worldMatrix[0],
    mass_node.inputs[section_idx].pointsOfBounds[influence_idx])] *)
Definition connectAttr (influence mass_node : string)
    (section_idx influence_idx : nat) : M unit :=
  s ← touch_section mass_node section_idx;
  put_section mass_node section_idx
    (mkSection (sectionIdentifier s) (mass s) (considerInCalculation s)
               (sparse_set influence_idx influence (pointsOfBounds s))).

(** [cmds.removeMultiInstance('{}.inputs[{}]', b=True)] *)
Definition removeMultiInstance (mass_node : string) (section_idx : nat)
  : M unit :=
  node ← PyNode mass_node;
  put_node mass_node
    (mkNode (settings node) (sparse_remove section_idx (inputs node))).

(** The section indices that [listAttr(multi=True, inUse=True)] shows
    through [_REGEX_SECTIONS]. *)
Definition listAttr_sections (node : MassNode) : list nat :=
  used_indices (inputs node).

Fixpoint bounds_from (i : nat) (l : list (option SectionPlug))
  : list (nat * nat) :=
  match l with
  | [] => []
  | None :: l' => bounds_from (S i) l'
  | Some s :: l' =>
    ((λ j, (i, j)) <$> used_indices (pointsOfBounds s)) ++ bounds_from (S i) l'
  end.

(** The pairs (section, influence index) that [listAttr] shows through
    [_REGEX_BOUNDS]. *)
Definition listAttr_bounds (node : MassNode) : list (nat * nat) :=
  bounds_from 0 (inputs node).

(** [pm.objExists(name)] *)
Definition objExists (obj : string) : M bool :=
  s ← get_scene; ret (bool_decide (obj ∈ (objects s).*1)).

(** [pm.objExists('{}.worldMatrix[0]'.format(name))] *)
Definition worldMatrix_exists (obj : string) : M bool :=
  s ← get_scene; ret (bool_decide ((obj, true) ∈ objects s)).

Fixpoint has_colon (s : string) : bool :=
  match s with
  | EmptyString => false
  | String c rest => bool_decide (c = ":"%char) || has_colon rest
  end.

(** [s.split(':')[-1]]: what follows the last colon. *)
Fixpoint after_last_colon (s : string) : string :=
  match s with
  | EmptyString => EmptyString
  | String c rest =>
    if has_colon rest then after_last_colon rest
    else if bool_decide (c = ":"%char) then rest else s
  end.

(** [pm.ls(name, r=True)]: the objects of that name in any namespace. *)
Definition ls_recursive (short : string) : M (list string) :=
  s ← get_scene;
  ret (filter (λ o, after_last_colon o = short) (objects s).*1).

(** The host makes a name unique by appending the first number that is
    free. *)
Fixpoint unique_name_go (fuel k : nat) (taken : list string) (base : string)
  : string :=
  let candidate := base +:+ pretty k in
  match fuel with
  | 0 => candidate
  | S fuel' =>
    if bool_decide (candidate ∈ taken)
    then unique_name_go fuel' (S k) taken base
    else candidate
  end.

Definition unique_name (taken : list string) (base : string) : string :=
  if bool_decide (base ∈ taken)
  then unique_name_go (S (length taken)) 1 taken base
  else base.

(** *** MassimoCache *)

(** [MassimoCache.invalidate_section_cache] *)
Definition invalidate_section_cache : M unit :=
  c ← get_cache; put_cache (mkCache (_SECTION_INDICES c) true).

(** [MassimoCache.cache_sections] *)
Definition cache_sections (mass_node : string) (value : list nat) : M unit :=
  c ← get_cache;
  put_cache (mkCache (<[mass_node := value]> (_SECTION_INDICES c)) false).

(** [MassimoCache.is_section_cache_dirty] *)
Definition is_section_cache_dirty : M bool :=
  c ← get_cache; ret (_SECTION_CACHE_IS_DIRTY c).

(** [MassimoCache.section_cache]; the empty [dict()] it returns is only
    tested for truth, as the empty list is. *)
Definition section_cache (mass_node : string) : M (list nat) :=
  dirty ← is_section_cache_dirty;
  if dirty then ret []
  else
    c ← get_cache;
    match _SECTION_INDICES c !! mass_node with
    | None => ret []
    | Some cached => ret cached
    end.

(** *** Lookups *)

(** [_get_used_influence_indices] *)
Definition _get_used_influence_indices (mass_node : string) (section_idx : Z)
  : M (list nat) :=
  node ← PyNode mass_node;
  ret (snd <$> filter (λ n, Z.of_nat (fst n) = section_idx)
                      (listAttr_bounds node)).

(** [_get_used_section_indices] *)
Definition _get_used_section_indices (mass_node : string) : M (list nat) :=
  cached_info ← section_cache mass_node;
  if bool_decide (cached_info ≠ []) then ret cached_info
  else
    node ← PyNode mass_node;
    let result := listAttr_sections node in
    cache_sections mass_node result;;
    ret result.

(** The loop of [_get_section_idx_from_name]. *)
Fixpoint find_section_idx (mass_node : string) (name : PyName)
    (indices : list nat) : M Z :=
  match indices with
  | [] => ret (-1)%Z
  | idx :: rest =>
    found ← getAttr_sectionIdentifier mass_node idx;
    if bool_decide (found = name) then ret (Z.of_nat idx)
    else find_section_idx mass_node name rest
  end.

(** [_get_section_idx_from_name] *)
Definition _get_section_idx_from_name (mass_node : string) (name : PyName)
  : M Z :=
  PyNode mass_node;;
  indices ← _get_used_section_indices mass_node;
  find_section_idx mass_node name indices.

(** [_get_name_from_section_idx] *)
Definition _get_name_from_section_idx (mass_node : string) (section_idx : nat)
  : M PyName :=
  PyNode mass_node;;
  indices ← _get_used_section_indices mass_node;
  if bool_decide (section_idx ∉ indices) then ret None
  else getAttr_sectionIdentifier mass_node section_idx.

(** [get_section_names] *)
Definition get_section_names (mass_node : string) : M (list PyName) :=
  PyNode mass_node;;
  section_indices ← _get_used_section_indices mass_node;
  mapM (_get_name_from_section_idx mass_node) section_indices.

(** [get_section_weight] *)
Definition get_section_weight (mass_node : string) (section_name : PyName)
  : M Qc :=
  PyNode mass_node;;
  section_idx ← _get_section_idx_from_name mass_node section_name;
  if bool_decide (section_idx < 0)%Z then ret 0%Qc
  else getAttr_mass mass_node (Z.to_nat section_idx).

(** A Python [dict]: keys in insertion order, a later assignment to a key
    replaces its value in place. *)
Fixpoint dict_set {V} (k : PyName) (v : V) (d : list (PyName * V))
  : list (PyName * V) :=
  match d with
  | [] => [(k, v)]
  | (k', v') :: d' =>
    if bool_decide (k' = k) then (k, v) :: d' else (k', v') :: dict_set k v d'
  end.

(** The first loop of [get_normalised_weights]. *)
Fixpoint collect_weights (mass_node : string) (names : list PyName)
    (weights : list (PyName * Qc)) : M (list (PyName * Qc)) :=
  match names with
  | [] => ret weights
  | section_name :: rest =>
    w ← get_section_weight mass_node section_name;
    collect_weights mass_node rest (dict_set section_name w weights)
  end.

(** [sum(...)] *)
Definition py_sum (values : list Qc) : Qc := foldl Qcplus 0%Qc values.


(** The section weights that [get_normalised_weights] reads. *)
Definition section_weights (mass_node : string) : M (list (PyName * Qc)) :=
  PyNode mass_node;;
  names ← get_section_names mass_node;
  collect_weights mass_node names [].


(** [get_section_influences] *)
Definition get_section_influences (mass_node : string) (section_name : PyName)
  : M (list string) :=
  PyNode mass_node;;
  section_idx ← _get_section_idx_from_name mass_node section_name;
  used ← _get_used_influence_indices mass_node section_idx;
  node ← PyNode mass_node;
  ret (used ≫= λ influence_idx,
         match sparse_get (Z.to_nat section_idx) (inputs node) with
         | Some s => option_list (sparse_get influence_idx (pointsOfBounds s))
         | None => []
         end).

(** *** Updates *)

(** [set_section_name] *)
Definition set_section_name (mass_node : string)
    (section_name new_name : PyName) : M unit :=
  PyNode mass_node;;
  names ← get_section_names mass_node;
  if bool_decide (new_name ∈ names) then ret ()
  else
    section_idx ← _get_section_idx_from_name mass_node section_name;
    if bool_decide (section_idx < 0)%Z then ret ()
    else setAttr_sectionIdentifier mass_node (Z.to_nat section_idx) new_name.

(** [set_section_weight] *)
Definition set_section_weight (mass_node : string) (section_name : PyName)
    (w : Qc) : M unit :=
  PyNode mass_node;;
  section_idx ← _get_section_idx_from_name mass_node section_name;
  if bool_decide (section_idx < 0)%Z then ret ()
  else setAttr_mass mass_node (Z.to_nat section_idx) w.

(** The [while True] loop of [add_section_influence]: the first counter that
    is not a used index.  It stops at the latest after as many turns as there
    are used indices. *)
Fixpoint first_free_counter (fuel counter : nat) (used : list nat) : nat :=
  match fuel with
  | 0 => counter
  | S fuel' =>
    if bool_decide (counter ∉ used) then counter
    else first_free_counter fuel' (S counter) used
  end.

(** [add_section_influence]; the result is the index connected, or [None]. *)
Definition add_section_influence (mass_node : string) (section_name : PyName)
    (influence : string) : M (option nat) :=
  PyNode mass_node;;
  found ← objExists influence;
  if negb found then ret None
  else
    has_matrix ← worldMatrix_exists influence;
    if negb has_matrix then ret None
    else
      section_idx ← _get_section_idx_from_name mass_node section_name;
      if bool_decide (section_idx < 0)%Z then ret None
      else
        used_influence_indices ←
          _get_used_influence_indices mass_node section_idx;
        let counter :=
          first_free_counter (length used_influence_indices) 0
                             used_influence_indices in
        connectAttr influence mass_node (Z.to_nat section_idx) counter;;
        ret (Some counter).

(** Python truth of a [str] or [None]. *)
Definition truthy (v : PyName) : bool :=
  match v with
  | None => false
  | Some s => negb (bool_decide (s = EmptyString))
  end.

(** The [while True] loop of [_initialise_mass_section]: the first counter
    whose [sectionIdentifier] reads as false takes the name.  An index that
    has no element reads [None], so [fuel] turns beyond the length of
    [inputs] are never needed. *)
Fixpoint initialise_loop (fuel counter : nat) (mass_node : string)
    (name : PyName) : M nat :=
  result ← getAttr_sectionIdentifier mass_node counter;
  if negb (truthy result) then
    setAttr_sectionIdentifier mass_node counter name;; ret counter
  else
    match fuel with
    | 0 => raise OutOfFuel
    | S fuel' => initialise_loop fuel' (S counter) mass_node name
    end.

(** [_initialise_mass_section] *)
Definition _initialise_mass_section (mass_node : string) (name : PyName)
  : M nat :=
  node ← PyNode mass_node;
  initialise_loop (length (inputs node)) 0 mass_node name.

(** [add_mass_group] *)
Definition add_mass_group (mass_node : string) (name : PyName) : M nat :=
  invalidate_section_cache;;
  PyNode mass_node;;
  _initialise_mass_section mass_node name.

(** [remove_mass_group] *)
Definition remove_mass_group (mass_node : string) (section_name : PyName)
  : M unit :=
  PyNode mass_node;;
  section_idx ← _get_section_idx_from_name mass_node section_name;
  if bool_decide (section_idx < 0)%Z then ret ()
  else
    removeMultiInstance mass_node (Z.to_nat section_idx);;
    invalidate_section_cache.

(** The names in use in a scene. *)
Definition taken_names (s : Scene) : list string :=
  (objects s).*1 ++ (map_to_list (mass_nodes s)).*1.

(** [new]: the transform takes [name], the node itself [name + 'Settings'],
    each made unique by the host. *)
Definition new (name : string) : M string :=
  s ← get_scene;
  let taken := taken_names s in
  let parent := unique_name taken name in
  let node := unique_name (parent :: taken) (name +:+ "Settings") in
  put_scene (mkScene (objects s ++ [(parent, true); (node, true)])
                     (<[node := default_node]> (mass_nodes s)));;
  ret node.

(** *** Persistence *)

(** The loop of [serialise]. *)
Definition serialise_section (mass_node : string) (section_name : PyName)
  : M SectionData :=
  w ← get_section_weight mass_node section_name;
  infl ← get_section_influences mass_node section_name;
  ret (mkSectionData section_name w infl).

(** [serialise]; [json.dump] stores the document under the file path. *)
Definition serialise (mass_node : string) (filepath : option string)
  : M MassData :=
  node ← PyNode mass_node;
  names ← get_section_names mass_node;
  sections ← mapM (serialise_section mass_node) names;
  let data := mkMassData mass_node sections (Some (settings node)) in
  match filepath with
  | Some path =>
    if bool_decide (path = EmptyString) then ret data
    else (f ← get_files; put_files (<[path := data]> f);; ret data)
  | None => ret data
  end.

(** Lines 771-781 of [deserialise]: an identifier that exists is taken as it
    is; otherwise the first object that bears its last component under any
    namespace; otherwise none. *)
Definition resolve_influence (influence : string) : M (option string) :=
  found ← objExists influence;
  if found then ret (Some influence)
  else
    let influence := after_last_colon influence in
    influences ← ls_recursive influence;
    match influences with
    | [] => ret None
    | first :: _ => ret (Some first)
    end.

Definition deserialise_influence (mass_node : string) (section_name : PyName)
    (influence : string) : M unit :=
  resolved ← resolve_influence influence;
  match resolved with
  | None => ret ()
  | Some influence =>
    add_section_influence mass_node section_name influence;; ret ()
  end.

Definition deserialise_section (mass_node : string) (section : SectionData)
  : M unit :=
  add_mass_group mass_node (name section);;
  set_section_weight mass_node (name section) (weight section);;
  forM_ (influences section) (deserialise_influence mass_node (name section)).

(** The five [set] calls on the settings of the node; [sphereSize] is a
    [kFloat] attribute. *)
Definition set_settings (mass_node : string) (s : Settings) : M unit :=
  match float32 (sphereSize s) with
  | None => raise FloatRange
  | Some stored =>
    node ← PyNode mass_node;
    put_node mass_node
      (mkNode (mkSettings (calculate s) (drawDebuggingLines s) (drawSphere s)
                          (drawVerticalLine s) stored)
              (inputs node))
  end.

(** [deserialise]; [json.load] reads the document stored under the path.
    The function has no [return]: its result is [None]. *)
Definition deserialise (filepath : string) : M unit :=
  f ← get_files;
  match f !! filepath with
  | None => raise IOError
  | Some data =>
    mass_node ← new (data_name data);
    match data_settings data with
    | Some s => set_settings mass_node s
    | None => ret ()
    end;;
    forM_ (data_sections data) (deserialise_section mass_node)
  end.

(** *** What a node holds, read off the scene *)

Fixpoint indexed_from {A} (i : nat) (l : list (option A)) : list (nat * A) :=
  match l with
  | [] => []
  | None :: l' => indexed_from (S i) l'
  | Some a :: l' => (i, a) :: indexed_from (S i) l'
  end.

(** The elements that exist, each with its index. *)
Definition indexed {A} (l : list (option A)) : list (nat * A) :=
  indexed_from 0 l.

Definition elements_of {A} (l : list (option A)) : list A := (indexed l).*2.

Definition sections_of (node : MassNode) : list SectionPlug :=
  elements_of (inputs node).

(** The [sectionIdentifier] of every section of the node, by index. *)
Definition identifiers (node : MassNode) : list PyName :=
  sectionIdentifier <$> sections_of node.

(** The first section that bears a name, with its index. *)
Fixpoint first_named (name : PyName) (l : list (nat * SectionPlug))
  : option (nat * SectionPlug) :=
  match l with
  | [] => None
  | (i, s) :: l' =>
    if bool_decide (sectionIdentifier s = name) then Some (i, s)
    else first_named name l'
  end.

Definition section_data_of (s : SectionPlug) : SectionData :=
  mkSectionData (sectionIdentifier s) (mass s)
                (elements_of (pointsOfBounds s)).

(** The document of a node: its sections by index, each with its name, its
    weight and its influences by index. *)
Definition document_of (mass_node : string) (node : MassNode) : MassData :=
  mkMassData mass_node (section_data_of <$> sections_of node)
             (Some (settings node)).

(** The section a document entry describes. *)
Definition section_of_data (d : SectionData) : SectionPlug :=
  mkSection (name d) (weight d) true (Some <$> influences d).

(** What the lookups by name return on a node. *)
Definition section_idx (node : MassNode) (name : PyName) : Z :=
  match first_named name (indexed (inputs node)) with
  | Some (i, _) => Z.of_nat i
  | None => (-1)%Z
  end.

Definition weight_of (node : MassNode) (name : PyName) : Qc :=
  match first_named name (indexed (inputs node)) with
  | Some (_, s) => mass s
  | None => 0%Qc
  end.

Definition influences_of (node : MassNode) (name : PyName) : list string :=
  match first_named name (indexed (inputs node)) with
  | Some (_, s) => elements_of (pointsOfBounds s)
  | None => []
  end.

(** The world with one node replaced. *)
Definition set_node (w : World) (mass_node : string) (node : MassNode)
  : World :=
  mkWorld (mkScene (objects (scene w))
                   (<[mass_node := node]> (mass_nodes (scene w))))
          (cache w) (files w).

(** The index that [_initialise_mass_section] settles on, counting from
    [counter] over the elements from there on. *)
Fixpoint first_free_section (counter : nat) (l : list (option SectionPlug))
  : nat :=
  match l with
  | [] => counter
  | None :: _ => counter
  | Some s :: l' =>
    if truthy (sectionIdentifier s) then first_free_section (S counter) l'
    else counter
  end.

Definition with_identifier (s : SectionPlug) (name : PyName) : SectionPlug :=
  mkSection name (mass s) (considerInCalculation s) (pointsOfBounds s).

Definition with_mass (s : SectionPlug) (w : Qc) : SectionPlug :=
  mkSection (sectionIdentifier s) w (considerInCalculation s)
            (pointsOfBounds s).

Definition with_bounds (s : SectionPlug) (b : list (option string))
  : SectionPlug :=
  mkSection (sectionIdentifier s) (mass s) (considerInCalculation s) b.

(** A node whose sections fill the indices from 0 on. *)
Definition node_of_sections (st : Settings) (secs : list SectionPlug)
  : MassNode :=
  mkNode st (Some <$> secs).

(** The names that [new] gives to the transform and to the node. *)
Definition new_parent_name (s : Scene) (name : string) : string :=
  unique_name (taken_names s) name.

Definition new_node_name (s : Scene) (name : string) : string :=
  unique_name (new_parent_name s name :: taken_names s) (name +:+ "Settings").





(** *** Conditions on the world *)

(** The cache is coherent for a node when a lookup of the node's section
    indices gives the indices the node has: the cache is dirty, or it holds
    no list, an empty list, or the current list for the node. *)
Definition coherent (w : World) (mass_node : string) : Prop :=
  _SECTION_CACHE_IS_DIRTY (cache w) = true ∨
  ∀ cached, _SECTION_INDICES (cache w) !! mass_node = Some cached →
    cached = [] ∨
    ∃ node, mass_nodes (scene w) !! mass_node = Some node ∧
            cached = listAttr_sections node.

(** The cache lists indices only for nodes of the scene. *)
Definition cache_keys_ok (w : World) : Prop :=
  ∀ mass_node cached,
    _SECTION_INDICES (cache w) !! mass_node = Some cached →
    cached = [] ∨ is_Some (mass_nodes (scene w) !! mass_node).

(** Section names are unique, and none reads as false. *)
Definition well_named (node : MassNode) : Prop :=
  NoDup (identifiers node) ∧ Forall (λ i, truthy i = true) (identifiers node).

(** The weights and the sphere size of the node are 32-bit floats, as the
    attributes that hold them are. *)
Definition float_valued (node : MassNode) : Prop :=
  is_float32 (sphereSize (settings node)) ∧
  Forall (λ sec, is_float32 (mass sec)) (sections_of node).

(** Every influence of the node is an object of the scene that has a
    [worldMatrix]. *)
Definition influences_exist (s : Scene) (node : MassNode) : Prop :=
  Forall (λ sec, Forall (λ i, (i, true) ∈ objects s)
                        (elements_of (pointsOfBounds sec)))
         (sections_of node).

(** No section of the node bears the name. *)
Definition no_section_named (mass_node : string) (name : string) (w : World)
  : Prop :=
  ∃ node, mass_nodes (scene w) !! mass_node = Some node ∧
          Some name ∉ identifiers node.

(** Total correctness: from a world that satisfies [P] the call returns, and
    its result and the world it leaves satisfy [Q]. *)
Definition hoare {A} (P : World → Prop) (m : M A) (Q : A → World → Prop)
  : Prop :=
  ∀ w, P w → ∃ a w', m w = Ok (a, w') ∧ Q a w'.

(** A call on one node of the scene, from any world whose cache is coherent
    for that node: it returns [v], turns the node into [node'], leaves the
    rest of the scene, the files and the cache entries of other nodes alone,
    and leaves the cache coherent for the node. *)
Definition step {A} (objs : list (string * bool)) (mass_node : string)
    (node : MassNode) (m : M A) (v : A) (node' : MassNode) : Prop :=
  ∀ w, objects (scene w) = objs →
       mass_nodes (scene w) !! mass_node = Some node →
       coherent w mass_node →
  ∃ w', m w = Ok (v, w') ∧
        objects (scene w') = objs ∧
        mass_nodes (scene w') = <[mass_node := node']> (mass_nodes (scene w)) ∧
        files w' = files w ∧
        coherent w' mass_node ∧
        ∀ k, k ≠ mass_node →
             _SECTION_INDICES (cache w') !! k = _SECTION_INDICES (cache w) !! k.

(** The result of a call, without the world it leaves. *)
Definition eval {A} (m : M A) (w : World) : Result A :=
  match m w with
  | Ok (a, _) => Ok a
  | Raise e => Raise e
  end.

(** *** The remaining functions of the registry *)

(** [massimo_nodes]: [pm.ls(type='CenterOfMass')], the nodes of the scene, in
    an order that is the host's. *)
Definition massimo_nodes : M (list string) :=
  s ← get_scene; ret (map_to_list (mass_nodes s)).*1.

(** The elements [inputs[i].pointsOfBounds[j]] of a node that an influence
    drives. *)
Definition driven_bounds (influence : string) (node : MassNode)
  : list (nat * nat) :=
  filter (λ p, (sparse_get p.1 (inputs node)
                  ≫= λ s, sparse_get p.2 (pointsOfBounds s)) = Some influence)
         (listAttr_bounds node).

(** [influence.attr('worldMatrix[0]').outputs(plugs=True)]: the plugs that
    the influence drives, on every node of the scene, each as the name of its
    node and the two indices that [plug.name()] shows.  Plugs of other kinds
    of node bear no [inputs[..].pointsOfBounds[..]] in their names, are
    passed over by the loop below, and are left out; the order of the plugs
    is the host's.  An object without a [worldMatrix] has no such attribute,
    and the host raises. *)
Definition worldMatrix_outputs (influence : string)
  : M (list (string * (nat * nat))) :=
  has_matrix ← worldMatrix_exists influence;
  if negb has_matrix then raise MayaNodeError
  else
    s ← get_scene;
    ret (map_to_list (mass_nodes s)
           ≫= λ kn, (λ p, (kn.1, p)) <$> driven_bounds influence kn.2).

(** [cmds.removeMultiInstance('{}.inputs[{}].pointsOfBounds[{}]', b=True)]:
    the element is gone, with its connection; nothing happens when there is
    no such element. *)
Definition removeMultiInstance_bound (mass_node : string)
    (section_idx influence_idx : nat) : M unit :=
  node ← PyNode mass_node;
  match sparse_get section_idx (inputs node) with
  | Some s =>
    put_node mass_node
      (mkNode (settings node)
         (sparse_set section_idx
            (mkSection (sectionIdentifier s) (mass s) (considerInCalculation s)
                       (sparse_remove influence_idx (pointsOfBounds s)))
            (inputs node)))
  | None => ret ()
  end.

(** The body of the loop of [remove_section_influence].  A plug is looked at
    when its name contains [inputs[section_idx]]; node names hold no
    brackets, so this is when its section index is [section_idx], and
    [_REGEX_BOUNDS] then gives its second index.  The name of the node that
    bears the plug is not looked at. *)
Definition remove_plug (mass_node : string) (section_idx : Z)
    (plug : string * (nat * nat)) : M unit :=
  if bool_decide (Z.of_nat plug.2.1 = section_idx)
  then removeMultiInstance_bound mass_node (Z.to_nat section_idx) plug.2.2
  else ret ().

(** [remove_section_influence] *)
Definition remove_section_influence (mass_node : string)
    (section_name : PyName) (influence : string) : M unit :=
  PyNode mass_node;;
  found ← objExists influence;
  if negb found then ret ()
  else
    section_idx ← _get_section_idx_from_name mass_node section_name;
    if bool_decide (section_idx < 0)%Z then ret ()
    else
      plugs ← worldMatrix_outputs influence;
      forM_ plugs (remove_plug mass_node section_idx).

(** *** What an update leaves, read off the node *)

(** The node with the section at an index written. *)
Definition with_section (node : MassNode) (idx : nat) (sec : SectionPlug)
  : MassNode :=
  mkNode (settings node) (sparse_set idx sec (inputs node)).

(** The node with the section at an index removed. *)
Definition without_section (node : MassNode) (idx : nat) : MassNode :=
  mkNode (settings node) (sparse_remove idx (inputs node)).

(** The node with the first section that bears a name changed; the node
    itself when no section bears it. *)
Definition update_named (node : MassNode) (name : PyName)
    (f : SectionPlug → SectionPlug) : MassNode :=
  match first_named name (indexed (inputs node)) with
  | Some (i, sec) => with_section node i (f sec)
  | None => node
  end.

(** The node with the first section that bears a name removed. *)
Definition remove_named (node : MassNode) (name : PyName) : MassNode :=
  match first_named name (indexed (inputs node)) with
  | Some (i, _) => without_section node i
  | None => node
  end.

(** The section that [add_mass_group] names: the one at the first index
    whose identifier reads as false, or a new one with the defaults. *)
Definition named_section (node : MassNode) (name : PyName) : SectionPlug :=
  with_identifier
    (default default_section
       (sparse_get (first_free_section 0 (inputs node)) (inputs node)))
    name.

(** The first index that is not in use. *)
Definition first_free {A} (l : list (option A)) : nat :=
  first_free_counter (length (used_indices l)) 0 (used_indices l).

(** A list without the first section that bears a name. *)
Fixpoint remove_first_named (name : PyName) (secs : list SectionPlug)
  : list SectionPlug :=
  match secs with
  | [] => []
  | sec :: rest =>
    if bool_decide (sectionIdentifier sec = name) then rest
    else sec :: remove_first_named name rest
  end.

(** How many sections bear a name. *)
Definition count_named (name : PyName) (node : MassNode) : nat :=
  length (filter (λ i, i = name) (identifiers node)).

(** The bounds of a section after the loop of [remove_section_influence]
    over the plugs. *)
Definition bounds_without (i : nat) (plugs : list (string * (nat * nat)))
    (bounds : list (option string)) : list (option string) :=
  foldl (λ b plug, if bool_decide (plug.2.1 = i) then sparse_remove plug.2.2 b
                   else b) bounds plugs.

(** The bounds without the elements that an influence drives. *)
Definition without_influence (influence : string)
    (bounds : list (option string)) : list (option string) :=
  (λ o, if bool_decide (o = Some influence) then None else o) <$> bounds.

(** The influence drives the element [j] of the section [i] of some node of
    the scene. *)
Definition drives (s : Scene) (influence : string) (i j : nat) : Prop :=
  ∃ k other sec, mass_nodes s !! k = Some other ∧
                 sparse_get i (inputs other) = Some sec ∧
                 sparse_get j (pointsOfBounds sec) = Some influence.

(** The influence drives the section [i] of no node but [mass_node]. *)
Definition drives_only (s : Scene) (mass_node influence : string) (i : nat)
  : Prop :=
  ∀ k other sec j,
    mass_nodes s !! k = Some other →
    sparse_get i (inputs other) = Some sec →
    sparse_get j (pointsOfBounds sec) = Some influence → k = mass_node.

(** *** The result of a call on a node *)

(** The call returns [v] and leaves a world that differs from [w] at most in
    the node [mass_node], which is now [node'], and in the cache, which is
    coherent for the node. *)
Definition returns {A} (m : M A) (w : World) (mass_node : string) (v : A)
    (node' : MassNode) : Prop :=
  ∃ w', m w = Ok (v, w') ∧
        objects (scene w') = objects (scene w) ∧
        mass_nodes (scene w') = <[mass_node := node']> (mass_nodes (scene w)) ∧
        files w' = files w ∧
        coherent w' mass_node.

(** The call returns [v] and leaves the scene and the files of [w] as they
    are, and the cache coherent for the node. *)
Definition reads {A} (m : M A) (w : World) (mass_node : string) (v : A)
  : Prop :=
  ∃ w', m w = Ok (v, w') ∧ scene w' = scene w ∧ files w' = files w ∧
        coherent w' mass_node.

(** *** Sample worlds *)

(** The weight 0.1, and the 32-bit float that stores it. *)
Definition tenth : Qc := Q2Qc (1 # 10).
Definition float32_tenth : Qc := Q2Qc (13421773 # 134217728).

(** A node with two sections at the indices 0 and 2; the first has
    influences at the indices 0 and 2, the second one at the index 0. *)
Definition sample_node : MassNode :=
  mkNode default_settings
    [Some (mkSection (Some "arm") (Qc_of_Z 2) true
                     [Some "elbow"; None; Some "wrist"]);
     None;
     Some (mkSection (Some "leg") (Qc_of_Z 3) true [Some "knee"])].

(** Its first section. *)
Definition sample_arm : SectionPlug :=
  mkSection (Some "arm") (Qc_of_Z 2) true [Some "elbow"; None; Some "wrist"].

Definition sample_world : World :=
  mkWorld
    (mkScene [("elbow", true); ("wrist", true); ("knee", true);
              ("massimo", true); ("massimoSettings", true)]
             {["massimoSettings" := sample_node]})
    (mkCache ∅ true) ∅.

Definition sample_weights : list (PyName * Qc) :=
  [(Some "arm", Qc_of_Z 2); (Some "leg", Qc_of_Z 3)].

(** The world that a first query of the sample node leaves: its indices are
    cached. *)
Definition sample_world_cached : World :=
  mkWorld (scene sample_world)
          (mkCache {["massimoSettings" := [0; 2]]} false) ∅.

(** A node whose only section weighs nothing. *)
Definition weightless_node : MassNode :=
  mkNode default_settings [Some (mkSection (Some "arm") 0%Qc true [])].

Definition weightless_world : World :=
  mkWorld (mkScene [("massimoSettings", true)]
                   {["massimoSettings" := weightless_node]})
          (mkCache ∅ true) ∅.

Definition weightless_world_cached : World :=
  mkWorld (scene weightless_world)
          (mkCache {["massimoSettings" := [0]]} false) ∅.

(** *** Scenarios *)

(** A fresh process and an empty scene. *)
Definition empty_world : World :=
  mkWorld (mkScene [] ∅) (mkCache ∅ true) ∅.

(** Two nodes.  The first gets a section [x] and is queried; it then gets a
    section [y]; the second node is queried; the first is asked to rename
    [x] to [y].  The result is the section names of the first node before
    and after the rename, read off the scene. *)
Definition rename_scenario : M (list PyName * list PyName) :=
  first ← new "massimo";
  second ← new "other";
  add_mass_group first (Some "x");;
  get_section_names first;;
  add_mass_group first (Some "y");;
  get_section_names second;;
  node ← PyNode first;
  set_section_name first (Some "x") (Some "y");;
  node' ← PyNode first;
  ret (identifiers node, identifiers node').




(** The document of the one node of the scene other than [mass_node]. *)
Definition serialise_other (mass_node : string) : M MassData :=
  nodes ← massimo_nodes;
  match filter (λ n, n ≠ mass_node) nodes with
  | [loaded] => serialise loaded None
  | _ => raise MayaNodeError
  end.

(** A node with the sections [x] (weight 2) and [a] (weight 3), [x]
    then renamed to the empty string, is saved and loaded, and the node
    that the load created is saved.  The result is the sections of the two
    documents. *)
Definition empty_name_scenario : M (list SectionData * list SectionData) :=
  mass_node ← new "massimo";
  add_mass_group mass_node (Some "x");;
  set_section_weight mass_node (Some "x") (Qc_of_Z 2);;
  add_mass_group mass_node (Some "a");;
  set_section_weight mass_node (Some "a") (Qc_of_Z 3);;
  set_section_name mass_node (Some "x") (Some "");;
  data ← serialise mass_node (Some "body.mass");
  deserialise "body.mass";;
  data' ← serialise_other mass_node;
  ret (data_sections data, data_sections data').

End Core.

(** ** scripts/massimo/defaults.py *)

Module Defaults.

(** A weight written with one decimal: [tenths 86] is [8.6]. *)
Definition tenths (n : Z) : Qc := Q2Qc (n # 10).

(** [Defaults._VALUES], in the order the entries are written, which is the
    order in which Python (3.7 and later) iterates a [dict]. *)
Definition _VALUES : list (string * Qc) :=
  [("belly", tenths 86); ("torso", tenths 86); ("hip", tenths 86);
   ("lower_body", tenths 86); ("chest", tenths 100);
   ("upper_body", tenths 100); ("body", tenths 186);
   ("upper_arm", tenths 6); ("arm_upper", tenths 6); ("humerus", tenths 6);
   ("lower_arm", tenths 4); ("arm_lower", tenths 4); ("forearm", tenths 4);
   ("hand", tenths 2);
   ("upper_leg", tenths 19); ("leg_upper", tenths 19); ("femur", tenths 19);
   ("thigh", tenths 19);
   ("lower_leg", tenths 10); ("leg_lower", tenths 10); ("calf", tenths 10);
   ("foot", tenths 5); ("feet", tenths 5); ("head", tenths 39)].

(** [str.lower], on the letters A to Z. *)
Definition lower_ascii (c : ascii) : ascii :=
  let k := nat_of_ascii c in
  if (65 <=? k) && (k <=? 90) then ascii_of_nat (k + 32) else c.

Fixpoint lower (s : string) : string :=
  match s with
  | EmptyString => EmptyString
  | String c rest => String (lower_ascii c) (lower rest)
  end.

(** [item.replace('_', by)] *)
Fixpoint replace_underscore (by_ : string) (item : string) : string :=
  match item with
  | EmptyString => EmptyString
  | String c rest =>
    if bool_decide (c = "_"%char) then by_ +:+ replace_underscore by_ rest
    else String c (replace_underscore by_ rest)
  end.

Fixpoint starts_with (p s : string) : bool :=
  match p, s with
  | EmptyString, _ => true
  | String _ _, EmptyString => false
  | String a p', String b s' => bool_decide (a = b) && starts_with p' s'
  end.

(** [p in s], on strings. *)
Fixpoint contains (p s : string) : bool :=
  starts_with p s ||
  match s with
  | EmptyString => false
  | String _ s' => contains p s'
  end.

(** The inner loop of [Defaults.get]: whether one of the ways of writing the
    item occurs in the lower-cased value. *)
Fixpoint matches (matchable_alternatives : list string) (value : string)
  : bool :=
  match matchable_alternatives with
  | [] => false
  | matchable_item :: rest =>
    if contains matchable_item (lower value) then true
    else matches rest value
  end.

(** The outer loop of [Defaults.get], over the items that are left. *)
Fixpoint get_from (values : list (string * Qc)) (value : string) : Qc :=
  match values with
  | [] => 1%Qc
  | (item, v) :: rest =>
    let matchable_alternatives :=
      [item; replace_underscore "" item; replace_underscore " " item] in
    if matches matchable_alternatives value then v
    else get_from rest value
  end.

(** [Defaults.get] *)
Definition get (value : string) : Qc := get_from _VALUES value.

(** The three ways an item is written. *)
Definition written (item : string) : list string :=
  [item; replace_underscore "" item; replace_underscore " " item].

End Defaults.

(** * Properties of the centre-of-mass node *)

Module RuntimeFacts.
Import Runtime.

Section Generic.
Context {F : Type} `{PyFloat F}.

Lemma collate_filter (elements : list (InputElement F)) :
  collate (filter (λ e, takes_part e = true) elements) = collate elements.
Proof.
  induction elements as [|e rest IH]; [done|].
  rewrite filter_cons.
  destruct (decide (takes_part e = true)) as [Ht|Ht];
    unfold takes_part in Ht; cbn [collate];
    destruct (feqb (mass e) fzero || negb (considerInCalculation e));
    try done.
  by rewrite IH.
Qed.

(** C3, as the code has it. An entry is left out exactly when its mass
    equals zero or it is marked not considered: [compute] on any data block
    gives the outputs it gives on the entries with a non-zero mass that are
    marked considered. *)
Theorem compute_excludes_zero_mass_and_unconsidered
    (plug : Plug) (data : DataBlock F) :
  let kept := filter (λ e, takes_part e = true) (inputs data) in
  (∀ e, e ∈ kept ↔
        e ∈ inputs data ∧ feqb (mass e) fzero = false
        ∧ considerInCalculation e = true) ∧
  rbind (compute plug data) (λ d, Ok (outputs d))
  = rbind (compute plug (with_inputs data kept)) (λ d, Ok (outputs d)).
Proof.
  cbn zeta. split.
  - intros e. rewrite list_elem_of_filter. unfold takes_part.
    destruct (feqb (mass e) fzero), (considerInCalculation e); cbn;
      intuition congruence.
  - unfold compute, with_inputs. cbn [calculate inputs].
    destruct (is_output_plug plug); [|done].
    destruct (calculate data); cbn [negb]; [|done].
    rewrite collate_filter.
    destruct (collate (inputs data)) as [pairs|e]; cbn [rbind]; [|done].
    destruct (aggregate pairs) as [v|e]; done.
Qed.

(** C10. With the calculate flag off, [compute] succeeds and leaves the three
    output translate values (and the inputs) as they were, whatever the plug
    and the input sections; for an output plug it only marks them clean. *)
Theorem compute_not_calculating_keeps_outputs
    (plug : Plug) (data : DataBlock F) :
  calculate data = false →
  ∃ data',
    compute plug data = Ok data' ∧
    comTranslateX data' = comTranslateX data ∧
    comTranslateY data' = comTranslateY data ∧
    comTranslateZ data' = comTranslateZ data ∧
    inputs data' = inputs data ∧
    (is_output_plug plug = true →
     cleanX data' = true ∧ cleanY data' = true ∧ cleanZ data' = true).
Proof.
  intros Hcalc. unfold compute. rewrite Hcalc. cbn [negb].
  destruct (is_output_plug plug).
  - exists (set_clean data). by repeat split.
  - exists data. by repeat split.
Qed.

Lemma lerp_vector_componentwise (a b : Vec3 F) (percent : F) :
  lerp_vector a b percent
  = mkVec3 (lerp_float (vx a) (vx b) percent)
           (lerp_float (vy a) (vy b) percent)
           (lerp_float (vz a) (vz b) percent).
Proof. done. Qed.

End Generic.

(** *** Exact arithmetic *)

Section Exact.
Local Open Scope Qc_scope.

Lemma truediv_exact (a b : Qc) : b ≠ 0 → truediv a b = Ok (a / b).
Proof. intros Hb. unfold truediv. cbn. by rewrite bool_decide_eq_false_2. Qed.

Lemma total_mass_nonneg pairs : positive_masses pairs → 0 ≤ total_mass pairs.
Proof.
  induction 1 as [|p rest Hp _ IH]; cbn; [done|].
  apply Qcplus_nonneg_nonneg; [by apply Qclt_le_weak|done].
Qed.

Lemma vec3_eq (x y z x' y' z' : Qc) :
  x = x' → y = y' → z = z' → mkVec3 x y z = mkVec3 x' y' z'.
Proof. by intros -> -> ->. Qed.

Lemma total_mass_cons m c rest :
  total_mass ((m, c) :: rest) = m + total_mass rest.
Proof. done. Qed.

Lemma weighted_sum_cons m c rest :
  weighted_sum ((m, c) :: rest) = vec_add (scale m c) (weighted_sum rest).
Proof. done. Qed.

Lemma Qc_pos_ne_0 (x : Qc) : 0 < x → x ≠ 0.
Proof. intros Hx ->. by apply (irreflexivity Qclt 0). Qed.

(** The invariant of the blend: after any number of turns the current
    location is the weighted sum so far over the running mass. *)
Lemma blend_loop_mean (running_mass : Qc) (current : Vec3 Qc) pairs :
  0 < running_mass → positive_masses pairs →
  blend_loop (running_mass, Some current) pairs
  = Ok (running_mass + total_mass pairs,
        Some (mkVec3
          ((running_mass * vx current + vx (weighted_sum pairs))
             / (running_mass + total_mass pairs))
          ((running_mass * vy current + vy (weighted_sum pairs))
             / (running_mass + total_mass pairs))
          ((running_mass * vz current + vz (weighted_sum pairs))
             / (running_mass + total_mass pairs)))).
Proof.
  intros Hrm Hpos. revert running_mass current Hrm.
  induction Hpos as [|[m c] rest Hm Hrest IH]; intros running_mass current Hrm.
  - cbn. destruct current as [x y z]. cbn.
    pose proof (Qc_pos_ne_0 _ Hrm).
    apply (f_equal Ok), f_equal2; [ring|].
    apply (f_equal Some), vec3_eq; by field.
  - cbn [blend_loop blend_step fst snd]. cbn in Hm.
    assert (0 < running_mass + m) as Hrm' by by apply Qcplus_pos_pos.
    change (fadd running_mass m) with (running_mass + m).
    rewrite truediv_exact by by apply Qc_pos_ne_0.
    cbn [rbind]. rewrite IH by done.
    pose proof (total_mass_nonneg _ Hrest) as Hnn.
    rewrite total_mass_cons, weighted_sum_cons.
    assert (running_mass + (m + total_mass rest) ≠ 0) as Hne.
    { apply Qc_pos_ne_0. apply Qcplus_pos_nonneg; [done|].
      apply Qcplus_nonneg_nonneg; [by apply Qclt_le_weak|done]. }
    pose proof (Qc_pos_ne_0 _ Hrm') as Hne'.
    destruct current as [x y z], c as [cx cy cz].
    destruct (weighted_sum rest) as [sx sy sz].
    remember (total_mass rest) as T eqn:HT. clear HT IH. cbn.
    apply (f_equal Ok), f_equal2; [ring|].
    apply (f_equal Some), vec3_eq; field; repeat split; try done;
      by rewrite <- Qcplus_assoc.
Qed.

Lemma blend_loop_first pairs :
  positive_masses pairs → pairs ≠ [] →
  blend_loop (0, None) pairs = Ok (total_mass pairs, Some (weighted_mean pairs)).
Proof.
  intros Hpos Hne. destruct Hpos as [|[m c] rest Hm Hrest]; [done|].
  cbn [blend_loop blend_step rbind]. cbn in Hm.
  change (fadd 0 m) with (0 + m). rewrite Qcplus_0_l.
  rewrite blend_loop_mean by done.
  pose proof (total_mass_nonneg _ Hrest) as Hnn.
  assert (m + total_mass rest ≠ 0) as Hne'.
  { apply Qc_pos_ne_0. by apply Qcplus_pos_nonneg. }
  destruct c as [cx cy cz]. unfold weighted_mean. cbn.
  done.
Qed.

Lemma insert_by_mass_perm (x : Qc * Vec3 Qc) l : insert_by_mass x l ≡ₚ x :: l.
Proof.
  induction l as [|y l IH]; cbn; [done|].
  destruct (bool_decide _); [|done].
  by rewrite IH, Permutation_swap.
Qed.

Lemma sorted_by_mass_perm (l : list (Qc * Vec3 Qc)) : sorted_by_mass l ≡ₚ l.
Proof.
  induction l as [|x l IH]; cbn; [done|].
  by rewrite insert_by_mass_perm, IH.
Qed.

Lemma total_mass_perm l l' : l ≡ₚ l' → total_mass l = total_mass l'.
Proof.
  induction 1 as [|[m c] l l' _ IH|[m c] [m' c'] l|l l' l'' _ IH1 _ IH2];
    rewrite ?total_mass_cons; [done|by rewrite IH|ring|congruence].
Qed.

Lemma weighted_sum_perm l l' : l ≡ₚ l' → weighted_sum l = weighted_sum l'.
Proof.
  induction 1 as [|[m c] l l' _ IH|[m c] [m' c'] l|l l' l'' _ IH1 _ IH2];
    rewrite ?weighted_sum_cons; [done|by rewrite IH| |congruence].
  destruct (weighted_sum l). apply vec3_eq; cbn; ring.
Qed.

Lemma weighted_mean_perm l l' : l ≡ₚ l' → weighted_mean l = weighted_mean l'.
Proof.
  intros Hp. unfold weighted_mean.
  by rewrite (weighted_sum_perm _ _ Hp), (total_mass_perm _ _ Hp).
Qed.

Lemma aggregate_weighted_mean pairs :
  positive_masses pairs → pairs ≠ [] →
  aggregate pairs = Ok (weighted_mean pairs).
Proof.
  intros Hpos Hne. unfold aggregate.
  pose proof (sorted_by_mass_perm pairs) as Hperm.
  rewrite blend_loop_first.
  - cbn. f_equal. by apply weighted_mean_perm.
  - unfold positive_masses. by rewrite Hperm.
  - intros Hnil. rewrite Hnil in Hperm.
    by apply Permutation_nil_l in Hperm.
Qed.

Lemma insert_by_mass_sorted (x : Qc * Vec3 Qc) l :
  Sorted mass_le l → Sorted mass_le (insert_by_mass x l).
Proof.
  induction l as [|y l IH]; intros Hsorted; cbn [insert_by_mass].
  - by repeat constructor.
  - cbn [fltb Qc_float]. case_bool_decide as Hlt.
    + apply Sorted_inv in Hsorted as [Hsorted Hhd].
      constructor; [by apply IH|].
      destruct l as [|z l]; cbn [insert_by_mass].
      * constructor. by apply Qclt_le_weak.
      * cbn [fltb Qc_float]. case_bool_decide.
        -- constructor. by apply HdRel_inv in Hhd.
        -- constructor. by apply Qclt_le_weak.
    + constructor; [done|]. constructor. by apply Qcnot_lt_le.
Qed.

Lemma sorted_by_mass_sorted (l : list (Qc * Vec3 Qc)) :
  Sorted mass_le (sorted_by_mass l).
Proof.
  induction l as [|x l IH]; cbn; [constructor|].
  by apply insert_by_mass_sorted.
Qed.

(** C2, as the code has it. In exact arithmetic and for positive masses the
    ascending sort followed by the running-ratio blend returns exactly the
    closed-form weighted mean [sum(mass_i * center_i) / sum(mass_i)], and so
    the same result for every order of the input. *)
Theorem aggregate_is_weighted_mean (pairs pairs' : list (Qc * Vec3 Qc)) :
  positive_masses pairs → pairs ≠ [] → pairs' ≡ₚ pairs →
  aggregate pairs = Ok (weighted_mean pairs) ∧
  aggregate pairs' = aggregate pairs.
Proof.
  intros Hpos Hne Hperm. split; [by apply aggregate_weighted_mean|].
  assert (positive_masses pairs') as Hpos'.
  { unfold positive_masses. by rewrite Hperm. }
  assert (pairs' ≠ []) as Hne'.
  { intros ->. by apply Permutation_nil_l in Hperm. }
  rewrite (aggregate_weighted_mean pairs'), (aggregate_weighted_mean pairs)
    by done.
  f_equal. by apply weighted_mean_perm.
Qed.

Lemma aggregate_is_weighted_mean_witness :
  aggregate [(1, mkVec3 1 0 0); (2, mkVec3 0 1 0)]
  = Ok (weighted_mean [(1, mkVec3 1 0 0); (2, mkVec3 0 1 0)]) ∧
  aggregate [(2, mkVec3 0 1 0); (1, mkVec3 1 0 0)]
  = aggregate [(1, mkVec3 1 0 0); (2, mkVec3 0 1 0)].
Proof.
  apply (aggregate_is_weighted_mean
           [(1, mkVec3 1 0 0); (2, mkVec3 0 1 0)]
           [(2, mkVec3 0 1 0); (1, mkVec3 1 0 0)]).
  - repeat constructor.
  - discriminate.
  - apply perm_swap.
Defined.

(** C2, as stated, is refuted: no list of pairs with positive masses makes
    the procedure differ from the closed-form weighted mean, and no
    permutation of such a list changes the result. *)
Lemma order_dependence_refuted :
  ((∃ pairs, positive_masses pairs ∧ pairs ≠ [] ∧
             aggregate pairs ≠ Ok (weighted_mean pairs)) ∨
   (∃ pairs pairs', positive_masses pairs ∧ pairs' ≡ₚ pairs ∧
                    aggregate pairs' ≠ aggregate pairs))
  ↔ False.
Proof.
  split; [|done].
  intros [(pairs & Hpos & Hne & Hdiff)|(pairs & pairs' & Hpos & Hperm & Hdiff)].
  - by apply Hdiff, aggregate_weighted_mean.
  - apply Hdiff. destruct pairs as [|p pairs].
    + by apply Permutation_nil_r in Hperm as ->.
    + assert (positive_masses pairs') as Hpos'.
      { unfold positive_masses. by rewrite Hperm. }
      assert (pairs' ≠ []) as Hne'.
      { intros ->. by apply Permutation_nil_l in Hperm. }
      rewrite (aggregate_weighted_mean pairs'),
        (aggregate_weighted_mean (p :: pairs)) by done.
      f_equal. by apply weighted_mean_perm.
Qed.

(** C9, as the code has it. In exact arithmetic [lerp_float] returns its
    first argument at 0 and its second at 1; in any arithmetic [lerp_vector]
    is [lerp_float] on each of the three coordinates. *)
Theorem lerp_endpoints_exact :
  (∀ a b : Qc, lerp_float a b 0 = a ∧ lerp_float a b 1 = b) ∧
  (∀ (F : Type) (HF : PyFloat F) (a b : Vec3 F) (percent : F),
     lerp_vector a b percent
     = mkVec3 (lerp_float (vx a) (vx b) percent)
              (lerp_float (vy a) (vy b) percent)
              (lerp_float (vz a) (vz b) percent)).
Proof.
  split.
  - intros a b. unfold lerp_float. cbn. split; ring.
  - intros. apply lerp_vector_componentwise.
Qed.

End Exact.

(** *** IEEE binary64, the arithmetic of Python's [float] *)

Section Binary64.
Local Open Scope float_scope.

(** C9, as stated for floats, fails. [1.0 - 1e16] rounds to [-1e16], so
    [lerp_float(1e16, 1.0, 1)] is [0.0] and not [1.0]; and the difference of
    the largest float and its opposite overflows, so that at 0 the result is
    not a number and (as no float equals it) not the first argument. *)
Lemma lerp_endpoints_binary64 :
  lerp_float 1e16 1 1 = 0 ∧
  feqb (lerp_float 1e16 1 1) 1 = false ∧
  feqb (lerp_float (-0x1.fffffffffffffp+1023) 0x1.fffffffffffffp+1023 0)
       (-0x1.fffffffffffffp+1023) = false.
Proof. vm_compute. done. Qed.

(** C3, as stated, fails: an entry of negative mass takes part.  With mass
    -1 at x = 1 and mass 2 at x = 3, [compute] writes x = 5, while the
    entries of mass above zero alone give x = 3. *)
Lemma negative_mass_takes_part :
  rbind (compute aTranslateX negative_mass_data) (λ d, Ok (outputs d))
  = Ok (5, 0, 0) ∧
  rbind (compute aTranslateX
           (with_inputs negative_mass_data
              (filter (λ e, spec_takes_part e = true)
                      (inputs negative_mass_data))))
        (λ d, Ok (outputs d))
  = Ok (3, 0, 0).
Proof. vm_compute. done. Qed.

Lemma compute_not_calculating_keeps_outputs_witness :
  ∃ data',
    compute aTranslateX idle_data = Ok data' ∧
    comTranslateX data' = comTranslateX idle_data ∧
    comTranslateY data' = comTranslateY idle_data ∧
    comTranslateZ data' = comTranslateZ idle_data ∧
    inputs data' = inputs idle_data ∧
    (is_output_plug aTranslateX = true →
     cleanX data' = true ∧ cleanY data' = true ∧ cleanZ data' = true).
Proof.
  apply (compute_not_calculating_keeps_outputs aTranslateX idle_data).
  reflexivity.
Defined.

End Binary64.

(** *** The centre of mass in closed form *)

Section ClosedForm.
Local Open Scope Qc_scope.

Lemma center_fold (acc : Vec3 Qc) (positions : list (Vec3 Qc)) :
  foldl (λ (result : option (Vec3 Qc)) position,
           match result with
           | None => Some position
           | Some r => Some (vec_add r position)
           end) (Some acc) positions
  = Some (vec_add acc (vec_sum positions)).
Proof.
  revert acc. induction positions as [|p ps IH]; intros acc; cbn [foldl].
  - f_equal. destruct acc. apply vec3_eq; cbn; ring.
  - rewrite IH. f_equal. unfold vec_sum. cbn [foldr].
    destruct acc, p, (foldr vec_add origin ps). apply vec3_eq; cbn; ring.
Qed.

Lemma of_len_S_ne_0 (k : nat) : Qc_of_Z (Z.of_nat (S k)) ≠ 0.
Proof.
  rewrite <- Z2Qc_inj_0. intros Heq%Z2Qc_inj. lia.
Qed.

(** X1. In exact arithmetic [center] never raises: it returns the origin for
    an empty list of positions and otherwise the componentwise arithmetic
    mean of the positions, their sum divided by their number. *)
Theorem center_is_arithmetic_mean (positions : list (Vec3 Qc)) :
  center positions
  = Ok (match positions with
        | [] => origin
        | _ => arithmetic_mean positions
        end).
Proof.
  destruct positions as [|p ps]; [done|].
  unfold center. cbn [foldl]. rewrite center_fold.
  change (of_len (length (p :: ps))) with (Qc_of_Z (Z.of_nat (S (length ps)))).
  rewrite !truediv_exact by apply of_len_S_ne_0.
  cbn [rbind]. f_equal.
Qed.

Lemma collate_parts (elements : list (InputElement Qc)) :
  collate elements = Ok (parts elements).
Proof.
  unfold parts. induction elements as [|e rest IH]; [done|].
  rewrite filter_cons.
  destruct (decide (takes_part e = true)) as [Ht|Ht];
    unfold takes_part in Ht; cbn [collate];
    destruct (feqb (mass e) fzero || negb (considerInCalculation e));
    try done.
  rewrite center_is_arithmetic_mean, IH.
  cbn [rbind fmap list_fmap]. do 3 f_equal.
  unfold centre_of_bounds. by destruct (pointsOfBounds e).
Qed.

Lemma parts_masses_nonzero (elements : list (InputElement Qc)) :
  Forall (λ p, p.1 ≠ 0) (parts elements).
Proof.
  unfold parts. apply Forall_fmap, Forall_forall. intros e [Hpart _]%list_elem_of_filter.
  cbn. unfold takes_part in Hpart.
  apply negb_true_iff, orb_false_iff in Hpart as [Hmass _].
  by apply bool_decide_eq_false in Hmass.
Qed.

Lemma parts_positive (elements : list (InputElement Qc)) :
  Forall (λ e, 0 ≤ mass e) elements → positive_masses (parts elements).
Proof.
  intros Hnn. pose proof (parts_masses_nonzero elements) as Hnz.
  unfold positive_masses, parts in *.
  rewrite Forall_fmap in *. apply Forall_forall. intros e He.
  rewrite Forall_forall in Hnz. specialize (Hnz e He). cbn in *.
  apply list_elem_of_filter in He as [_ He].
  rewrite Forall_forall in Hnn. specialize (Hnn e He).
  apply Qcle_lt_or_eq in Hnn as [Hlt|Heq]; [done|]. by destruct Hnz.
Qed.

(** X2. In exact arithmetic, with the calculation on and no negative mass,
    [compute] for an output plug never raises: it writes the weighted mean
    [sum(mass_i * centre_i) / sum(mass_i)] over the entries that are
    considered and have a non-zero mass, each centre the arithmetic mean of
    the positions of the entry's bounds (the origin for an entry without
    bounds), or the origin when no entry takes part; it marks the three
    outputs clean and leaves the inputs as they are. *)
Theorem compute_writes_centre_of_mass (plug : Plug) (data : DataBlock Qc) :
  is_output_plug plug = true → calculate data = true →
  Forall (λ e, 0 ≤ mass e) (inputs data) →
  compute plug data
  = Ok (mkData true (inputs data)
               (vx (centre_of_mass (inputs data)))
               (vy (centre_of_mass (inputs data)))
               (vz (centre_of_mass (inputs data)))
               true true true).
Proof.
  intros Hplug Hcalc Hnn. unfold compute. rewrite Hplug, Hcalc. cbn [negb].
  rewrite collate_parts. cbn [rbind]. unfold centre_of_mass.
  pose proof (parts_positive _ Hnn) as Hpos.
  destruct (parts (inputs data)) as [|p ps] eqn:Hparts.
  - cbn. unfold set_clean, set_outputs. cbn. by rewrite Hcalc.
  - rewrite aggregate_weighted_mean by done. cbn [rbind].
    unfold set_clean, set_outputs. cbn. by rewrite Hcalc.
Qed.

Lemma compute_writes_centre_of_mass_witness :
  compute aTranslateX exact_data
  = Ok (mkData true (inputs exact_data)
               (vx (centre_of_mass (inputs exact_data)))
               (vy (centre_of_mass (inputs exact_data)))
               (vz (centre_of_mass (inputs exact_data)))
               true true true).
Proof.
  apply (compute_writes_centre_of_mass aTranslateX exact_data).
  - reflexivity.
  - reflexivity.
  - repeat (apply Forall_cons; split; [by vm_compute|]). by apply Forall_nil.
Defined.

Lemma blend_loop_raises (running_mass : Qc) (current : Vec3 Qc)
    (items : list (Qc * Vec3 Qc)) :
  (∀ e, blend_loop (running_mass, Some current) items = Raise e →
        e = ZeroDivisionError) ∧
  (blend_loop (running_mass, Some current) items = Raise ZeroDivisionError ↔
   ∃ k, (1 ≤ k ≤ length items)%nat ∧
        running_mass + total_mass (take k items) = 0).
Proof.
  revert running_mass current.
  induction items as [|[m c] rest IH]; intros running_mass current.
  { split; [done|]. split; [done|]. intros (k & Hk & _). cbn in Hk. lia. }
  cbn [blend_loop blend_step]. unfold truediv.
  change (fadd running_mass m) with (running_mass + m).
  change (feqb (running_mass + m) fzero)
    with (bool_decide (running_mass + m = 0)).
  case_bool_decide as Hzero; cbn [rbind].
  - split; [by intros e [= <-]|]. split; [|done]. intros _.
    exists 1%nat. split; [cbn; lia|].
    rewrite firstn_cons, take_0, total_mass_cons.
    change (total_mass []) with 0. rewrite Qcplus_0_r. done.
  - destruct (IH (running_mass + m)
                 (lerp_vector current c (fdiv m (running_mass + m))))
      as [IHe IHiff].
    split; [done|]. rewrite IHiff. split.
    + intros (k & Hk & Hsum). exists (S k). split; [cbn; lia|].
      rewrite firstn_cons, total_mass_cons. rewrite <- Hsum. ring.
    + intros ([|k] & Hk & Hsum); [lia|].
      rewrite firstn_cons, total_mass_cons in Hsum.
      destruct k as [|k].
      * destruct Hzero. rewrite take_0 in Hsum.
        change (total_mass []) with 0 in Hsum. by rewrite Qcplus_0_r in Hsum.
      * exists (S k). split; [cbn in Hk; lia|]. rewrite <- Hsum. ring.
Qed.

Lemma aggregate_raises (pairs : list (Qc * Vec3 Qc)) :
  (∀ e, aggregate pairs = Raise e → e = ZeroDivisionError) ∧
  (aggregate pairs = Raise ZeroDivisionError ↔
   ∃ k, (2 ≤ k ≤ length pairs)%nat ∧
        total_mass (take k (sorted_by_mass pairs)) = 0).
Proof.
  unfold aggregate.
  rewrite <- (Permutation_length (sorted_by_mass_perm pairs)).
  destruct (sorted_by_mass pairs) as [|[m c] rest].
  { cbn. split; [done|]. split; [done|]. intros (k & Hk & _). lia. }
  cbn [blend_loop blend_step rbind].
  change (fadd fzero m) with (0 + m). rewrite Qcplus_0_l.
  destruct (blend_loop_raises m c rest) as [He Hiff].
  destruct (blend_loop (m, Some c) rest) as [[? ?]|e] eqn:Hloop; cbn [rbind].
  - split; [done|]. split; [done|]. intros ([|k] & Hk & Hsum); [lia|].
    rewrite firstn_cons, total_mass_cons in Hsum.
    assert (Ok (q, o) = Raise ZeroDivisionError) as Habs; [|done].
    apply Hiff. exists k. split; [cbn in Hk; lia|done].
  - assert (e = ZeroDivisionError) as -> by by apply He.
    split; [by intros ? [= <-]|]. split; [|done]. intros _.
    destruct Hiff as [Hiff _]. destruct (Hiff eq_refl) as (k & Hk & Hsum).
    exists (S k). split; [cbn; lia|].
    by rewrite firstn_cons, total_mass_cons.
Qed.

(** X3. In exact arithmetic [compute] fails in one way only, with a
    [ZeroDivisionError], and exactly when the calculation is on, an output
    plug is asked for, and the masses of the first [k] parts in ascending
    order of mass sum to zero for some [k] of at least two; this takes
    masses of both signs. *)
Theorem compute_raises_iff (plug : Plug) (data : DataBlock Qc) (e : PyError) :
  compute plug data = Raise e ↔
  e = ZeroDivisionError ∧ is_output_plug plug = true ∧ calculate data = true ∧
  ∃ k, (2 ≤ k ≤ length (parts (inputs data)))%nat ∧
       total_mass (take k (sorted_by_mass (parts (inputs data)))) = 0.
Proof.
  unfold compute.
  destruct (is_output_plug plug), (calculate data); cbn [negb];
    try (split; [done|by intros (_ & ? & ? & _)]).
  rewrite collate_parts. cbn [rbind].
  destruct (aggregate_raises (parts (inputs data))) as [He Hiff].
  destruct (aggregate (parts (inputs data))) as [v|e'] eqn:Hagg; cbn [rbind].
  - split; [done|]. intros (_ & _ & _ & Hk).
    assert (Ok v = Raise ZeroDivisionError) as Habs; [by apply Hiff|done].
  - assert (e' = ZeroDivisionError) as -> by by apply He.
    split.
    + intros [= <-]. split_and!; try done. by apply Hiff.
    + by intros (-> & _).
Qed.

(** X4. The sort of [compute] is stable: the parts of any one mass come out
    in the order they went in. *)
Theorem sorted_by_mass_stable (m : Qc) (l : list (Qc * Vec3 Qc)) :
  filter (λ p, p.1 = m) (sorted_by_mass l) = filter (λ p, p.1 = m) l.
Proof.
  induction l as [|x l IH]; [done|].
  cbn [sorted_by_mass foldr]. fold (sorted_by_mass l).
  rewrite (filter_cons _ x), <- IH. clear IH.
  induction (sorted_by_mass l) as [|y s IHs]; [done|].
  cbn [insert_by_mass].
  change (fltb y.1 x.1) with (bool_decide (y.1 < x.1)).
  case_bool_decide as Hlt; [|done].
  rewrite !(filter_cons _ y), IHs.
  destruct (decide (x.1 = m)) as [Hx|Hx], (decide (y.1 = m)) as [Hy|Hy];
    try done.
  rewrite Hx, Hy in Hlt. by apply Qclt_not_le in Hlt.
Qed.

(** X5. The vertical line that is drawn passes through the centre of mass,
    which is its midpoint: the line starts on the ground plane below the
    centre and ends at twice its height, on either up axis.  The centre
    drawn is the origin when one of the translate plugs is null. *)
Theorem prepareForDraw_line (upAxis : string) (node : DrawnNode Qc) :
  let data := prepareForDraw upAxis node in
  let com := getCOM node in
  position data = com ∧
  floor data = at_height upAxis com 0 ∧
  ceil data = at_height upAxis com (2 * height upAxis com) ∧
  height upAxis (position data)
  = (height upAxis (floor data) + height upAxis (ceil data)) / 2 ∧
  (xPlug node = None ∨ yPlug node = None ∨ zPlug node = None →
   position data = origin).
Proof.
  cbn zeta.
  assert (xPlug node = None ∨ yPlug node = None ∨ zPlug node = None →
          getCOM node = origin) as Hnull.
  { unfold getCOM. by destruct (xPlug node), (yPlug node), (zPlug node);
      intros [?|[?|?]]. }
  unfold prepareForDraw, at_height, height.
  destruct (getCOM node) as [x y z].
  assert (two = 2) as -> by apply Z2Qc_inj_2.
  case_bool_decide; cbn [position floor ceil vx vy vz fmul Qc_float];
    change (@fzero Qc _) with 0;
    (split_and!; [done|done|apply vec3_eq; try done; ring|field; done|done]).
Qed.

End ClosedForm.

(** *** The procedure of the specification *)

Section Procedure.
Local Open Scope Qc_scope.

Lemma lerp_vector_spec_lerp (a b : Vec3 Qc) (t : Qc) :
  lerp_vector a b t = spec_lerp a b t.
Proof.
  destruct a, b. unfold lerp_vector, lerp_float, spec_lerp.
  apply vec3_eq; cbn; ring.
Qed.

Lemma blend_loop_spec_blend (running_mass : Qc) (current : option (Vec3 Qc))
    (items : list (Qc * Vec3 Qc)) :
  rbind (blend_loop (running_mass, current) items) (λ st, Ok st.2)
  = match spec_blend running_mass current items with
    | Some r => Ok r
    | None => Raise ZeroDivisionError
    end.
Proof.
  revert running_mass current.
  induction items as [|[m c] rest IH]; intros running_mass current; [done|].
  cbn [blend_loop spec_blend blend_step].
  change (fadd running_mass m) with (running_mass + m).
  destruct current as [cur|]; cbn [rbind]; [|apply IH].
  unfold truediv.
  change (feqb (running_mass + m) fzero)
    with (bool_decide (running_mass + m = 0)).
  destruct (decide (running_mass + m = 0)) as [Hz|Hz].
  - by rewrite bool_decide_eq_true_2.
  - rewrite bool_decide_eq_false_2 by done. cbn [rbind].
    change (fdiv m (running_mass + m)) with (m / (running_mass + m)).
    rewrite lerp_vector_spec_lerp. apply IH.
Qed.

(** What the blend returns when it returns: the weighted sum over the
    running mass, whatever the signs of the masses. *)
Lemma blend_loop_value (running_mass : Qc) (current : Vec3 Qc)
    (items : list (Qc * Vec3 Qc)) st :
  blend_loop (running_mass, Some current) items = Ok st → items ≠ [] →
  running_mass + total_mass items ≠ 0 ∧
  st = (running_mass + total_mass items,
        Some (mkVec3
          ((running_mass * vx current + vx (weighted_sum items))
             / (running_mass + total_mass items))
          ((running_mass * vy current + vy (weighted_sum items))
             / (running_mass + total_mass items))
          ((running_mass * vz current + vz (weighted_sum items))
             / (running_mass + total_mass items)))).
Proof.
  revert running_mass current.
  induction items as [|[m c] rest IH]; intros running_mass current Hrun Hitems;
    [done|]. clear Hitems.
  cbn [blend_loop blend_step] in Hrun. unfold truediv in Hrun.
  change (fadd running_mass m) with (running_mass + m) in Hrun.
  change (feqb (running_mass + m) fzero)
    with (bool_decide (running_mass + m = 0)) in Hrun.
  case_bool_decide as Hz; [done|]. cbn [rbind] in Hrun.
  change (fdiv m (running_mass + m)) with (m / (running_mass + m)) in Hrun.
  rewrite total_mass_cons, weighted_sum_cons.
  destruct rest as [|p rest].
  - cbn in Hrun. injection Hrun as <-.
    change (total_mass []) with 0. rewrite Qcplus_0_r. split; [done|].
    destruct current as [x y z], c as [cx cy cz]. cbn.
    unfold lerp_vector, lerp_float. cbn.
    f_equal. f_equal. apply vec3_eq; by field.
  - apply IH in Hrun as [Hne ->]; [|done].
    remember (total_mass (p :: rest)) as T eqn:HT.
    remember (weighted_sum (p :: rest)) as S eqn:HS. clear HT HS IH.
    assert (running_mass + (m + T) ≠ 0) as Hne'.
    { by rewrite Qcplus_assoc. }
    split; [done|].
    destruct current as [x y z], c as [cx cy cz], S as [sx sy sz].
    unfold lerp_vector, lerp_float. cbn.
    f_equal; [ring|]. f_equal.
    apply vec3_eq; field; repeat split; try done; by rewrite <- Qcplus_assoc.
Qed.

Lemma total_mass_masses (l l' : list (Qc * Vec3 Qc)) :
  l.*1 = l'.*1 → total_mass l = total_mass l'.
Proof.
  revert l'. induction l as [|[m c] l IH]; intros [|[m' c'] l']; try done.
  rewrite !fmap_cons. cbn [fst]. intros [= -> Hl].
  by rewrite !total_mass_cons, (IH l').
Qed.

Lemma blend_loop_raises_masses (running_mass : Qc) (cur cur' : Vec3 Qc)
    (l l' : list (Qc * Vec3 Qc)) :
  l.*1 = l'.*1 →
  blend_loop (running_mass, Some cur) l = Raise ZeroDivisionError →
  blend_loop (running_mass, Some cur') l' = Raise ZeroDivisionError.
Proof.
  intros Hm Hraise.
  apply blend_loop_raises in Hraise as (k & Hk & Hsum).
  apply blend_loop_raises. exists k.
  assert (length l' = length l) as Hlen.
  { by rewrite <- (length_fmap fst l'), <- Hm, length_fmap. }
  split; [lia|]. rewrite <- Hsum. f_equal. apply total_mass_masses.
  by rewrite !fmap_take, Hm.
Qed.

(** The blend gives the same result on two arrangements of the same pairs
    that list the same masses in the same order. *)
Lemma blend_arrangement (l l' : list (Qc * Vec3 Qc)) :
  l ≡ₚ l' → l.*1 = l'.*1 →
  rbind (blend_loop (0, None) l) (λ st, Ok st.2)
  = rbind (blend_loop (0, None) l') (λ st, Ok st.2).
Proof.
  intros Hperm Hm.
  destruct l as [|[m c] rest], l' as [|[m' c'] rest']; try done.
  injection Hm as <- Hm.
  cbn [blend_loop blend_step rbind].
  change (fadd 0 m) with (0 + m). rewrite Qcplus_0_l.
  destruct rest as [|p rest].
  { destruct rest'; [|done]. apply Permutation_singleton_l in Hperm.
    by injection Hperm as <-. }
  destruct rest' as [|p' rest']; [done|].
  destruct (blend_loop (m, Some c) (p :: rest)) as [st|e] eqn:Hrun;
    destruct (blend_loop (m, Some c') (p' :: rest')) as [st'|e'] eqn:Hrun'.
  - apply blend_loop_value in Hrun as [_ ->]; [|done].
    apply blend_loop_value in Hrun' as [_ ->]; [|done].
    cbn [rbind snd]. do 2 f_equal.
    pose proof (total_mass_perm _ _ Hperm) as HT.
    pose proof (weighted_sum_perm _ _ Hperm) as HS.
    rewrite !total_mass_cons in HT. rewrite !weighted_sum_cons in HS.
    rewrite <- HT.
    destruct c as [x y z], c' as [x' y' z'].
    destruct (weighted_sum (p :: rest)) as [sx sy sz].
    destruct (weighted_sum (p' :: rest')) as [sx' sy' sz'].
    pose proof (f_equal vx HS) as Hx. pose proof (f_equal vy HS) as Hy.
    pose proof (f_equal vz HS) as Hz. cbn in Hx, Hy, Hz.
    cbn [vx vy vz]. apply vec3_eq; congruence.
  - assert (e' = ZeroDivisionError) as -> by by eapply blend_loop_raises.
    eapply blend_loop_raises_masses in Hrun'; [|symmetry; exact Hm].
    rewrite Hrun in Hrun'. done.
  - assert (e = ZeroDivisionError) as -> by by eapply blend_loop_raises.
    eapply blend_loop_raises_masses in Hrun; [|exact Hm].
    rewrite Hrun' in Hrun. done.
  - assert (e = ZeroDivisionError) as -> by by eapply blend_loop_raises.
    assert (e' = ZeroDivisionError) as -> by by eapply blend_loop_raises.
    done.
Qed.

Lemma ascending_masses (l l' : list (Qc * Vec3 Qc)) :
  l ≡ₚ l' → Sorted mass_le l → Sorted mass_le l' → l.*1 = l'.*1.
Proof.
  intros Hperm Hl Hl'.
  assert (Transitive Qcle) as Htrans by exact Qcle_trans.
  apply (Sorted_unique_strong Qcle).
  - intros x y _ _. apply Qcle_antisym.
  - by apply (Sorted_fmap _ mass_le).
  - by apply (Sorted_fmap _ mass_le).
  - by apply fmap_Permutation.
Qed.

Lemma aggregate_spec_procedure (pairs sorted : list (Qc * Vec3 Qc)) :
  ascending_by_mass pairs sorted →
  aggregate pairs
  = match spec_procedure sorted with
    | Some current => Ok current
    | None => Raise ZeroDivisionError
    end.
Proof.
  intros [Hperm Hsorted].
  assert (aggregate pairs
          = rbind (rbind (blend_loop (0, None) (sorted_by_mass pairs))
                         (λ st, Ok st.2))
                  (λ current, Ok (default origin current))) as ->.
  { unfold aggregate. cbn zeta.
    change (@fzero Qc _) with 0.
    by destruct (blend_loop (0, None) (sorted_by_mass pairs)) as [[? ?]|]. }
  rewrite (blend_arrangement (sorted_by_mass pairs) sorted).
  - rewrite blend_loop_spec_blend. unfold spec_procedure.
    by destruct (spec_blend 0 None sorted) as [[current|]|].
  - by rewrite sorted_by_mass_perm, Hperm.
  - apply ascending_masses; [|apply sorted_by_mass_sorted|done].
    by rewrite sorted_by_mass_perm, Hperm.
Qed.

(** C1. In exact arithmetic the aggregator follows the procedure of the
    specification: for every list of (mass, centre) pairs and every
    arrangement of it in ascending order of mass (there is one), lines
    152-183 return what the procedure returns on that arrangement, the
    origin for no pair, and raise [ZeroDivisionError] exactly where the
    procedure divides by a zero running mass.  With the calculation on,
    [compute] for an output plug writes that result to the three outputs,
    for the pairs of the entries that take part, and marks them clean. *)
Theorem compute_follows_spec_procedure :
  (∀ pairs : list (Qc * Vec3 Qc),
     (∃ sorted, ascending_by_mass pairs sorted) ∧
     ∀ sorted, ascending_by_mass pairs sorted →
       aggregate pairs
       = match spec_procedure sorted with
         | Some current => Ok current
         | None => Raise ZeroDivisionError
         end) ∧
  (∀ (plug : Plug) (data : DataBlock Qc) sorted,
     is_output_plug plug = true → calculate data = true →
     ascending_by_mass (parts (inputs data)) sorted →
     compute plug data
     = match spec_procedure sorted with
       | Some current =>
         Ok (mkData true (inputs data)
                    (vx current) (vy current) (vz current) true true true)
       | None => Raise ZeroDivisionError
       end).
Proof.
  split.
  - intros pairs. split; [|apply aggregate_spec_procedure].
    exists (sorted_by_mass pairs).
    split; [apply sorted_by_mass_perm|apply sorted_by_mass_sorted].
  - intros plug data sorted Hplug Hcalc Hsorted.
    unfold compute. rewrite Hplug, Hcalc. cbn [negb].
    rewrite collate_parts. cbn [rbind].
    rewrite (aggregate_spec_procedure _ _ Hsorted).
    destruct (spec_procedure sorted) as [current|]; [|done].
    cbn [rbind]. unfold set_clean, set_outputs. cbn. by rewrite Hcalc.
Qed.
End Procedure.

End RuntimeFacts.

(** * Properties of the default weights *)

Module DefaultsFacts.
Import Defaults.

Lemma lower_ascii_idemp c : lower_ascii (lower_ascii c) = lower_ascii c.
Proof. by destruct c as [[] [] [] [] [] [] [] []]. Qed.

Lemma lower_idemp s : lower (lower s) = lower s.
Proof.
  induction s as [|c s IH]; [done|]. cbn. by rewrite lower_ascii_idemp, IH.
Qed.

Lemma get_from_cases values value :
  (get_from values value = 1%Qc ∧
   Forall (λ kv, matches (written kv.1) value = false) values) ∨
  (∃ item v, (item, v) ∈ values ∧ get_from values value = v ∧
             matches (written item) value = true).
Proof.
  induction values as [|[item v] values IH]; [by left|].
  cbn [get_from]. fold (written item).
  destruct (matches (written item) value) eqn:Hm.
  - right. exists item, v. split_and!; [by left|done|done].
  - destruct IH as [[H1 Hall]|(item' & v' & Hin & Hget & Hm')].
    + left. split; [done|]. by constructor.
    + right. exists item', v'. split_and!; [by right|done|done].
Qed.

Lemma values_positive : Forall (λ kv, (0 < kv.2)%Qc) _VALUES.
Proof. repeat constructor. Qed.

(** X6. [Defaults.get] returns a weight above zero for every name, so that a
    group given its default weight takes part in the centre of mass; the
    weight does not depend on the case of the letters A to Z; and it is
    either 1.0 or the weight of an item of the table that occurs in the
    lower-cased name, written with underscores, without them or with
    spaces. *)
Theorem get_positive_and_caseless (value : string) :
  (0 < get value)%Qc ∧
  get (lower value) = get value ∧
  (get value = 1%Qc ∨
   ∃ item v written_as,
     (item, v) ∈ _VALUES ∧ get value = v ∧
     written_as ∈ written item ∧ contains written_as (lower value) = true).
Proof.
  split_and!.
  - unfold get. destruct (get_from_cases _VALUES value)
      as [[-> _]|(item & v & Hin & -> & _)]; [done|].
    pose proof values_positive as Hpos. rewrite Forall_forall in Hpos.
    apply (Hpos _ Hin).
  - unfold get. induction _VALUES as [|[item v] values IH]; [done|].
    cbn [get_from matches]. by rewrite lower_idemp, IH.
  - unfold get. destruct (get_from_cases _VALUES value)
      as [[-> _]|(item & v & Hin & Hget & Hm)]; [by left|right].
    exists item, v. unfold written in *. cbn [matches] in Hm.
    destruct (contains item (lower value)) eqn:H1;
      [exists item; split_and!; try done; by left|].
    destruct (contains (replace_underscore "" item) (lower value)) eqn:H2;
      [eexists; split_and!; try done; right; by left|].
    destruct (contains (replace_underscore " " item) (lower value)) eqn:H3;
      [eexists; split_and!; try done; right; right; by left|done].
Qed.

(** X7. No item of the table is hidden by an earlier one: every item, written
    with underscores, without them or with spaces, is given its own weight
    ([lower_body] 8.6 although it contains [body], 18.6). *)
Theorem every_item_finds_its_value :
  Forall (λ kv, Forall (λ written_as, get written_as = kv.2) (written kv.1))
         _VALUES.
Proof. repeat constructor. Qed.

End DefaultsFacts.

(** * Properties of the section registry *)

Module CoreFacts.
Import Core.
Local Open Scope core_scope.

(** ** The monad *)

Lemma Ok_inj {A} (a b : A) : Ok a = Ok b → a = b.
Proof. by intros [= ->]. Qed.

Lemma bind_ok {A B} (m : M A) (k : A → M B) w a w' :
  m w = Ok (a, w') → bind m k w = k a w'.
Proof. unfold bind. by intros ->. Qed.

Lemma hoare_ret {A} (a : A) (P : World → Prop) (Q : A → World → Prop) :
  (∀ w, P w → Q a w) → hoare P (ret a) Q.
Proof. intros HPQ w HP. exists a, w. split; [done|by apply HPQ]. Qed.

Lemma hoare_bind {A B} (P : World → Prop) (m : M A) (Q : A → World → Prop)
    (k : A → M B) (R : B → World → Prop) :
  hoare P m Q → (∀ a, hoare (Q a) (k a) R) → hoare P (bind m k) R.
Proof.
  intros Hm Hk w HP. destruct (Hm w HP) as (a & w' & Hrun & HQ).
  destruct (Hk a w' HQ) as (b & w'' & Hrun' & HR).
  exists b, w''. split; [|done]. by rewrite (bind_ok _ _ _ _ _ Hrun).
Qed.

Lemma hoare_consequence {A} (P P' : World → Prop) (m : M A)
    (Q Q' : A → World → Prop) :
  hoare P m Q → (∀ w, P' w → P w) → (∀ a w, Q a w → Q' a w) → hoare P' m Q'.
Proof.
  intros Hm HP HQ w HP'. destruct (Hm w (HP w HP')) as (a & w' & Hrun & Hq).
  exists a, w'. split; [done|by apply HQ].
Qed.

(** ** Sparse arrays *)

Section Sparse.
Context {A : Type}.
Implicit Types l : list (option A).

Lemma sparse_get_nil i : sparse_get i ([] : list (option A)) = None.
Proof. done. Qed.

Lemma sparse_get_cons_0 x l : sparse_get 0 (x :: l) = x.
Proof. unfold sparse_get. cbn. by destruct x. Qed.

Lemma sparse_get_cons_S x l i : sparse_get (S i) (x :: l) = sparse_get i l.
Proof. done. Qed.

Lemma sparse_get_set_eq i (v : A) l : sparse_get i (sparse_set i v l) = Some v.
Proof.
  revert l. induction i as [|i IH]; intros [|x l]; try done; apply IH.
Qed.

Lemma sparse_get_set_ne i j (v : A) l :
  i ≠ j → sparse_get j (sparse_set i v l) = sparse_get j l.
Proof.
  revert j l. induction i as [|i IH]; intros [|j] [|x l] Hne; try done.
  - change (sparse_get j (sparse_set i v []) = sparse_get j []).
    rewrite IH by lia. by destruct j.
  - change (sparse_get j (sparse_set i v l) = sparse_get j l).
    apply IH. lia.
Qed.

Lemma sparse_set_set i (v v' : A) l :
  sparse_set i v' (sparse_set i v l) = sparse_set i v' l.
Proof.
  revert l. induction i as [|i IH]; intros [|x l]; cbn; try done;
    by rewrite IH.
Qed.

Lemma sparse_set_app_length (v : A) l0 l :
  sparse_set (length l0) v (l0 ++ l)
  = l0 ++ match l with [] => [Some v] | _ :: l' => Some v :: l' end.
Proof. induction l0 as [|x l0 IH]; cbn; [by destruct l|by rewrite IH]. Qed.

Lemma indexed_from_fst i l : (indexed_from i l).*1 = used_from i l.
Proof.
  revert i. induction l as [|[a|] l IH]; intros i; cbn; [done| |done].
  by rewrite IH.
Qed.

Lemma indexed_fst l : (indexed l).*1 = used_indices l.
Proof. apply indexed_from_fst. Qed.

Lemma indexed_from_snd i j l : (indexed_from i l).*2 = (indexed_from j l).*2.
Proof.
  revert i j. induction l as [|[a|] l IH]; intros i j; cbn; [done| |done].
  by rewrite (IH (S i) (S j)).
Qed.

Lemma indexed_from_app i l0 l :
  indexed_from i (l0 ++ l) = indexed_from i l0 ++ indexed_from (length l0 + i) l.
Proof.
  revert i. induction l0 as [|[a|] l0 IH]; intros i; cbn; [done|..];
    rewrite IH; repeat f_equal; lia.
Qed.

Lemma indexed_from_lookup i l k a :
  (k, a) ∈ indexed_from i l → ∃ j, k = i + j ∧ sparse_get j l = Some a.
Proof.
  revert i. induction l as [|[b|] l IH]; intros i; cbn.
  - by intros ?%elem_of_nil.
  - intros [[= -> ->]|Hin]%elem_of_cons.
    + exists 0. split; [lia|done].
    + destruct (IH _ Hin) as (j & -> & Hj). exists (S j). split; [lia|done].
  - intros Hin. destruct (IH _ Hin) as (j & -> & Hj).
    exists (S j). split; [lia|done].
Qed.

Lemma indexed_lookup l k a : (k, a) ∈ indexed l → sparse_get k l = Some a.
Proof. intros (j & -> & Hj)%indexed_from_lookup. done. Qed.

Lemma elements_of_dense (xs : list A) : elements_of (Some <$> xs) = xs.
Proof.
  unfold elements_of, indexed. generalize 0.
  induction xs as [|x xs IH]; intros i; cbn; [done|]. by rewrite IH.
Qed.

Lemma elements_of_app l0 l : elements_of (l0 ++ l) = elements_of l0 ++ elements_of l.
Proof.
  unfold elements_of, indexed. rewrite indexed_from_app, fmap_app.
  f_equal. apply indexed_from_snd.
Qed.

Lemma elem_of_elements_of l a :
  a ∈ elements_of l ↔ ∃ i, sparse_get i l = Some a.
Proof.
  unfold elements_of. rewrite list_elem_of_fmap. split.
  - intros ([k b] & -> & Hin). exists k. by apply indexed_lookup.
  - intros [i Hi]. exists (i, a). split; [done|].
    unfold indexed.
    assert (∀ o i, sparse_get i l = Some a → (o + i, a) ∈ indexed_from o l) as H.
    { clear. induction l as [|[b|] l IH]; intros o [|i] Hi; try done.
      - injection Hi as ->. rewrite Nat.add_0_r. apply elem_of_cons. by left.
      - apply elem_of_cons. right.
        replace (o + S i) with (S o + i) by lia. by apply IH.
      - replace (o + S i) with (S o + i) by lia. by apply (IH (S o) i). }
    apply (H 0 i Hi).
Qed.

End Sparse.

(** ** Host operations *)

Lemma PyNode_ok w n node :
  mass_nodes (scene w) !! n = Some node → PyNode n w = Ok (node, w).
Proof. intros Hn. unfold PyNode, bind, get_scene. by rewrite Hn. Qed.

Lemma put_node_ok w n node : put_node n node w = Ok ((), set_node w n node).
Proof. done. Qed.

Lemma set_node_lookup w n node :
  mass_nodes (scene (set_node w n node)) !! n = Some node.
Proof. cbn. by rewrite lookup_insert_eq. Qed.

Lemma set_node_set_node w n node node' :
  set_node (set_node w n node) n node' = set_node w n node'.
Proof. unfold set_node. cbn. by rewrite insert_insert_eq. Qed.

Lemma set_node_id w n node :
  mass_nodes (scene w) !! n = Some node → set_node w n node = w.
Proof.
  intros Hn. destruct w as [[objs nodes] c f]. unfold set_node. cbn in *.
  by rewrite insert_id.
Qed.

Lemma put_section_ok w n node idx s :
  mass_nodes (scene w) !! n = Some node →
  put_section n idx s w
  = Ok ((), set_node w n (mkNode (settings node)
                                 (sparse_set idx s (inputs node)))).
Proof.
  intros Hn. unfold put_section. by rewrite (bind_ok _ _ _ _ _ (PyNode_ok _ _ _ Hn)).
Qed.

Lemma touch_existing w n node idx s :
  mass_nodes (scene w) !! n = Some node →
  sparse_get idx (inputs node) = Some s →
  touch_section n idx w = Ok (s, w).
Proof.
  intros Hn Hs. unfold touch_section.
  rewrite (bind_ok _ _ _ _ _ (PyNode_ok _ _ _ Hn)). by rewrite Hs.
Qed.

Lemma touch_missing w n node idx :
  mass_nodes (scene w) !! n = Some node →
  sparse_get idx (inputs node) = None →
  touch_section n idx w
  = Ok (default_section,
        set_node w n (mkNode (settings node)
                        (sparse_set idx default_section (inputs node)))).
Proof.
  intros Hn Hs. unfold touch_section.
  rewrite (bind_ok _ _ _ _ _ (PyNode_ok _ _ _ Hn)). rewrite Hs.
  by rewrite (bind_ok _ _ _ _ _ (put_section_ok _ _ _ _ _ Hn)).
Qed.

Lemma section_cache_ok w n :
  section_cache n w
  = Ok (if _SECTION_CACHE_IS_DIRTY (cache w) then []
        else default [] (_SECTION_INDICES (cache w) !! n), w).
Proof.
  unfold section_cache, is_section_cache_dirty, bind, get_cache, ret.
  destruct (_SECTION_CACHE_IS_DIRTY (cache w)); [done|].
  by destruct (_SECTION_INDICES (cache w) !! n).
Qed.

(** ** Lookups of a name that no section bears (C8) *)

Section Unnamed.
Context (n : string) (name : string).

Lemma elements_of_sparse_set {A} i (v a : A) (l : list (option A)) :
  a ∈ elements_of (sparse_set i v l) → a = v ∨ a ∈ elements_of l.
Proof.
  rewrite !elem_of_elements_of. intros [j Hj].
  destruct (decide (i = j)) as [->|Hne].
  - rewrite sparse_get_set_eq in Hj. left. congruence.
  - rewrite sparse_get_set_ne in Hj by done. right. by exists j.
Qed.

Lemma touch_unnamed idx :
  hoare (no_section_named n name) (touch_section n idx)
        (λ s w, sectionIdentifier s ≠ Some name ∧ no_section_named n name w).
Proof.
  intros w (node & Hn & Hname).
  destruct (sparse_get idx (inputs node)) as [s|] eqn:Hs.
  - exists s, w. split; [by eapply touch_existing|].
    split; [|by exists node].
    intros Heq. apply Hname. unfold identifiers, sections_of.
    apply list_elem_of_fmap. exists s. split; [done|].
    apply elem_of_elements_of. by exists idx.
  - eexists _, _. split; [by eapply touch_missing|].
    split; [done|]. eexists. split; [apply set_node_lookup|].
    cbn. unfold identifiers, sections_of. cbn.
    intros (s & Hid & [->|Hin]%elements_of_sparse_set)%list_elem_of_fmap.
    + done.
    + apply Hname. apply list_elem_of_fmap. by exists s.
Qed.

Lemma PyNode_unnamed :
  hoare (no_section_named n name) (PyNode n)
        (λ _ w, no_section_named n name w).
Proof.
  intros w (node & Hn & Hname). exists node, w.
  split; [by apply PyNode_ok|by exists node].
Qed.

Lemma used_section_indices_unnamed :
  hoare (no_section_named n name) (_get_used_section_indices n)
        (λ _ w, no_section_named n name w).
Proof.
  intros w (node & Hn & Hname).
  unfold _get_used_section_indices.
  rewrite (bind_ok _ _ _ _ _ (section_cache_ok w n)).
  case_bool_decide.
  - eexists _, _. split; [done|by exists node].
  - rewrite (bind_ok _ _ _ _ _ (PyNode_ok _ _ _ Hn)).
    eexists _, _. split; [done|by exists node].
Qed.

Lemma find_section_idx_unnamed indices :
  hoare (no_section_named n name) (find_section_idx n (Some name) indices)
        (λ idx w, idx = (-1)%Z ∧ no_section_named n name w).
Proof.
  induction indices as [|idx rest IH]; cbn [find_section_idx].
  - by apply hoare_ret.
  - unfold getAttr_sectionIdentifier.
    eapply (hoare_bind _ _ (λ found w, found ≠ Some name
                                       ∧ no_section_named n name w)).
    { eapply hoare_bind; [apply touch_unnamed|].
      intros s. by apply hoare_ret. }
    intros found. cbn beta.
    intros w [Hfound Hw]. rewrite bool_decide_eq_false_2 by done.
    by apply IH.
Qed.

Lemma section_idx_unnamed :
  hoare (no_section_named n name) (_get_section_idx_from_name n (Some name))
        (λ idx w, idx = (-1)%Z ∧ no_section_named n name w).
Proof.
  unfold _get_section_idx_from_name.
  eapply hoare_bind; [apply PyNode_unnamed|]. intros ?.
  eapply hoare_bind; [apply used_section_indices_unnamed|]. intros indices.
  apply find_section_idx_unnamed.
Qed.

Lemma section_weight_unnamed :
  hoare (no_section_named n name) (get_section_weight n (Some name))
        (λ v w, v = 0%Qc ∧ no_section_named n name w).
Proof.
  unfold get_section_weight.
  eapply hoare_bind; [apply PyNode_unnamed|]. intros ?.
  eapply hoare_bind; [apply section_idx_unnamed|]. intros idx.
  intros w [-> Hw]. cbn. by eexists _, _.
Qed.

Lemma no_bounds_of_negative_section (l : list (nat * nat)) :
  filter (λ p, Z.of_nat p.1 = (-1)%Z) l = [].
Proof.
  induction l as [|p l IH]; [done|].
  rewrite filter_cons. case_decide; [lia|done].
Qed.

Lemma section_influences_unnamed :
  hoare (no_section_named n name) (get_section_influences n (Some name))
        (λ v w, v = [] ∧ no_section_named n name w).
Proof.
  unfold get_section_influences.
  eapply hoare_bind; [apply PyNode_unnamed|]. intros ?.
  eapply hoare_bind; [apply section_idx_unnamed|]. intros idx.
  intros w [-> (node & Hn & Hname)].
  unfold _get_used_influence_indices.
  rewrite (bind_ok _ _ _ _ _ (bind_ok _ _ _ _ _ (PyNode_ok _ _ _ Hn))).
  unfold ret at 1.
  rewrite (bind_ok _ _ _ _ _ (PyNode_ok _ _ _ Hn)).
  eexists _, w. split; [|split; [done|by exists node]].
  unfold ret. by rewrite no_bounds_of_negative_section.
Qed.

End Unnamed.

(** C8. For a name that no section of the node bears, the lookups return
    their sentinels and do not raise: the section index is -1, the weight
    is 0, the influences are the empty list. *)
Theorem lookups_return_sentinels (w : World) (mass_node : string)
    (node : MassNode) (name : string) :
  mass_nodes (scene w) !! mass_node = Some node →
  Some name ∉ identifiers node →
  eval (_get_section_idx_from_name mass_node (Some name)) w = Ok (-1)%Z ∧
  eval (get_section_weight mass_node (Some name)) w = Ok 0%Qc ∧
  eval (get_section_influences mass_node (Some name)) w = Ok [].
Proof.
  intros Hn Hname.
  assert (no_section_named mass_node name w) as Hw by by exists node.
  unfold eval.
  destruct (section_idx_unnamed mass_node name w Hw) as (? & ? & -> & -> & _).
  destruct (section_weight_unnamed mass_node name w Hw) as (? & ? & -> & -> & _).
  destruct (section_influences_unnamed mass_node name w Hw)
    as (? & ? & -> & -> & _).
  done.
Qed.

(** ** Normalised weights (C4, C5) *)

Section Normalised.
Local Open Scope Qc_scope.

Lemma dict_set_keys {V} k (v : V) d :
  (dict_set k v d).*1 = if bool_decide (k ∈ d.*1) then d.*1 else d.*1 ++ [k].
Proof.
  induction d as [|[k' v'] d IH].
  { cbn. rewrite bool_decide_eq_false_2; [done|apply not_elem_of_nil]. }
  cbn [dict_set]. destruct (decide (k' = k)) as [->|Hne].
  - rewrite (bool_decide_eq_true_2 (k = k)) by done. cbn.
    rewrite bool_decide_eq_true_2; [done|]. apply elem_of_cons. by left.
  - rewrite (bool_decide_eq_false_2 (k' = k)) by done. cbn. rewrite IH.
    destruct (decide (k ∈ d.*1)) as [Hin|Hin].
    + rewrite (bool_decide_eq_true_2 (k ∈ d.*1)) by done.
      rewrite bool_decide_eq_true_2; [done|]. apply elem_of_cons. by right.
    + rewrite (bool_decide_eq_false_2 (k ∈ d.*1)) by done.
      rewrite bool_decide_eq_false_2; [done|].
      intros [->|?]%elem_of_cons; done.
Qed.

Lemma dict_set_NoDup {V} k (v : V) d : NoDup d.*1 → NoDup (dict_set k v d).*1.
Proof.
  intros Hd. rewrite dict_set_keys. case_bool_decide; [done|].
  apply NoDup_app. split_and!; [done| |apply NoDup_singleton].
  intros x Hx ->%list_elem_of_singleton. done.
Qed.


(** The dictionary of weights has each name once. *)
Lemma collect_weights_NoDup n names acc w weights w' :
  NoDup acc.*1 →
  collect_weights n names acc w = Ok (weights, w') → NoDup weights.*1.
Proof.
  revert acc w. induction names as [|name names IH]; intros acc w Hacc.
  - cbn. by intros [= <- _].
  - cbn [collect_weights]. unfold bind at 1.
    destruct (get_section_weight n name w) as [[v w1]|e]; [|done].
    apply IH. by apply dict_set_NoDup.
Qed.

Lemma section_weights_NoDup n w weights w' :
  section_weights n w = Ok (weights, w') → NoDup weights.*1.
Proof.
  unfold section_weights, bind.
  destruct (PyNode n w) as [[? w1]|e]; [|done].
  destruct (get_section_names n w1) as [[names w2]|e]; [|done].
  apply collect_weights_NoDup. constructor.
Qed.


Lemma py_sum_from (a : Qc) values : foldl Qcplus a values = a + py_sum values.
Proof.
  unfold py_sum. revert a. induction values as [|v values IH]; intros a; cbn.
  - ring.
  - rewrite (IH (a + v)), (IH (0 + v)). ring.
Qed.

Lemma py_sum_cons v values : py_sum (v :: values) = v + py_sum values.
Proof. unfold py_sum at 1. cbn. rewrite py_sum_from. ring. Qed.

Lemma py_sum_scaled (total : Qc) (items : list (PyName * Qc)) :
  py_sum ((λ kv, (kv.1, kv.2 / total)) <$> items).*2 = py_sum items.*2 / total.
Proof.
  induction items as [|[k v] items IH]; cbn [fmap list_fmap].
  - unfold py_sum. cbn. unfold Qcdiv. ring.
  - rewrite !py_sum_cons, IH. cbn. unfold Qcdiv. ring.
Qed.

End Normalised.

(** ** Calls on one node under a coherent cache *)

Section Steps.
Context (objs : list (string * bool)) (n : string).

Lemma step_ret {A} (node : MassNode) (v : A) : step objs n node (ret v) v node.
Proof.
  intros w Hobjs Hn Hcoh. exists w. split_and!; try done.
  by rewrite insert_id.
Qed.

Lemma step_bind {A B} (node node1 node2 : MassNode) (m : M A) (k : A → M B)
    (v : A) (v' : B) :
  step objs n node m v node1 → step objs n node1 (k v) v' node2 →
  step objs n node (bind m k) v' node2.
Proof.
  intros Hm Hk w Hobjs Hn Hcoh.
  destruct (Hm w Hobjs Hn Hcoh) as (w1 & Hrun & Hobjs1 & Hn1 & Hf1 & Hc1 & Hk1).
  assert (mass_nodes (scene w1) !! n = Some node1) as Hn1'.
  { rewrite Hn1. apply lookup_insert_eq. }
  destruct (Hk w1 Hobjs1 Hn1' Hc1) as (w2 & Hrun2 & Hobjs2 & Hn2 & Hf2 & Hc2 & Hk2).
  exists w2. split_and!; try done.
  - by rewrite (bind_ok _ _ _ _ _ Hrun).
  - by rewrite Hn2, Hn1, insert_insert_eq.
  - congruence.
  - intros k' Hne. rewrite Hk2, Hk1; done.
Qed.

(** A call that leaves the world as it is. *)
Lemma step_pure {A} (node : MassNode) (m : M A) (v : A) :
  (∀ w, objects (scene w) = objs → mass_nodes (scene w) !! n = Some node →
        m w = Ok (v, w)) →
  step objs n node m v node.
Proof.
  intros Hm w Hobjs Hn Hcoh. exists w. split_and!; try done.
  - by apply Hm.
  - by rewrite insert_id.
Qed.

Lemma step_PyNode node : step objs n node (PyNode n) node node.
Proof. apply step_pure. intros w _ Hn. by apply PyNode_ok. Qed.

Lemma step_used_section_indices node :
  step objs n node (_get_used_section_indices n) (listAttr_sections node) node.
Proof.
  intros w Hobjs Hn Hcoh0. unfold _get_used_section_indices.
  rewrite (bind_ok _ _ _ _ _ (section_cache_ok w n)).
  case_bool_decide as Hcached.
  - destruct (_SECTION_CACHE_IS_DIRTY (cache w)) eqn:Hdirty; [done|].
    destruct (Hcoh0) as [Hcoh|Hcoh]; [congruence|].
    destruct (_SECTION_INDICES (cache w) !! n) as [cached|] eqn:Hlook; [|done].
    cbn in Hcached. destruct (Hcoh cached eq_refl) as [->|(node' & Hn' & ->)];
      [done|].
    assert (node' = node) as -> by congruence.
    exists w. split_and!; try done.
    by rewrite insert_id.
  - rewrite (bind_ok _ _ _ _ _ (PyNode_ok _ _ _ Hn)).
    eexists. split; [reflexivity|]. cbn. split_and!; try done.
    + by rewrite insert_id.
    + right. cbn. intros cached. rewrite lookup_insert_eq. intros [= <-].
      right. by exists node.
    + intros k Hk. by rewrite lookup_insert_ne.
Qed.

Lemma step_touch node idx sec :
  sparse_get idx (inputs node) = Some sec →
  step objs n node (touch_section n idx) sec node.
Proof. intros Hs. apply step_pure. intros w _ Hn. by eapply touch_existing. Qed.

Lemma step_getAttr_sectionIdentifier node idx sec :
  sparse_get idx (inputs node) = Some sec →
  step objs n node (getAttr_sectionIdentifier n idx) (sectionIdentifier sec) node.
Proof.
  intros Hs. eapply step_bind; [by apply step_touch|apply step_ret].
Qed.

Lemma step_getAttr_mass node idx sec :
  sparse_get idx (inputs node) = Some sec →
  step objs n node (getAttr_mass n idx) (mass sec) node.
Proof.
  intros Hs. eapply step_bind; [by apply step_touch|apply step_ret].
Qed.

Lemma step_find_section_idx node name (l : list (nat * SectionPlug)) :
  (∀ i sec, (i, sec) ∈ l → sparse_get i (inputs node) = Some sec) →
  step objs n node (find_section_idx n name l.*1)
       (match first_named name l with
        | Some (i, _) => Z.of_nat i
        | None => (-1)%Z
        end) node.
Proof.
  induction l as [|[i sec] l IH]; intros Hl; cbn [fmap list_fmap fst].
  - apply step_ret.
  - cbn [find_section_idx first_named].
    eapply step_bind.
    { apply step_getAttr_sectionIdentifier, Hl. apply elem_of_cons. by left. }
    destruct (bool_decide (sectionIdentifier sec = name)); [apply step_ret|].
    apply IH. intros j sec' Hin. apply Hl. apply elem_of_cons. by right.
Qed.

Lemma listAttr_sections_indexed node :
  listAttr_sections node = (indexed (inputs node)).*1.
Proof. unfold listAttr_sections. by rewrite indexed_fst. Qed.

Lemma step_section_idx node name :
  step objs n node (_get_section_idx_from_name n name)
       (section_idx node name) node.
Proof.
  unfold _get_section_idx_from_name.
  eapply step_bind; [apply step_PyNode|].
  eapply step_bind; [apply step_used_section_indices|].
  rewrite listAttr_sections_indexed.
  apply step_find_section_idx. intros i sec. apply indexed_lookup.
Qed.

Lemma step_name_from_section_idx node idx sec :
  (idx, sec) ∈ indexed (inputs node) →
  step objs n node (_get_name_from_section_idx n idx)
       (sectionIdentifier sec) node.
Proof.
  intros Hin. unfold _get_name_from_section_idx.
  eapply step_bind; [apply step_PyNode|].
  eapply step_bind; [apply step_used_section_indices|].
  rewrite bool_decide_eq_false_2.
  - by apply step_getAttr_sectionIdentifier, indexed_lookup.
  - intros Hnot. apply Hnot. rewrite listAttr_sections_indexed.
    apply list_elem_of_fmap. by exists (idx, sec).
Qed.

Lemma step_mapM {A B} node (f : A → M B) (l : list (A * B)) :
  (∀ a b, (a, b) ∈ l → step objs n node (f a) b node) →
  step objs n node (mapM f l.*1) l.*2 node.
Proof.
  induction l as [|[a b] l IH]; intros Hl; cbn.
  - apply step_ret.
  - eapply step_bind; [apply Hl, elem_of_cons; by left|].
    eapply step_bind; [|apply step_ret].
    apply IH. intros a' b' Hin. apply Hl, elem_of_cons. by right.
Qed.

Lemma step_section_names node :
  step objs n node (get_section_names n) (identifiers node) node.
Proof.
  unfold get_section_names.
  eapply step_bind; [apply step_PyNode|].
  eapply step_bind; [apply step_used_section_indices|].
  pose (l := (λ p : nat * SectionPlug, (p.1, sectionIdentifier p.2))
               <$> indexed (inputs node)).
  assert (listAttr_sections node = l.*1) as ->.
  { rewrite listAttr_sections_indexed. unfold l.
    rewrite <- list_fmap_compose. done. }
  assert (identifiers node = l.*2) as ->.
  { unfold identifiers, sections_of, elements_of, l.
    rewrite <- !list_fmap_compose. done. }
  apply step_mapM. intros idx name.
  intros ([i sec] & [= -> ->] & Hin)%list_elem_of_fmap.
  by apply step_name_from_section_idx.
Qed.

Lemma first_named_elem name l i sec :
  first_named name l = Some (i, sec) →
  (i, sec) ∈ l ∧ sectionIdentifier sec = name.
Proof.
  induction l as [|[j s] l IH]; [done|]. cbn.
  case_bool_decide as Hname.
  - intros [= -> ->]. split; [apply elem_of_cons; by left|done].
  - intros [Hin ?]%IH. split; [apply elem_of_cons; by right|done].
Qed.

Lemma step_section_weight node name :
  step objs n node (get_section_weight n name) (weight_of node name) node.
Proof.
  unfold get_section_weight.
  eapply step_bind; [apply step_PyNode|].
  eapply step_bind; [apply step_section_idx|].
  unfold section_idx, weight_of.
  destruct (first_named name (indexed (inputs node))) as [[i sec]|] eqn:Hfirst.
  - rewrite bool_decide_eq_false_2 by lia. rewrite Nat2Z.id.
    apply first_named_elem in Hfirst as [Hin _].
    by apply step_getAttr_mass, indexed_lookup.
  - rewrite bool_decide_eq_true_2 by lia. apply step_ret.
Qed.

Lemma step_value_node {A} node node1 node2 (m : M A) (v : A) :
  step objs n node m v node1 → node1 = node2 → step objs n node m v node2.
Proof. by intros ? <-. Qed.

Lemma step_value {A} node node' (m : M A) (v v' : A) :
  step objs n node m v node' → v = v' → step objs n node m v' node'.
Proof. by intros ? <-. Qed.

Lemma sparse_get_app_length {A} (l0 l : list (option A)) x :
  sparse_get (length l0) (l0 ++ x :: l) = x.
Proof.
  unfold sparse_get. rewrite lookup_app_r by lia.
  rewrite Nat.sub_diag. cbn. by destruct x.
Qed.

Lemma used_bind_elements {A} (l0 l : list (option A)) :
  used_from (length l0) l
    ≫= (λ j, option_list (sparse_get j (l0 ++ l)))
  = elements_of l.
Proof.
  unfold elements_of, indexed. rewrite (indexed_from_snd 0 (length l0)).
  revert l0. induction l as [|[a|] l IH]; intros l0; [done|..]; cbn.
  - rewrite sparse_get_app_length. cbn. f_equal.
    specialize (IH (l0 ++ [Some a])).
    rewrite length_app, <- app_assoc in IH. cbn in IH.
    by rewrite Nat.add_1_r in IH.
  - specialize (IH (l0 ++ [None])).
    rewrite length_app, <- app_assoc in IH. cbn in IH.
    by rewrite Nat.add_1_r in IH.
Qed.

Lemma filter_section_bounds (o i : nat) (js : list nat) :
  (filter (λ p : nat * nat, Z.of_nat p.1 = Z.of_nat i) ((λ j, (o, j)) <$> js)).*2
  = if decide (o = i) then js else [].
Proof.
  induction js as [|j js IH]; [by case_decide|].
  rewrite fmap_cons, filter_cons. cbn [fst].
  destruct (decide (o = i)) as [->|Hne].
  - rewrite decide_True by done. rewrite fmap_cons. cbn [snd].
    by rewrite IH.
  - rewrite decide_False by lia. done.
Qed.

Lemma bounds_of_section (l : list (option SectionPlug)) (o i : nat) :
  (filter (λ p, Z.of_nat p.1 = Z.of_nat i) (bounds_from o l)).*2
  = if decide (o ≤ i) then
      match sparse_get (i - o) l with
      | Some sec => used_indices (pointsOfBounds sec)
      | None => []
      end
    else [].
Proof.
  revert o. induction l as [|[sec|] l IH]; intros o; cbn [bounds_from].
  - rewrite filter_nil. by case_decide.
  - rewrite filter_app, fmap_app, IH, filter_section_bounds.
    destruct (decide (o = i)) as [->|Hne].
    + rewrite Nat.sub_diag.
      rewrite (decide_True (P := i ≤ i)) by lia.
      rewrite (decide_False (P := S i ≤ i)) by lia.
      by rewrite app_nil_r, sparse_get_cons_0.
    + cbn [app]. destruct (decide (o ≤ i)) as [Hle|Hgt].
      * rewrite (decide_True (P := S o ≤ i)) by lia.
        replace (i - o) with (S (i - S o)) by lia. done.
      * by rewrite (decide_False (P := S o ≤ i)) by lia.
  - rewrite IH. destruct (decide (o ≤ i)) as [Hle|Hgt].
    + destruct (decide (o = i)) as [->|Hne].
      * rewrite (decide_False (P := S i ≤ i)) by lia. by rewrite Nat.sub_diag.
      * rewrite (decide_True (P := S o ≤ i)) by lia.
        replace (i - o) with (S (i - S o)) by lia. done.
    + by rewrite (decide_False (P := S o ≤ i)) by lia.
Qed.

Lemma influences_value node name :
  ((filter (λ p, Z.of_nat p.1 = section_idx node name)
           (listAttr_bounds node)).*2
     ≫= λ influence_idx,
          match sparse_get (Z.to_nat (section_idx node name)) (inputs node) with
          | Some sec => option_list (sparse_get influence_idx (pointsOfBounds sec))
          | None => []
          end)
  = influences_of node name.
Proof.
  unfold section_idx, influences_of.
  destruct (first_named name (indexed (inputs node))) as [[i sec]|] eqn:Hfirst.
  - apply first_named_elem in Hfirst as [Hin%indexed_lookup _].
    unfold listAttr_bounds. rewrite bounds_of_section.
    rewrite decide_True by lia. rewrite Nat.sub_0_r, Nat2Z.id, Hin.
    apply (used_bind_elements []).
  - by rewrite no_bounds_of_negative_section.
Qed.

Lemma step_section_influences node name :
  step objs n node (get_section_influences n name)
       (influences_of node name) node.
Proof.
  unfold get_section_influences.
  eapply step_bind; [apply step_PyNode|].
  eapply step_bind; [apply step_section_idx|].
  eapply step_bind.
  { unfold _get_used_influence_indices.
    eapply step_bind; [apply step_PyNode|apply step_ret]. }
  eapply step_bind; [apply step_PyNode|].
  eapply step_value; [apply step_ret|]. apply influences_value.
Qed.

Lemma step_serialise_section node name :
  step objs n node (serialise_section n name)
       (mkSectionData name (weight_of node name) (influences_of node name))
       node.
Proof.
  unfold serialise_section.
  eapply step_bind; [apply step_section_weight|].
  eapply step_bind; [apply step_section_influences|apply step_ret].
Qed.

Lemma first_named_NoDup (l : list (nat * SectionPlug)) i sec :
  NoDup (sectionIdentifier <$> l.*2) → (i, sec) ∈ l →
  first_named (sectionIdentifier sec) l = Some (i, sec).
Proof.
  induction l as [|[j s] l IH]; [by intros _ ?%elem_of_nil|].
  cbn. intros [Hj Hl]%NoDup_cons [[= -> ->]|Hin]%elem_of_cons.
  - by rewrite bool_decide_eq_true_2.
  - rewrite bool_decide_eq_false_2; [by apply IH|].
    intros Heq. apply Hj. rewrite Heq.
    apply list_elem_of_fmap. exists sec. split; [done|].
    apply list_elem_of_fmap. by exists (i, sec).
Qed.

Lemma step_serialise_sections node :
  NoDup (identifiers node) →
  step objs n node (mapM (serialise_section n) (identifiers node))
       (section_data_of <$> sections_of node) node.
Proof.
  intros Hnodup.
  pose (l := (λ p : nat * SectionPlug, (sectionIdentifier p.2, section_data_of p.2))
               <$> indexed (inputs node)).
  assert (identifiers node = l.*1) as ->.
  { unfold identifiers, sections_of, elements_of, l.
    rewrite <- !list_fmap_compose. done. }
  assert (section_data_of <$> sections_of node = l.*2) as ->.
  { unfold sections_of, elements_of, l. rewrite <- !list_fmap_compose. done. }
  apply step_mapM. intros name data.
  intros ([i sec] & [= -> ->] & Hin)%list_elem_of_fmap.
  eapply step_value; [apply step_serialise_section|].
  unfold weight_of, influences_of, section_data_of.
  by rewrite (first_named_NoDup _ i sec).
Qed.

End Steps.

Lemma scene_unchanged (w w' : World) n node :
  mass_nodes (scene w) !! n = Some node →
  objects (scene w') = objects (scene w) →
  mass_nodes (scene w') = <[n := node]> (mass_nodes (scene w)) →
  scene w' = scene w.
Proof.
  intros Hn Hobjs Hnodes. rewrite insert_id in Hnodes by done.
  destruct (scene w'), (scene w). cbn in *. congruence.
Qed.

Lemma step_reads {A} w n node (m : M A) v :
  step (objects (scene w)) n node m v node →
  mass_nodes (scene w) !! n = Some node → coherent w n →
  reads m w n v.
Proof.
  intros Hstep Hn Hcoh.
  destruct (Hstep w eq_refl Hn Hcoh) as (w' & ? & ? & ? & ? & ? & _).
  exists w'. split_and!; try done. by eapply scene_unchanged.
Qed.

(** Under a coherent cache, [serialise] returns the document of the node
    and leaves the scene as it is. *)
Lemma serialise_coherent (w : World) n node (filepath : option string) :
  mass_nodes (scene w) !! n = Some node → coherent w n →
  NoDup (identifiers node) →
  ∃ w', serialise n filepath w = Ok (document_of n node, w') ∧
        scene w' = scene w ∧ coherent w' n ∧
        (∀ k, k ≠ n → _SECTION_INDICES (cache w') !! k
                      = _SECTION_INDICES (cache w) !! k) ∧
        files w' = match filepath with
                   | Some path =>
                     if bool_decide (path = EmptyString) then files w
                     else <[path := document_of n node]> (files w)
                   | None => files w
                   end.
Proof.
  intros Hn Hcoh Hnodup.
  assert (step (objects (scene w)) n node
               (node ← PyNode n;
                names ← get_section_names n;
                sections ← mapM (serialise_section n) names;
                ret (mkMassData n sections (Some (settings node))))
               (document_of n node) node) as Hstep.
  { eapply step_bind; [apply step_PyNode|].
    eapply step_bind; [apply step_section_names|].
    eapply step_bind; [by apply step_serialise_sections|apply step_ret]. }
  destruct (Hstep w eq_refl Hn Hcoh) as (w1 & Hrun & Hobjs & Hnodes & Hf & Hc & Hk).
  assert (scene w1 = scene w) as Hscene by by eapply scene_unchanged.
  unfold serialise. unfold bind in Hrun |- *.
  destruct (PyNode n w) as [[node0 w0]|e]; [|done].
  destruct (get_section_names n w0) as [[names w0']|e]; [|done].
  destruct (mapM (serialise_section n) names w0') as [[sections w0'']|e];
    [|done].
  apply Ok_inj, pair_equal_spec in Hrun as [-> ->].
  destruct filepath as [path|]; [case_bool_decide|].
  - by exists w1.
  - eexists. split; [reflexivity|]. cbn. rewrite Hf. by split_and!.
  - by exists w1.
Qed.

(** Under a coherent cache a rename to a name the node already has is
    rejected, and leaves the scene and the files as they are. *)
Lemma set_section_name_rejects_existing (w : World) n node
    (section_name new_name : PyName) :
  mass_nodes (scene w) !! n = Some node → coherent w n →
  new_name ∈ identifiers node →
  ∃ w', set_section_name n section_name new_name w = Ok ((), w') ∧
        scene w' = scene w ∧ files w' = files w.
Proof.
  intros Hn Hcoh Hname.
  assert (step (objects (scene w)) n node
               (set_section_name n section_name new_name) () node) as Hstep.
  { unfold set_section_name.
    eapply step_bind; [apply step_PyNode|].
    eapply step_bind; [apply step_section_names|].
    rewrite bool_decide_eq_true_2 by done. apply step_ret. }
  destruct (Hstep w eq_refl Hn Hcoh) as (w1 & Hrun & Hobjs & Hnodes & Hf & _).
  exists w1. split_and!; try done. by eapply scene_unchanged.
Qed.

(** ** The weights read and the node *)




Section Weights.
Local Open Scope Qc_scope.







End Weights.

(** ** Updates *)

Lemma getAttr_sectionIdentifier_ok w n node idx :
  mass_nodes (scene w) !! n = Some node →
  getAttr_sectionIdentifier n idx w
  = Ok (sectionIdentifier (default default_section
                             (sparse_get idx (inputs node))),
        match sparse_get idx (inputs node) with
        | Some _ => w
        | None => set_node w n (mkNode (settings node)
                     (sparse_set idx default_section (inputs node)))
        end).
Proof.
  intros Hn. unfold getAttr_sectionIdentifier.
  destruct (sparse_get idx (inputs node)) as [sec|] eqn:Hsec.
  - by rewrite (bind_ok _ _ _ _ _ (touch_existing _ _ _ _ _ Hn Hsec)).
  - by rewrite (bind_ok _ _ _ _ _ (touch_missing _ _ _ _ Hn Hsec)).
Qed.

Lemma setAttr_sectionIdentifier_ok w n node idx name :
  mass_nodes (scene w) !! n = Some node →
  setAttr_sectionIdentifier n idx name w
  = Ok ((), set_node w n (mkNode (settings node)
              (sparse_set idx
                 (with_identifier
                    (default default_section (sparse_get idx (inputs node)))
                    name)
                 (inputs node)))).
Proof.
  intros Hn. unfold setAttr_sectionIdentifier.
  destruct (sparse_get idx (inputs node)) as [sec|] eqn:Hsec.
  - rewrite (bind_ok _ _ _ _ _ (touch_existing _ _ _ _ _ Hn Hsec)).
    by rewrite (put_section_ok _ _ _ _ _ Hn).
  - rewrite (bind_ok _ _ _ _ _ (touch_missing _ _ _ _ Hn Hsec)).
    rewrite (put_section_ok _ _ _ _ _ (set_node_lookup _ _ _)).
    cbn [settings inputs]. by rewrite set_node_set_node, sparse_set_set.
Qed.

(** The loop of [_initialise_mass_section] ends within its fuel, at the
    first index whose identifier reads as false, and names it. *)
Lemma initialise_loop_ok w n st (l0 l : list (option SectionPlug)) name :
  mass_nodes (scene w) !! n = Some (mkNode st (l0 ++ l)) →
  let c := first_free_section (length l0) l in
  initialise_loop (length l) (length l0) n name w
  = Ok (c, set_node w n (mkNode st
             (sparse_set c
                (with_identifier
                   (default default_section (sparse_get c (l0 ++ l))) name)
                (l0 ++ l)))).
Proof.
  revert l0. induction l as [|[sec|] l IH]; intros l0 Hn; cbn zeta.
  - cbn [initialise_loop length first_free_section].
    rewrite (bind_ok _ _ _ _ _ (getAttr_sectionIdentifier_ok _ _ _ _ Hn)).
    cbn [inputs settings].
    assert (sparse_get (length l0) (l0 ++ []) = None) as Hnone.
    { unfold sparse_get. by rewrite lookup_ge_None_2 by (rewrite length_app; cbn; lia). }
    rewrite Hnone. cbn [default from_option id truthy sectionIdentifier default_section negb].
    rewrite (bind_ok _ _ _ _ _
               (setAttr_sectionIdentifier_ok _ _ _ _ _ (set_node_lookup _ _ _))).
    cbn [inputs settings]. rewrite sparse_get_set_eq, sparse_set_set.
    by rewrite set_node_set_node.
  - cbn [initialise_loop length first_free_section].
    rewrite (bind_ok _ _ _ _ _ (getAttr_sectionIdentifier_ok _ _ _ _ Hn)).
    cbn [inputs settings]. rewrite sparse_get_app_length. cbn [default from_option id].
    destruct (truthy (sectionIdentifier sec)) eqn:Htruthy; cbn [negb].
    + specialize (IH (l0 ++ [Some sec])).
      rewrite length_app, <- app_assoc in IH. cbn [length app] in IH.
      rewrite Nat.add_1_r in IH. by apply IH.
    + rewrite (bind_ok _ _ _ _ _ (setAttr_sectionIdentifier_ok _ _ _ _ _ Hn)).
      cbn [inputs settings]. by rewrite sparse_get_app_length.
  - cbn [initialise_loop length first_free_section].
    rewrite (bind_ok _ _ _ _ _ (getAttr_sectionIdentifier_ok _ _ _ _ Hn)).
    cbn [inputs settings]. rewrite sparse_get_app_length.
    cbn [default from_option id truthy sectionIdentifier default_section negb].
    rewrite (bind_ok _ _ _ _ _
               (setAttr_sectionIdentifier_ok _ _ _ _ _ (set_node_lookup _ _ _))).
    cbn [inputs settings]. rewrite sparse_get_set_eq, sparse_set_set.
    by rewrite set_node_set_node.
Qed.

(** [add_mass_group] always returns: it marks the cache dirty and names the
    first index whose identifier reads as false. *)
Lemma add_mass_group_ok w n node name :
  mass_nodes (scene w) !! n = Some node →
  let c := first_free_section 0 (inputs node) in
  add_mass_group n name w
  = Ok (c, set_node
             (mkWorld (scene w) (mkCache (_SECTION_INDICES (cache w)) true)
                      (files w))
             n
             (mkNode (settings node)
                (sparse_set c
                   (with_identifier
                      (default default_section (sparse_get c (inputs node)))
                      name)
                   (inputs node)))).
Proof.
  intros Hn. cbn zeta. unfold add_mass_group, invalidate_section_cache.
  unfold bind at 1. unfold bind at 1. cbn [get_cache put_cache].
  set (w1 := mkWorld _ _ _).
  assert (mass_nodes (scene w1) !! n = Some node) as Hn1 by done.
  rewrite (bind_ok _ _ _ _ _ (PyNode_ok _ _ _ Hn1)).
  unfold _initialise_mass_section.
  rewrite (bind_ok _ _ _ _ _ (PyNode_ok _ _ _ Hn1)).
  destruct node as [st l].
  apply (initialise_loop_ok w1 n st [] l name Hn1).
Qed.

(** ** Building a node section by section *)

Lemma used_from_sparse_set {A} o i (v old : A) (l : list (option A)) :
  sparse_get i l = Some old → used_from o (sparse_set i v l) = used_from o l.
Proof.
  revert o l. induction i as [|i IH]; intros o [|[x|] l] Hget; try done.
  - cbn. f_equal. by apply IH.
  - cbn. by apply IH.
Qed.

Lemma used_from_dense {A} o (xs : list A) :
  used_from o (Some <$> xs) = seq o (length xs).
Proof.
  revert o. induction xs as [|x xs IH]; intros o; cbn; [done|].
  by rewrite IH.
Qed.

Lemma first_free_section_dense o (secs : list SectionPlug) :
  Forall (λ sec, truthy (sectionIdentifier sec) = true) secs →
  first_free_section o (Some <$> secs) = o + length secs.
Proof.
  intros Hsecs. revert o. induction Hsecs as [|sec secs Hsec _ IH]; intros o.
  - cbn. lia.
  - cbn. rewrite Hsec, IH. lia.
Qed.

Lemma sparse_get_dense_last {A} (xs : list A) (x : A) :
  sparse_get (length xs) (Some <$> (xs ++ [x])) = Some x.
Proof.
  rewrite fmap_app. cbn.
  rewrite <- (length_fmap Some xs). apply sparse_get_app_length.
Qed.

Lemma sparse_get_dense_end {A} (xs : list A) :
  sparse_get (length xs) (Some <$> xs) = None.
Proof.
  unfold sparse_get. by rewrite lookup_ge_None_2 by by rewrite length_fmap.
Qed.

Lemma sparse_set_dense_last {A} (xs : list A) (x v : A) :
  sparse_set (length xs) v (Some <$> (xs ++ [x])) = Some <$> (xs ++ [v]).
Proof.
  rewrite !fmap_app. cbn. rewrite <- (length_fmap Some xs).
  by rewrite sparse_set_app_length.
Qed.

Lemma sparse_set_dense_end {A} (xs : list A) (v : A) :
  sparse_set (length xs) v (Some <$> xs) = Some <$> (xs ++ [v]).
Proof.
  rewrite fmap_app. cbn. rewrite <- (length_fmap Some xs).
  rewrite <- (app_nil_r (Some <$> xs)) at 2.
  by rewrite sparse_set_app_length.
Qed.

Lemma first_named_dense_last name o (secs : list SectionPlug) sec :
  name ∉ sectionIdentifier <$> secs → sectionIdentifier sec = name →
  first_named name (indexed_from o (Some <$> (secs ++ [sec])))
  = Some (o + length secs, sec).
Proof.
  intros Hfresh Hname. revert o.
  induction secs as [|s secs IH]; intros o; cbn.
  - rewrite bool_decide_eq_true_2 by done. do 2 f_equal. lia.
  - rewrite bool_decide_eq_false_2.
    + rewrite IH; [do 2 f_equal; lia|].
      intros Hin. apply Hfresh. cbn. apply elem_of_cons. by right.
    + intros Heq. apply Hfresh. cbn. apply elem_of_cons. by left.
Qed.

Section Building.
Context (objs : list (string * bool)) (n : string) (st : Settings).

Lemma step_add_mass_group (secs : list SectionPlug) name :
  Forall (λ sec, truthy (sectionIdentifier sec) = true) secs →
  step objs n (node_of_sections st secs) (add_mass_group n name) (length secs)
       (node_of_sections st (secs ++ [with_identifier default_section name])).
Proof.
  intros Hsecs w Hobjs Hn Hcoh.
  rewrite (add_mass_group_ok _ _ _ _ Hn). cbn [inputs settings node_of_sections].
  rewrite first_free_section_dense by done. cbn [Nat.add].
  rewrite sparse_get_dense_end, sparse_set_dense_end.
  eexists. split; [reflexivity|]. split_and!; try done. by left.
Qed.

Lemma step_put_section node idx old sec :
  sparse_get idx (inputs node) = Some old →
  step objs n node (put_section n idx sec) ()
       (mkNode (settings node) (sparse_set idx sec (inputs node))).
Proof.
  intros Hold w Hobjs Hn Hcoh. rewrite (put_section_ok _ _ _ _ _ Hn).
  eexists. split; [reflexivity|]. split_and!; try done.
  destruct Hcoh as [Hdirty|Hcoh]; [by left|right].
  intros cached Hcached. destruct (Hcoh cached Hcached) as [->|(node' & Hn' & ->)];
    [by left|right].
  assert (node' = node) as -> by congruence.
  eexists. split; [apply set_node_lookup|].
  unfold listAttr_sections, used_indices. cbn [inputs].
  by erewrite used_from_sparse_set.
Qed.

(** A write to the last section of a node built so far. *)
Lemma step_put_last (secs : list SectionPlug) sec sec' :
  step objs n (node_of_sections st (secs ++ [sec]))
       (put_section n (length secs) sec') ()
       (node_of_sections st (secs ++ [sec'])).
Proof.
  eapply step_value_node; [eapply step_put_section, sparse_get_dense_last|].
  unfold node_of_sections. cbn [settings inputs].
  by rewrite sparse_set_dense_last.
Qed.

Lemma step_touch_last (secs : list SectionPlug) sec :
  step objs n (node_of_sections st (secs ++ [sec]))
       (touch_section n (length secs)) sec
       (node_of_sections st (secs ++ [sec])).
Proof. apply step_touch, sparse_get_dense_last. Qed.

Lemma section_idx_last (secs : list SectionPlug) sec name :
  sectionIdentifier sec = name →
  name ∉ sectionIdentifier <$> secs →
  section_idx (node_of_sections st (secs ++ [sec])) name
  = Z.of_nat (length secs).
Proof.
  intros Hname Hfresh. unfold section_idx, indexed.
  cbn [inputs node_of_sections].
  by rewrite (first_named_dense_last _ 0 secs sec).
Qed.

Lemma step_set_section_weight (secs : list SectionPlug) sec v stored :
  float32 v = Some stored →
  sectionIdentifier sec ∉ sectionIdentifier <$> secs →
  step objs n (node_of_sections st (secs ++ [sec]))
       (set_section_weight n (sectionIdentifier sec) v) ()
       (node_of_sections st (secs ++ [with_mass sec stored])).
Proof.
  intros Hstored Hfresh. unfold set_section_weight.
  eapply step_bind; [apply step_PyNode|].
  eapply step_bind; [apply step_section_idx|].
  rewrite (section_idx_last secs sec) by done.
  rewrite bool_decide_eq_false_2 by lia. rewrite Nat2Z.id.
  unfold setAttr_mass. rewrite Hstored.
  eapply step_bind; [apply step_touch_last|]. apply step_put_last.
Qed.

End Building.

(** ** New nodes *)

Lemma unique_name_go_spec fuel k taken base :
  unique_name_go fuel k taken base ∉ taken ∨
  ∀ j, k ≤ j < k + fuel → base +:+ pretty j ∈ taken.
Proof.
  revert k. induction fuel as [|fuel IH]; intros k; [right; lia|].
  cbn [unique_name_go]. case_bool_decide as Hin; [|by left].
  destruct (IH (S k)) as [Hfresh|Hall]; [by left|right].
  intros j Hj. destruct (decide (j = k)) as [->|Hne]; [done|].
  apply Hall. lia.
Qed.

(** The name the host settles on is not in use. *)
Lemma unique_name_fresh taken base : unique_name taken base ∉ taken.
Proof.
  unfold unique_name. case_bool_decide as Hbase; [|done].
  destruct (unique_name_go_spec (S (length taken)) 1 taken base)
    as [Hfresh|Hall]; [done|exfalso].
  pose (candidates := (λ j : nat, base +:+ pretty j) <$> seq 1 (S (length taken))).
  assert (NoDup candidates) as Hnodup.
  { apply NoDup_fmap_2; [|apply NoDup_seq].
    intros i j Heq. by apply (inj (String.app base)), (inj pretty) in Heq. }
  assert (candidates ⊆+ taken) as Hsub.
  { apply NoDup_submseteq; [done|].
    intros x (j & -> & Hj%elem_of_seq)%list_elem_of_fmap. apply Hall. lia. }
  apply submseteq_length in Hsub.
  unfold candidates in Hsub. rewrite length_fmap, length_seq in Hsub. lia.
Qed.

Lemma new_ok w name :
  new name w
  = Ok (new_node_name (scene w) name,
        mkWorld
          (mkScene (objects (scene w)
                      ++ [(new_parent_name (scene w) name, true);
                          (new_node_name (scene w) name, true)])
                   (<[new_node_name (scene w) name := default_node]>
                      (mass_nodes (scene w))))
          (cache w) (files w)).
Proof. done. Qed.

Lemma new_node_name_fresh s name : mass_nodes s !! new_node_name s name = None.
Proof.
  destruct (mass_nodes s !! new_node_name s name) as [node|] eqn:Hlook; [|done].
  exfalso. eapply (unique_name_fresh _ (name +:+ "Settings")).
  fold (new_node_name s name). apply elem_of_cons. right.
  unfold taken_names. apply elem_of_app. right.
  apply (list_elem_of_fmap_2 fst _ (new_node_name s name, node)).
  by apply elem_of_map_to_list.
Qed.

(** ** Loading a document *)

Lemma first_free_counter_dense fuel counter k :
  counter + fuel = k → first_free_counter fuel counter (seq 0 k) = k.
Proof.
  revert counter. induction fuel as [|fuel IH]; intros counter Hk; cbn.
  - lia.
  - rewrite bool_decide_eq_false_2.
    + apply IH. lia.
    + intros Hnot. apply Hnot, elem_of_seq. lia.
Qed.

Lemma first_free_counter_cases fuel counter used :
  let c := first_free_counter fuel counter used in
  (∀ j, counter ≤ j < c → j ∈ used) ∧
  (c ∉ used ∨ (c = counter + fuel ∧ ∀ j, counter ≤ j < c → j ∈ used)).
Proof.
  revert counter. induction fuel as [|fuel IH]; intros counter; cbn.
  - split; [lia|]. right. split; lia.
  - case_bool_decide as Hfree.
    + split; [lia|by left].
    + assert (counter ∈ used) as Hin.
      { by destruct (decide (counter ∈ used)). }
      destruct (IH (S counter)) as [Hbelow Hcase]. split.
      * intros j Hj. destruct (decide (j = counter)) as [->|]; [done|].
        apply Hbelow. lia.
      * destruct Hcase as [?|[Heq Hall]]; [by left|right].
        split; [lia|]. intros j Hj.
        destruct (decide (j = counter)) as [->|]; [done|]. apply Hall. lia.
Qed.

(** The loop of [add_section_influence] ends within its fuel: it returns the
    least index that is not in use. *)
Lemma first_free_counter_spec (used : list nat) :
  NoDup used →
  (first_free_counter (length used) 0 used ∉ used) ∧
  (∀ j, j < first_free_counter (length used) 0 used → j ∈ used).
Proof.
  intros Hnodup.
  destruct (first_free_counter_cases (length used) 0 used) as [Hbelow Hcase].
  split; [|intros j Hj; apply Hbelow; lia].
  destruct Hcase as [Hfree|[Heq Hall]]; [done|].
  rewrite Heq in *. cbn [Nat.add] in *.
  assert (seq 0 (length used) ⊆+ used) as Hsub.
  { apply NoDup_submseteq; [apply NoDup_seq|].
    intros j Hj%elem_of_seq. apply Hall. lia. }
  apply submseteq_length_Permutation in Hsub; [|by rewrite length_seq].
  remember (length used) as k eqn:Hk. clear Hk.
  intros Hin. rewrite <- Hsub in Hin. apply elem_of_seq in Hin. lia.
Qed.

Section Loading.
Context (objs : list (string * bool)) (n : string) (st : Settings).

Lemma step_objExists node obj :
  step objs n node (objExists obj) (bool_decide (obj ∈ objs.*1)) node.
Proof.
  apply step_pure. intros w Hobjs _.
  unfold objExists, bind, get_scene, ret. by rewrite Hobjs.
Qed.

Lemma step_worldMatrix_exists node obj :
  step objs n node (worldMatrix_exists obj) (bool_decide ((obj, true) ∈ objs))
       node.
Proof.
  apply step_pure. intros w Hobjs _.
  unfold worldMatrix_exists, bind, get_scene, ret. by rewrite Hobjs.
Qed.

Lemma step_used_influence_indices node idx :
  step objs n node (_get_used_influence_indices n idx)
       ((filter (λ p, Z.of_nat p.1 = idx) (listAttr_bounds node)).*2) node.
Proof.
  unfold _get_used_influence_indices.
  eapply step_bind; [apply step_PyNode|apply step_ret].
Qed.

Lemma step_add_section_influence (secs : list SectionPlug) name v c
    (sofar : list string) influence :
  name ∉ sectionIdentifier <$> secs →
  (influence, true) ∈ objs →
  step objs n
       (node_of_sections st (secs ++ [mkSection name v c (Some <$> sofar)]))
       (add_section_influence n name influence) (Some (length sofar))
       (node_of_sections st
          (secs ++ [mkSection name v c (Some <$> (sofar ++ [influence]))])).
Proof.
  intros Hfresh Hobj. unfold add_section_influence.
  set (sec := mkSection name v c (Some <$> sofar)).
  eapply step_bind; [apply step_PyNode|].
  eapply step_bind; [apply step_objExists|].
  rewrite bool_decide_eq_true_2
    by (apply (list_elem_of_fmap_2 fst _ (influence, true)); done).
  cbn [negb].
  eapply step_bind; [apply step_worldMatrix_exists|].
  rewrite bool_decide_eq_true_2 by done. cbn [negb].
  eapply step_bind; [apply step_section_idx|].
  rewrite (section_idx_last st secs sec name) by done.
  rewrite bool_decide_eq_false_2 by lia.
  eapply step_bind; [apply step_used_influence_indices|].
  unfold listAttr_bounds. rewrite bounds_of_section.
  rewrite decide_True by lia. rewrite Nat.sub_0_r.
  cbn [inputs node_of_sections]. rewrite sparse_get_dense_last.
  cbn [pointsOfBounds sec]. unfold used_indices.
  rewrite used_from_dense, length_seq.
  rewrite first_free_counter_dense by lia. rewrite Nat2Z.id.
  eapply step_bind; [|apply step_ret].
  unfold connectAttr.
  eapply step_bind; [apply (step_touch_last _ _ st secs sec)|].
  eapply step_value_node; [apply step_put_last|].
  cbn [sectionIdentifier mass considerInCalculation pointsOfBounds sec].
  by rewrite sparse_set_dense_end.
Qed.

Lemma step_deserialise_influence (secs : list SectionPlug) name v c
    (sofar : list string) influence :
  name ∉ sectionIdentifier <$> secs →
  (influence, true) ∈ objs →
  step objs n
       (node_of_sections st (secs ++ [mkSection name v c (Some <$> sofar)]))
       (deserialise_influence n name influence) ()
       (node_of_sections st
          (secs ++ [mkSection name v c (Some <$> (sofar ++ [influence]))])).
Proof.
  intros Hfresh Hobj. unfold deserialise_influence, resolve_influence.
  eapply step_bind.
  { eapply step_bind; [apply step_objExists|].
    rewrite bool_decide_eq_true_2
      by (apply (list_elem_of_fmap_2 fst _ (influence, true)); done).
    apply step_ret. }
  cbn beta iota.
  eapply step_bind; [by apply step_add_section_influence|apply step_ret].
Qed.

Lemma step_deserialise_influences (secs : list SectionPlug) name v c
    (sofar infl : list string) :
  name ∉ sectionIdentifier <$> secs →
  Forall (λ i, (i, true) ∈ objs) infl →
  step objs n
       (node_of_sections st (secs ++ [mkSection name v c (Some <$> sofar)]))
       (forM_ infl (deserialise_influence n name)) ()
       (node_of_sections st
          (secs ++ [mkSection name v c (Some <$> (sofar ++ infl))])).
Proof.
  intros Hfresh Hinfl. revert sofar.
  induction Hinfl as [|i infl Hi _ IH]; intros sofar; cbn [forM_].
  - rewrite app_nil_r. apply step_ret.
  - eapply step_bind; [by apply step_deserialise_influence|].
    eapply step_value_node; [apply IH|]. by rewrite <- app_assoc.
Qed.

Lemma step_deserialise_section (secs : list SectionPlug) (d : SectionData) :
  Forall (λ sec, truthy (sectionIdentifier sec) = true) secs →
  name d ∉ sectionIdentifier <$> secs →
  is_float32 (weight d) →
  Forall (λ i, (i, true) ∈ objs) (influences d) →
  step objs n (node_of_sections st secs) (deserialise_section n d) ()
       (node_of_sections st (secs ++ [section_of_data d])).
Proof.
  intros Hsecs Hfresh Hweight Hinfl. unfold deserialise_section.
  eapply step_bind; [by apply step_add_mass_group|].
  eapply step_bind.
  { apply (step_set_section_weight _ _ st secs
             (with_identifier default_section (name d)) (weight d) (weight d));
      done. }
  apply (step_deserialise_influences secs (name d) (weight d) true []); done.
Qed.

Lemma step_deserialise_sections (secs : list SectionPlug)
    (ds : list SectionData) :
  Forall (λ sec, truthy (sectionIdentifier sec) = true) secs →
  Forall (λ d, truthy (name d) = true) ds →
  NoDup ((sectionIdentifier <$> secs) ++ (name <$> ds)) →
  Forall (λ d, is_float32 (weight d)) ds →
  Forall (λ d, Forall (λ i, (i, true) ∈ objs) (influences d)) ds →
  step objs n (node_of_sections st secs)
       (forM_ ds (deserialise_section n)) ()
       (node_of_sections st (secs ++ (section_of_data <$> ds))).
Proof.
  intros Hsecs Hds. revert secs Hsecs.
  induction Hds as [|d ds Hd _ IH]; intros secs Hsecs Hnodup Hweights Hinfl;
    cbn [forM_].
  - cbn. rewrite app_nil_r. apply step_ret.
  - apply Forall_cons in Hinfl as [Hinfl_d Hinfl].
    apply Forall_cons in Hweights as [Hweight_d Hweights].
    assert (name d ∉ sectionIdentifier <$> secs) as Hfresh.
    { apply NoDup_app in Hnodup as (_ & Hdisj & _).
      intros Hin. apply (Hdisj _ Hin). cbn. apply elem_of_cons. by left. }
    eapply step_bind; [by apply step_deserialise_section|].
    eapply step_value_node.
    + apply IH.
      * apply Forall_app. split; [done|]. by repeat constructor.
      * rewrite fmap_cons in Hnodup. by rewrite fmap_app, <- app_assoc.
      * done.
      * done.
    + cbn. by rewrite <- app_assoc.
Qed.

End Loading.

Lemma step_set_settings objs n node st :
  is_float32 (sphereSize st) →
  step objs n node (set_settings n st) () (mkNode st (inputs node)).
Proof.
  intros Hsize w Hobjs Hn Hcoh. unfold set_settings. rewrite Hsize.
  replace (mkSettings _ _ _ _ _) with st by by destruct st.
  rewrite (bind_ok _ _ _ _ _ (PyNode_ok _ _ _ Hn)). rewrite put_node_ok.
  eexists. split; [reflexivity|]. split_and!; try done.
  destruct Hcoh as [Hdirty|Hcoh]; [by left|right].
  intros cached Hcached.
  destruct (Hcoh cached Hcached) as [->|(node' & Hn' & ->)]; [by left|right].
  assert (node' = node) as -> by congruence.
  eexists. split; [apply set_node_lookup|done].
Qed.

Lemma section_data_of_section_of_data d :
  section_data_of (section_of_data d) = d.
Proof.
  destruct d as [nm wt infl]. unfold section_data_of, section_of_data.
  cbn [sectionIdentifier mass pointsOfBounds name weight influences].
  by rewrite elements_of_dense.
Qed.

Lemma sections_of_node_of_sections st secs :
  sections_of (node_of_sections st secs) = secs.
Proof. apply elements_of_dense. Qed.

(** Loading a document whose section names are unique and read as true,
    whose numbers are 32-bit floats and whose influences exist with a world
    matrix, builds those sections on a new node.  The cache must be coherent
    for the name the node gets. *)
Lemma deserialise_document (w : World) path data st :
  files w !! path = Some data →
  data_settings data = Some st →
  is_float32 (sphereSize st) →
  NoDup (name <$> data_sections data) →
  Forall (λ d, truthy (name d) = true) (data_sections data) →
  Forall (λ d, is_float32 (weight d)) (data_sections data) →
  Forall (λ d, Forall (λ i, (i, true) ∈ objects (scene w)) (influences d))
         (data_sections data) →
  (_SECTION_CACHE_IS_DIRTY (cache w) = true ∨
   ∀ cached, _SECTION_INDICES (cache w)
               !! new_node_name (scene w) (data_name data) = Some cached →
             cached = []) →
  let loaded := new_node_name (scene w) (data_name data) in
  let node := node_of_sections st (section_of_data <$> data_sections data) in
  ∃ w', deserialise path w = Ok ((), w') ∧
        mass_nodes (scene w') = <[loaded := node]> (mass_nodes (scene w)) ∧
        coherent w' loaded.
Proof.
  intros Hfile Hst Hsize Hnodup Htruthy Hweights Hinfl Hcache. cbn zeta.
  set (loaded := new_node_name (scene w) (data_name data)).
  set (objs := objects (scene w)
               ++ [(new_parent_name (scene w) (data_name data), true);
                   (loaded, true)]).
  assert (step objs loaded default_node
            (match data_settings data with
             | Some s => set_settings loaded s
             | None => ret ()
             end;;
             forM_ (data_sections data) (deserialise_section loaded))
            ()
            (node_of_sections st (section_of_data <$> data_sections data)))
    as Hstep.
  { rewrite Hst.
    eapply step_bind; [by apply step_set_settings|].
    apply (step_deserialise_sections objs loaded st []); try done.
    eapply Forall_impl; [exact Hinfl|]. intros d Hd.
    eapply Forall_impl; [exact Hd|]. intros i Hi.
    apply elem_of_app. by left. }
  unfold deserialise, bind at 1. cbn [get_files]. rewrite Hfile.
  rewrite (bind_ok _ _ _ _ _ (new_ok _ _)). fold loaded. fold objs.
  set (w1 := mkWorld _ _ _).
  destruct (Hstep w1) as (w' & Hrun & _ & Hnodes & _ & Hcoh & _).
  - done.
  - apply lookup_insert_eq.
  - destruct Hcache as [Hdirty|Hcache]; [by left|right].
    intros cached Hcached. left. by apply Hcache.
  - exists w'. split_and!; try done. rewrite Hnodes.
    unfold w1. cbn [scene mass_nodes]. apply insert_insert_eq.
Qed.

(** X25. A node whose section names are unique and none of which reads as
    false (empty), and whose influences all exist under their own names, is
    saved, loaded and saved again with the same sections, weights,
    influences and settings: the load adds one node to the scene, and the
    document of that node has the sections and the settings of the document
    of the first. *)
Theorem serialise_roundtrip (w : World) (mass_node : string)
    (node : MassNode) (path : string) :
  mass_nodes (scene w) !! mass_node = Some node →
  coherent w mass_node → cache_keys_ok w →
  well_named node → float_valued node → influences_exist (scene w) node →
  path ≠ EmptyString →
  ∃ data w1 w2 loaded node' data' w3,
    serialise mass_node (Some path) w = Ok (data, w1) ∧
    deserialise path w1 = Ok ((), w2) ∧
    mass_nodes (scene w1) !! loaded = None ∧
    mass_nodes (scene w2) = <[loaded := node']> (mass_nodes (scene w1)) ∧
    serialise loaded None w2 = Ok (data', w3) ∧
    data = document_of mass_node node ∧
    data_sections data' = data_sections data ∧
    data_settings data' = data_settings data.
Proof.
  intros Hn Hcoh Hkeys [Hnodup Htruthy] [Hsize Hweights] Hinfl Hpath.
  destruct (serialise_coherent w mass_node node (Some path) Hn Hcoh Hnodup)
    as (w1 & Hser & Hscene & Hcoh1 & Hframe & Hfiles).
  rewrite bool_decide_eq_false_2 in Hfiles by done.
  set (data := document_of mass_node node) in *.
  assert (name <$> data_sections data = identifiers node) as Hnames.
  { unfold data, document_of, identifiers. cbn.
    by rewrite <- list_fmap_compose. }
  destruct (deserialise_document w1 path data (settings node))
    as (w2 & Hde & Hloaded & Hcoh2).
  - rewrite Hfiles. apply lookup_insert_eq.
  - done.
  - done.
  - by rewrite Hnames.
  - apply Forall_fmap in Htruthy. unfold data, document_of. cbn.
    apply Forall_fmap. exact Htruthy.
  - unfold data, document_of. cbn. apply Forall_fmap. exact Hweights.
  - rewrite Hscene. unfold data, document_of. cbn. apply Forall_fmap.
    eapply Forall_impl; [exact Hinfl|]. by intros sec.
  - destruct (_SECTION_CACHE_IS_DIRTY (cache w1)) eqn:Hdirty; [by left|right].
    rewrite Hscene. cbn [data_name data document_of].
    intros cached Hcached.
    pose proof (new_node_name_fresh (scene w) mass_node) as Hfresh.
    rewrite Hframe in Hcached by congruence.
    destruct (Hkeys _ _ Hcached) as [->|[node' Hnode']]; [done|congruence].
  - set (loaded := new_node_name (scene w1) (data_name data)) in *.
    set (node' := node_of_sections _ _) in *.
    assert (mass_nodes (scene w2) !! loaded = Some node') as Hlook.
    { rewrite Hloaded. apply lookup_insert_eq. }
    destruct (serialise_coherent w2 loaded node' None Hlook Hcoh2)
      as (w3 & Hser' & _).
    { unfold identifiers, node'. rewrite sections_of_node_of_sections.
      rewrite <- list_fmap_compose. rewrite <- Hnames in Hnodup.
      exact Hnodup. }
    exists data, w1, w2, loaded, node', (document_of loaded node'), w3.
    split_and!; try done.
    + apply new_node_name_fresh.
    + unfold document_of at 1, node'. cbn [data_sections].
      rewrite sections_of_node_of_sections, <- list_fmap_compose.
      rewrite <- (list_fmap_id (data_sections data)) at 2.
      apply list_fmap_ext. intros i d _. cbn.
      apply section_data_of_section_of_data.
Qed.


(** ** The properties on sample worlds *)

Example after_last_colon_namespace : after_last_colon "rig:left:arm" = "arm".
Proof. reflexivity. Qed.

Example after_last_colon_plain : after_last_colon "arm" = "arm".
Proof. reflexivity. Qed.

Example unique_name_taken :
  unique_name ["massimo"; "massimo1"; "other"] "massimo" = "massimo2".
Proof. reflexivity. Qed.

(** 0.1 is stored as the float 13421773/134217728; the attribute defaults
    1.0 and 10.0 are floats; 2^128 is beyond the largest float. *)
Example float32_samples :
  float32 tenth = Some float32_tenth ∧
  is_float32 1%Qc ∧ is_float32 (Qc_of_Z 10) ∧
  float32 (Qc_of_Z (2 ^ 128)) = None.
Proof. refine (bool_decide_unpack _ _). vm_compute. exact I. Qed.

Example sample_document :
  data_sections (document_of "massimoSettings" sample_node)
  = [mkSectionData (Some "arm") (Qc_of_Z 2) ["elbow"; "wrist"];
     mkSectionData (Some "leg") (Qc_of_Z 3) ["knee"]].
Proof. reflexivity. Qed.

Lemma lookups_return_sentinels_witness :
  eval (_get_section_idx_from_name "massimoSettings" (Some "tail")) sample_world
  = Ok (-1)%Z ∧
  eval (get_section_weight "massimoSettings" (Some "tail")) sample_world
  = Ok 0%Qc ∧
  eval (get_section_influences "massimoSettings" (Some "tail")) sample_world
  = Ok [].
Proof.
  apply (lookups_return_sentinels sample_world "massimoSettings" sample_node
           "tail").
  - vm_compute. reflexivity.
  - refine (bool_decide_unpack _ _). vm_compute. exact I.
Defined.

Section WeightsOnSamples.
Local Open Scope Qc_scope.




End WeightsOnSamples.

Lemma serialise_roundtrip_witness :
  ∃ data w1 w2 loaded node' data' w3,
    serialise "massimoSettings" (Some "body.mass") sample_world
    = Ok (data, w1) ∧
    deserialise "body.mass" w1 = Ok ((), w2) ∧
    mass_nodes (scene w1) !! loaded = None ∧
    mass_nodes (scene w2) = <[loaded := node']> (mass_nodes (scene w1)) ∧
    serialise loaded None w2 = Ok (data', w3) ∧
    data = document_of "massimoSettings" sample_node ∧
    data_sections data' = data_sections data ∧
    data_settings data' = data_settings data.
Proof.
  apply (serialise_roundtrip sample_world "massimoSettings" sample_node
           "body.mass").
  - vm_compute. reflexivity.
  - left. reflexivity.
  - intros k cached Hk. vm_compute in Hk. discriminate Hk.
  - split.
    + refine (bool_decide_unpack _ _). vm_compute. exact I.
    + refine (bool_decide_unpack _ _). vm_compute. exact I.
  - split.
    + refine (bool_decide_unpack _ _). vm_compute. exact I.
    + refine (bool_decide_unpack _ _). vm_compute. exact I.
  - refine (bool_decide_unpack _ _). vm_compute. exact I.
  - discriminate.
Defined.

(** C6 at a failing input. Two nodes; the first has the sections [x] and
    [y], the second was queried last, which marked the cache clean while it
    still lists only [x] for the first.  Renaming [x] to [y] on the first
    node is then not rejected: it ends with two sections named [y]. *)
Lemma rename_with_stale_cache :
  eval rename_scenario empty_world
  = Ok ([Some "x"; Some "y"], [Some "y"; Some "y"]).
Proof. vm_compute. reflexivity. Qed.

(** C7 at a failing input. A node has the sections [x] and [a]; [x] is
    renamed to the empty string.  On load [_initialise_mass_section] finds
    the loaded section of that name by [if not result], which holds for the
    empty string as it does for [None], and hands its index to the next
    section: the document of the loaded node has one section where the
    document of the first has two. *)
Theorem empty_name_breaks_roundtrip :
  eval empty_name_scenario empty_world
  = Ok ([mkSectionData (Some "") (Qc_of_Z 2) [];
         mkSectionData (Some "a") (Qc_of_Z 3) []],
        [mkSectionData (Some "a") (Qc_of_Z 3) []]).
Proof. refine (bool_decide_unpack _ _). vm_compute. exact I. Qed.

(** * More of the section registry *)

(** ** More on sparse arrays *)

Section SparseMore.
Context {A : Type}.
Implicit Types l : list (option A).

Lemma elem_of_indexed_from o l k a :
  (k, a) ∈ indexed_from o l ↔ ∃ j, k = o + j ∧ sparse_get j l = Some a.
Proof.
  split; [apply indexed_from_lookup|].
  intros (j & -> & Hj). revert o j Hj.
  induction l as [|[x|] l IH]; intros o j Hj.
  - by rewrite sparse_get_nil in Hj.
  - cbn [indexed_from]. destruct j as [|j].
    + rewrite sparse_get_cons_0 in Hj. injection Hj as ->.
      rewrite Nat.add_0_r. by left.
    + rewrite sparse_get_cons_S in Hj. right.
      replace (o + S j) with (S o + j) by lia. by apply IH.
  - cbn [indexed_from]. destruct j as [|j].
    + by rewrite sparse_get_cons_0 in Hj.
    + rewrite sparse_get_cons_S in Hj.
      replace (o + S j) with (S o + j) by lia. by apply IH.
Qed.

Lemma elem_of_indexed l k a : (k, a) ∈ indexed l ↔ sparse_get k l = Some a.
Proof.
  unfold indexed. rewrite elem_of_indexed_from. split.
  - by intros (j & -> & Hj).
  - intros Hk. by exists k.
Qed.

Lemma elem_of_used_indices l k :
  k ∈ used_indices l ↔ is_Some (sparse_get k l).
Proof.
  rewrite <- indexed_fst, list_elem_of_fmap. split.
  - intros ([k' a] & -> & Hin). exists a. by apply elem_of_indexed.
  - intros [a Ha]. exists (k, a). split; [done|]. by apply elem_of_indexed.
Qed.

Lemma used_from_lt o l k : k ∈ used_from o l → o ≤ k.
Proof.
  rewrite <- indexed_from_fst, list_elem_of_fmap.
  intros ([k' a] & -> & (j & Hk & _)%indexed_from_lookup). cbn in *. lia.
Qed.

Lemma used_from_NoDup o l : NoDup (used_from o l).
Proof.
  revert o. induction l as [|[x|] l IH]; intros o; cbn [used_from];
    [constructor| |apply IH].
  constructor; [|apply IH]. intros Hin%used_from_lt. lia.
Qed.

Lemma used_indices_NoDup l : NoDup (used_indices l).
Proof. apply used_from_NoDup. Qed.

Lemma sparse_set_same i (a : A) l : sparse_get i l = Some a → sparse_set i a l = l.
Proof.
  revert i. induction l as [|x l IH]; intros i Hi.
  - by rewrite sparse_get_nil in Hi.
  - destruct i as [|i].
    + rewrite sparse_get_cons_0 in Hi. by subst.
    + rewrite sparse_get_cons_S in Hi. cbn. by rewrite IH.
Qed.

Lemma sparse_get_remove i j l :
  sparse_get j (sparse_remove i l)
  = if decide (i = j) then None else sparse_get j l.
Proof.
  unfold sparse_get, sparse_remove.
  destruct (decide (i = j)) as [->|Hne].
  - destruct (decide (j < length l)) as [Hlt|Hge].
    + by rewrite list_lookup_insert_eq.
    + rewrite lookup_ge_None_2; [done|]. rewrite length_insert. lia.
  - by rewrite list_lookup_insert_ne.
Qed.

Lemma sparse_get_app_l l0 l j :
  j < length l0 → sparse_get j (l0 ++ l) = sparse_get j l0.
Proof. intros Hj. unfold sparse_get. by rewrite lookup_app_l. Qed.

Lemma sparse_get_app_r l0 l j :
  sparse_get (length l0 + j) (l0 ++ l) = sparse_get j l.
Proof.
  unfold sparse_get. rewrite lookup_app_r by lia. f_equal. f_equal. lia.
Qed.

Lemma sparse_remove_app_length l0 x l :
  sparse_remove (length l0) (l0 ++ x :: l) = l0 ++ None :: l.
Proof.
  unfold sparse_remove. rewrite insert_app_r_alt by lia.
  by rewrite Nat.sub_diag.
Qed.

Lemma elements_of_cons_Some (a : A) l : elements_of (Some a :: l) = a :: elements_of l.
Proof.
  unfold elements_of, indexed. cbn [indexed_from fmap list_fmap]. 
  f_equal. apply indexed_from_snd.
Qed.

Lemma elements_of_cons_None l : elements_of (None :: l) = elements_of l.
Proof.
  unfold elements_of, indexed. cbn [indexed_from]. apply indexed_from_snd.
Qed.

(** The first index that is not in use splits the array into a dense prefix
    and a rest that is empty or starts with a gap. *)
Lemma first_free_split l :
  ∃ (xs : list A) t,
    l = (Some <$> xs) ++ t ∧ first_free l = length xs ∧
    (t = [] ∨ ∃ t', t = None :: t').
Proof.
  unfold first_free.
  destruct (first_free_counter_spec (used_indices l) (used_indices_NoDup l))
    as [Hfree Hbelow].
  set (c := first_free_counter _ _ _) in *. clearbody c.
  rewrite elem_of_used_indices in Hfree.
  assert (∀ j, j < c → is_Some (sparse_get j l)) as Hdense.
  { intros j Hj. by apply elem_of_used_indices, Hbelow. }
  clear Hbelow. revert c Hfree Hdense.
  induction l as [|x l IH]; intros c Hfree Hdense.
  - exists [], []. split_and!; [done| |by left].
    destruct c as [|c]; [done|]. destruct (Hdense 0) as [? Habs]; [lia|].
    by rewrite sparse_get_nil in Habs.
  - destruct c as [|c].
    + rewrite sparse_get_cons_0 in Hfree. destruct x as [a|].
      { destruct Hfree. by eexists. }
      exists [], (None :: l). split_and!; [done|done|right; by eexists].
    + destruct (Hdense 0) as [a Ha]; [lia|].
      rewrite sparse_get_cons_0 in Ha. subst x.
      destruct (IH c) as (xs & t & -> & -> & Ht).
      * by rewrite sparse_get_cons_S in Hfree.
      * intros j Hj. specialize (Hdense (S j)).
        rewrite sparse_get_cons_S in Hdense. apply Hdense. lia.
      * exists (a :: xs), t. by split_and!.
Qed.

End SparseMore.

(** ** The result of a call *)

Lemma step_returns {A} w n node (m : M A) v node' :
  step (objects (scene w)) n node m v node' →
  mass_nodes (scene w) !! n = Some node → coherent w n →
  returns m w n v node'.
Proof.
  intros Hstep Hn Hcoh.
  destruct (Hstep w eq_refl Hn Hcoh) as (w' & ? & ? & ? & ? & ? & _).
  by exists w'.
Qed.

(** ** Sections by name *)

Lemma first_named_app name o (l0 l : list (option SectionPlug)) :
  name ∉ sectionIdentifier <$> elements_of l0 →
  first_named name (indexed_from o (l0 ++ l))
  = first_named name (indexed_from (length l0 + o) l).
Proof.
  revert o. induction l0 as [|[s|] l0 IH]; intros o Hfresh; [done| |].
  - rewrite elements_of_cons_Some, fmap_cons, not_elem_of_cons in Hfresh.
    destruct Hfresh as [Hne Hfresh].
    cbn [app indexed_from first_named length].
    rewrite bool_decide_eq_false_2 by done.
    rewrite IH by done. f_equal. f_equal. lia.
  - rewrite elements_of_cons_None in Hfresh.
    cbn [app indexed_from length]. rewrite IH by done. f_equal. f_equal. lia.
Qed.

Lemma first_named_split name o (l : list (option SectionPlug)) i sec :
  first_named name (indexed_from o l) = Some (i, sec) →
  ∃ l0 l1, l = l0 ++ Some sec :: l1 ∧ i = o + length l0 ∧
           sectionIdentifier sec = name ∧
           name ∉ sectionIdentifier <$> elements_of l0.
Proof.
  revert o. induction l as [|[s|] l IH]; intros o Hfirst; [done| |].
  - cbn [indexed_from first_named] in Hfirst.
    case_bool_decide as Hname.
    + injection Hfirst as <- <-. exists [], l.
      split_and!; try done. apply not_elem_of_nil.
    + destruct (IH _ Hfirst) as (l0 & l1 & -> & -> & Hsec & Hfresh).
      exists (Some s :: l0), l1. split_and!; try done.
      * cbn. lia.
      * rewrite elements_of_cons_Some, fmap_cons, not_elem_of_cons. done.
  - cbn [indexed_from] in Hfirst.
    destruct (IH _ Hfirst) as (l0 & l1 & -> & -> & Hsec & Hfresh).
    exists (None :: l0), l1. split_and!; try done.
    + cbn. lia.
    + by rewrite elements_of_cons_None.
Qed.

Lemma first_named_None name o (l : list (option SectionPlug)) :
  first_named name (indexed_from o l) = None ↔
  name ∉ sectionIdentifier <$> elements_of l.
Proof.
  revert o. induction l as [|[s|] l IH]; intros o.
  - split; [intros _; apply not_elem_of_nil|done].
  - cbn [indexed_from first_named].
    rewrite elements_of_cons_Some, fmap_cons, not_elem_of_cons.
    case_bool_decide as Hname.
    + split; [done|]. by intros [? _].
    + rewrite IH. split; [done|]. by intros [_ ?].
  - cbn [indexed_from]. rewrite elements_of_cons_None. apply IH.
Qed.

Lemma first_named_is_Some name (node : MassNode) :
  name ∈ identifiers node →
  ∃ i sec, first_named name (indexed (inputs node)) = Some (i, sec).
Proof.
  intros Hin.
  destruct (first_named name (indexed (inputs node))) as [[i sec]|] eqn:Hfirst;
    [by eauto|].
  by apply first_named_None in Hfirst.
Qed.

Lemma first_named_here name o (l0 l1 : list (option SectionPlug)) sec :
  name ∉ sectionIdentifier <$> elements_of l0 →
  sectionIdentifier sec = name →
  first_named name (indexed_from o (l0 ++ Some sec :: l1))
  = Some (length l0 + o, sec).
Proof.
  intros Hfresh Hname. rewrite first_named_app by done.
  cbn [indexed_from first_named]. by rewrite bool_decide_eq_true_2.
Qed.

Lemma first_named_past name o (l0 l1 : list (option SectionPlug)) x :
  name ∉ sectionIdentifier <$> elements_of (l0 ++ [x]) →
  first_named name (indexed_from o (l0 ++ x :: l1))
  = first_named name (indexed_from (S (length l0) + o) l1).
Proof.
  intros Hfresh. rewrite (cons_middle x), app_assoc.
  rewrite first_named_app by done. by rewrite length_app, Nat.add_1_r.
Qed.

(** A name finds the same section when a section that does not bear it is
    replaced by another that does not bear it. *)
Lemma first_named_other other o (l0 l1 : list (option SectionPlug))
    sec sec' :
  sectionIdentifier sec ≠ other → sectionIdentifier sec' ≠ other →
  option_map snd (first_named other (indexed_from o (l0 ++ Some sec' :: l1)))
  = option_map snd (first_named other (indexed_from o (l0 ++ Some sec :: l1)))
  ∧ option_map fst (first_named other (indexed_from o (l0 ++ Some sec' :: l1)))
  = option_map fst (first_named other (indexed_from o (l0 ++ Some sec :: l1))).
Proof.
  intros Hsec Hsec'.
  destruct (decide (other ∈ sectionIdentifier <$> elements_of l0)) as [Hin|Hout].
  - destruct (first_named other (indexed_from o l0)) as [[i s]|] eqn:Hfirst;
      [|by apply first_named_None in Hfirst].
    destruct (first_named_split _ _ _ _ _ Hfirst) as (a & b & -> & -> & Hs & Ha).
    rewrite <- !app_assoc. cbn [app].
    by rewrite !first_named_here.
  - rewrite !first_named_app by done. cbn [indexed_from first_named].
    by rewrite !bool_decide_eq_false_2.
Qed.

(** ** Updates on any node *)

Section Updates.
Context (objs : list (string * bool)) (n : string).

Lemma first_named_lookup name (node : MassNode) i sec :
  first_named name (indexed (inputs node)) = Some (i, sec) →
  sparse_get i (inputs node) = Some sec.
Proof. intros [Hin _]%first_named_elem. by apply indexed_lookup. Qed.

Lemma step_put_named node name i sec sec' :
  first_named name (indexed (inputs node)) = Some (i, sec) →
  step objs n node (put_section n i sec') () (with_section node i sec').
Proof. intros Hfirst. eapply step_put_section, first_named_lookup, Hfirst. Qed.

Lemma step_set_section_weight_any node name v stored :
  float32 v = Some stored →
  step objs n node (set_section_weight n name v) ()
       (update_named node name (λ sec, with_mass sec stored)).
Proof.
  intros Hstored. unfold set_section_weight, update_named.
  eapply step_bind; [apply step_PyNode|].
  eapply step_bind; [apply step_section_idx|].
  unfold section_idx.
  destruct (first_named name (indexed (inputs node))) as [[i sec]|] eqn:Hfirst.
  - rewrite bool_decide_eq_false_2 by lia. rewrite Nat2Z.id.
    unfold setAttr_mass. rewrite Hstored.
    eapply step_bind; [eapply step_touch, first_named_lookup, Hfirst|].
    by eapply step_put_named.
  - rewrite bool_decide_eq_true_2 by lia. apply step_ret.
Qed.

Lemma step_set_section_name_any node name new_name :
  step objs n node (set_section_name n name new_name) ()
       (if bool_decide (new_name ∈ identifiers node) then node
        else update_named node name (λ sec, with_identifier sec new_name)).
Proof.
  unfold set_section_name, update_named.
  eapply step_bind; [apply step_PyNode|].
  eapply step_bind; [apply step_section_names|].
  case_bool_decide; [apply step_ret|].
  eapply step_bind; [apply step_section_idx|].
  unfold section_idx.
  destruct (first_named name (indexed (inputs node))) as [[i sec]|] eqn:Hfirst.
  - rewrite bool_decide_eq_false_2 by lia. rewrite Nat2Z.id.
    unfold setAttr_sectionIdentifier.
    eapply step_bind; [eapply step_touch, first_named_lookup, Hfirst|].
    by eapply step_put_named.
  - rewrite bool_decide_eq_true_2 by lia. apply step_ret.
Qed.

Lemma step_add_mass_group_any node name :
  step objs n node (add_mass_group n name)
       (first_free_section 0 (inputs node))
       (with_section node (first_free_section 0 (inputs node))
                     (named_section node name)).
Proof.
  intros w Hobjs Hn Hcoh. rewrite (add_mass_group_ok _ _ _ _ Hn).
  eexists. split; [reflexivity|]. split_and!; try done. by left.
Qed.

Lemma removeMultiInstance_ok w node i :
  mass_nodes (scene w) !! n = Some node →
  removeMultiInstance n i w = Ok ((), set_node w n (without_section node i)).
Proof.
  intros Hn. unfold removeMultiInstance.
  rewrite (bind_ok _ _ _ _ _ (PyNode_ok _ _ _ Hn)). apply put_node_ok.
Qed.

Lemma step_remove_mass_group node name :
  step objs n node (remove_mass_group n name) () (remove_named node name).
Proof.
  unfold remove_mass_group, remove_named.
  eapply step_bind; [apply step_PyNode|].
  eapply step_bind; [apply step_section_idx|].
  unfold section_idx.
  destruct (first_named name (indexed (inputs node))) as [[i sec]|] eqn:Hfirst.
  - rewrite bool_decide_eq_false_2 by lia. rewrite Nat2Z.id.
    intros w Hobjs Hn Hcoh.
    rewrite (bind_ok _ _ _ _ _ (removeMultiInstance_ok _ _ i Hn)).
    eexists. split; [reflexivity|]. split_and!; try done. by left.
  - rewrite bool_decide_eq_true_2 by lia. apply step_ret.
Qed.

End Updates.

(** ** Lookups *)

(** X8. Under a coherent cache the lookups return what the node holds and
    change neither the scene nor the files: [get_section_names] the
    identifier of every section that exists, by ascending index ([None] for a
    section that was never named); and, for a name, the index, the weight and
    the influences by ascending index of the first section that bears the
    name (-1, 0.0 and the empty list when none does). *)
Theorem lookups_read_the_node (w : World) (mass_node : string)
    (node : MassNode) (name : PyName) :
  mass_nodes (scene w) !! mass_node = Some node → coherent w mass_node →
  reads (get_section_names mass_node) w mass_node (identifiers node) ∧
  reads (_get_section_idx_from_name mass_node name) w mass_node
        (section_idx node name) ∧
  reads (get_section_weight mass_node name) w mass_node (weight_of node name) ∧
  reads (get_section_influences mass_node name) w mass_node
        (influences_of node name).
Proof.
  intros Hn Hcoh. split_and!; eapply step_reads; try done.
  - apply step_section_names.
  - apply step_section_idx.
  - apply step_section_weight.
  - apply step_section_influences.
Qed.

Lemma lookups_read_the_node_witness :
  reads (get_section_names "massimoSettings") sample_world "massimoSettings"
        (identifiers sample_node) ∧
  reads (_get_section_idx_from_name "massimoSettings" (Some "leg"))
        sample_world "massimoSettings" (section_idx sample_node (Some "leg")) ∧
  reads (get_section_weight "massimoSettings" (Some "leg")) sample_world
        "massimoSettings" (weight_of sample_node (Some "leg")) ∧
  reads (get_section_influences "massimoSettings" (Some "leg")) sample_world
        "massimoSettings" (influences_of sample_node (Some "leg")).
Proof.
  apply (lookups_read_the_node sample_world "massimoSettings" sample_node
           (Some "leg")).
  - vm_compute. reflexivity.
  - left. reflexivity.
Defined.

Lemma step_name_from_idx_any objs n node idx :
  step objs n node (_get_name_from_section_idx n idx)
       (sparse_get idx (inputs node) ≫= sectionIdentifier) node.
Proof.
  destruct (sparse_get idx (inputs node)) as [sec|] eqn:Hget.
  - by apply step_name_from_section_idx, elem_of_indexed.
  - unfold _get_name_from_section_idx.
    eapply step_bind; [apply step_PyNode|].
    eapply step_bind; [apply step_used_section_indices|].
    rewrite bool_decide_eq_true_2; [apply step_ret|].
    unfold listAttr_sections. rewrite elem_of_used_indices, Hget.
    by intros [? ?].
Qed.

Lemma section_idx_NoDup node i sec :
  NoDup (identifiers node) → sparse_get i (inputs node) = Some sec →
  section_idx node (sectionIdentifier sec) = Z.of_nat i.
Proof.
  intros Hnd Hget. unfold section_idx.
  rewrite (first_named_NoDup _ i sec); [done|done|].
  by apply elem_of_indexed.
Qed.

(** X9. Under a coherent cache [_get_name_from_section_idx] returns the
    identifier of the section at the index, and [None] for an index that is
    not in use, without creating the element; when the names of the node are
    unique, looking up the index of the name it returns gives the index
    back. *)
Theorem section_index_name_roundtrip (w : World) (mass_node : string)
    (node : MassNode) (idx : nat) :
  mass_nodes (scene w) !! mass_node = Some node → coherent w mass_node →
  reads (_get_name_from_section_idx mass_node idx) w mass_node
        (sparse_get idx (inputs node) ≫= sectionIdentifier) ∧
  (NoDup (identifiers node) → is_Some (sparse_get idx (inputs node)) →
   reads (name ← _get_name_from_section_idx mass_node idx;
          _get_section_idx_from_name mass_node name) w mass_node
         (Z.of_nat idx)).
Proof.
  intros Hn Hcoh. split.
  - eapply step_reads; [apply step_name_from_idx_any|done..].
  - intros Hnd [sec Hget]. eapply step_reads; [|done..].
    eapply step_bind; [apply step_name_from_idx_any|].
    rewrite Hget. cbn [mbind option_bind].
    eapply step_value; [apply step_section_idx|].
    by apply section_idx_NoDup.
Qed.

Lemma section_index_name_roundtrip_witness :
  reads (_get_name_from_section_idx "massimoSettings" 2) sample_world
        "massimoSettings"
        (sparse_get 2 (inputs sample_node) ≫= sectionIdentifier) ∧
  (NoDup (identifiers sample_node) →
   is_Some (sparse_get 2 (inputs sample_node)) →
   reads (name ← _get_name_from_section_idx "massimoSettings" 2;
          _get_section_idx_from_name "massimoSettings" name) sample_world
         "massimoSettings" (Z.of_nat 2)).
Proof.
  apply (section_index_name_roundtrip sample_world "massimoSettings"
           sample_node 2).
  - vm_compute. reflexivity.
  - left. reflexivity.
Defined.

(** ** Writing a section *)

Lemma sections_of_app st (l0 l1 : list (option SectionPlug)) :
  sections_of (mkNode st (l0 ++ l1)) = elements_of l0 ++ elements_of l1.
Proof. apply elements_of_app. Qed.

(** The first section that bears a name, as a place in the array. *)
Lemma first_named_place name (node : MassNode) i sec :
  first_named name (indexed (inputs node)) = Some (i, sec) →
  ∃ l0 l1, inputs node = l0 ++ Some sec :: l1 ∧ i = length l0 ∧
           sectionIdentifier sec = name ∧
           name ∉ sectionIdentifier <$> elements_of l0.
Proof.
  intros (l0 & l1 & ? & ? & ? & ?)%first_named_split. by exists l0, l1.
Qed.

Lemma with_section_place (node : MassNode) l0 l1 sec sec' :
  inputs node = l0 ++ Some sec :: l1 →
  inputs (with_section node (length l0) sec') = l0 ++ Some sec' :: l1.
Proof.
  intros Hl. unfold with_section. cbn [inputs]. rewrite Hl.
  by rewrite sparse_set_app_length.
Qed.

Lemma without_section_place (node : MassNode) l0 l1 sec :
  inputs node = l0 ++ Some sec :: l1 →
  inputs (without_section node (length l0)) = l0 ++ None :: l1.
Proof.
  intros Hl. unfold without_section. cbn [inputs]. rewrite Hl.
  apply sparse_remove_app_length.
Qed.

Lemma identifiers_place (node : MassNode) l0 l1 sec :
  inputs node = l0 ++ Some sec :: l1 →
  identifiers node
  = (sectionIdentifier <$> elements_of l0)
      ++ sectionIdentifier sec :: (sectionIdentifier <$> elements_of l1).
Proof.
  intros Hl. unfold identifiers, sections_of. rewrite Hl.
  by rewrite elements_of_app, elements_of_cons_Some, fmap_app, fmap_cons.
Qed.

Lemma with_section_get (node : MassNode) i sec' j :
  sparse_get j (inputs (with_section node i sec'))
  = if decide (i = j) then Some sec' else sparse_get j (inputs node).
Proof.
  unfold with_section. cbn [inputs]. destruct (decide (i = j)) as [->|Hne].
  - apply sparse_get_set_eq.
  - by apply sparse_get_set_ne.
Qed.

Lemma with_section_twice node i sec sec' :
  with_section (with_section node i sec) i sec' = with_section node i sec'.
Proof. unfold with_section. cbn. by rewrite sparse_set_set. Qed.

Lemma with_section_first_named (node : MassNode) name i sec sec' :
  first_named name (indexed (inputs node)) = Some (i, sec) →
  sectionIdentifier sec' = name →
  first_named name (indexed (inputs (with_section node i sec')))
  = Some (i, sec').
Proof.
  intros Hfirst Hname.
  destruct (first_named_place _ _ _ _ Hfirst) as (l0 & l1 & Hl & -> & Hsec & Hfresh).
  rewrite (with_section_place _ _ _ _ _ Hl). unfold indexed.
  rewrite first_named_here by done. by rewrite Nat.add_0_r.
Qed.

Lemma with_section_first_other (node : MassNode) name i sec sec' other :
  first_named name (indexed (inputs node)) = Some (i, sec) →
  other ≠ name → sectionIdentifier sec' ≠ other →
  option_map snd (first_named other (indexed (inputs (with_section node i sec'))))
  = option_map snd (first_named other (indexed (inputs node))) ∧
  option_map fst (first_named other (indexed (inputs (with_section node i sec'))))
  = option_map fst (first_named other (indexed (inputs node))).
Proof.
  intros Hfirst Hother Hsec'.
  destruct (first_named_place _ _ _ _ Hfirst) as (l0 & l1 & Hl & -> & Hsec & Hfresh).
  rewrite (with_section_place _ _ _ _ _ Hl), Hl. unfold indexed.
  apply first_named_other; [congruence|done].
Qed.

Lemma with_section_identifiers (node : MassNode) name i sec sec' :
  first_named name (indexed (inputs node)) = Some (i, sec) →
  sectionIdentifier sec' = sectionIdentifier sec →
  identifiers (with_section node i sec') = identifiers node.
Proof.
  intros Hfirst Hname.
  destruct (first_named_place _ _ _ _ Hfirst) as (l0 & l1 & Hl & -> & Hsec & Hfresh).
  rewrite (identifiers_place _ _ _ _ Hl).
  rewrite (identifiers_place _ _ _ _ (with_section_place _ _ _ _ sec' Hl)).
  by rewrite Hname.
Qed.

Lemma weight_of_first node name :
  weight_of node name
  = from_option mass 0%Qc (option_map snd (first_named name (indexed (inputs node)))).
Proof.
  unfold weight_of. by destruct (first_named _ _) as [[? ?]|].
Qed.

Lemma influences_of_first node name :
  influences_of node name
  = from_option (λ sec, elements_of (pointsOfBounds sec)) []
      (option_map snd (first_named name (indexed (inputs node)))).
Proof.
  unfold influences_of. by destruct (first_named _ _) as [[? ?]|].
Qed.

Lemma section_idx_first node name :
  section_idx node name
  = from_option Z.of_nat (-1)%Z
      (option_map fst (first_named name (indexed (inputs node)))).
Proof.
  unfold section_idx. by destruct (first_named _ _) as [[? ?]|].
Qed.

(** X10. The attribute [mass] is a 32-bit float.  Under a coherent cache
    [set_section_weight] followed by [get_section_weight] for the same name
    returns the 32-bit float nearest to the weight that was set (0.1 reads
    back as 13421773/134217728) when a section bears the name, and 0.0
    (with the node unchanged) when none does.  The write changes the first
    section that bears the name and nothing else: the identifiers, the index
    and the weight found for every other name, and the influences found for
    every name stay as they were. *)
Theorem set_then_get_section_weight (w : World) (mass_node : string)
    (node : MassNode) (name : PyName) (v stored : Qc) :
  mass_nodes (scene w) !! mass_node = Some node → coherent w mass_node →
  float32 v = Some stored →
  let node' := update_named node name (λ sec, with_mass sec stored) in
  returns (set_section_weight mass_node name v;;
           get_section_weight mass_node name)
          w mass_node
          (if bool_decide (name ∈ identifiers node) then stored else 0%Qc)
          node' ∧
  identifiers node' = identifiers node ∧
  (∀ other, other ≠ name →
            section_idx node' other = section_idx node other ∧
            weight_of node' other = weight_of node other) ∧
  (∀ any, influences_of node' any = influences_of node any).
Proof.
  intros Hn Hcoh Hstored node'.
  assert (weight_of node' name
          = if bool_decide (name ∈ identifiers node) then stored else 0%Qc)
    as Hget.
  { unfold node', update_named, weight_of at 1.
    destruct (first_named name (indexed (inputs node))) as [[i sec]|] eqn:Hfirst.
    - destruct (first_named_place _ _ _ _ Hfirst) as (l0 & l1 & Hl & _ & Hsec & _).
      rewrite (with_section_first_named _ _ _ _ _ Hfirst) by done.
      rewrite bool_decide_eq_true_2; [done|].
      rewrite (identifiers_place _ _ _ _ Hl), <- Hsec.
      apply elem_of_app. right. by left.
    - rewrite Hfirst. apply first_named_None in Hfirst.
      by rewrite bool_decide_eq_false_2. }
  split_and!.
  - eapply step_returns; [|done..].
    eapply step_bind; [by apply step_set_section_weight_any|].
    eapply step_value; [apply step_section_weight|done].
  - unfold node', update_named.
    destruct (first_named name (indexed (inputs node))) as [[i sec]|] eqn:Hfirst;
      [|done].
    by apply (with_section_identifiers _ _ _ _ _ Hfirst).
  - intros other Hother. unfold node', update_named.
    destruct (first_named name (indexed (inputs node))) as [[i sec]|] eqn:Hfirst;
      [|done].
    destruct (with_section_first_other _ _ _ _ (with_mass sec stored) other
                Hfirst) as [Hsnd Hfst]; [done| |].
    { cbn. apply first_named_elem in Hfirst as [_ ?]. congruence. }
    by rewrite !weight_of_first, !section_idx_first, Hsnd, Hfst.
  - intros any. unfold node', update_named.
    destruct (first_named name (indexed (inputs node))) as [[i sec]|] eqn:Hfirst;
      [|done].
    destruct (decide (any = name)) as [->|Hany].
    + rewrite !influences_of_first, Hfirst.
      rewrite (with_section_first_named _ _ _ _ _ Hfirst); [done|].
      cbn. by apply first_named_elem in Hfirst as [_ ?].
    + destruct (with_section_first_other _ _ _ _ (with_mass sec stored) any
                  Hfirst) as [Hsnd _]; [done| |].
      { cbn. apply first_named_elem in Hfirst as [_ ?]. congruence. }
      by rewrite !influences_of_first, Hsnd.
Qed.

Lemma set_then_get_section_weight_witness :
  let node' :=
    update_named sample_node (Some "arm") (λ sec, with_mass sec float32_tenth) in
  returns (set_section_weight "massimoSettings" (Some "arm") tenth;;
           get_section_weight "massimoSettings" (Some "arm"))
          sample_world "massimoSettings"
          (if bool_decide (Some "arm" ∈ identifiers sample_node)
           then float32_tenth else 0%Qc)
          node' ∧
  identifiers node' = identifiers sample_node ∧
  (∀ other, other ≠ Some "arm" →
            section_idx node' other = section_idx sample_node other ∧
            weight_of node' other = weight_of sample_node other) ∧
  (∀ any, influences_of node' any = influences_of sample_node any).
Proof.
  apply (set_then_get_section_weight sample_world "massimoSettings"
           sample_node (Some "arm") tenth float32_tenth).
  - vm_compute. reflexivity.
  - left. reflexivity.
  - refine (bool_decide_unpack _ _). vm_compute. exact I.
Defined.

(** X11. Under a coherent cache, [set_section_name] to a name that no section
    of the node bears renames the first section that bears the old name, in
    place: the new name finds that section's index, weight and influences,
    every other element of [inputs] is unchanged, and, when the names were
    unique, the old name is no longer found. *)
Theorem set_section_name_renames (w : World) (mass_node : string)
    (node : MassNode) (name new_name : PyName) (i : nat) (sec : SectionPlug) :
  mass_nodes (scene w) !! mass_node = Some node → coherent w mass_node →
  first_named name (indexed (inputs node)) = Some (i, sec) →
  new_name ∉ identifiers node →
  let node' := with_section node i (with_identifier sec new_name) in
  returns (set_section_name mass_node name new_name) w mass_node () node' ∧
  section_idx node' new_name = Z.of_nat i ∧
  weight_of node' new_name = mass sec ∧
  influences_of node' new_name = elements_of (pointsOfBounds sec) ∧
  (∀ j, j ≠ i → sparse_get j (inputs node') = sparse_get j (inputs node)) ∧
  (NoDup (identifiers node) → section_idx node' name = (-1)%Z).
Proof.
  intros Hn Hcoh Hfirst Hnew node'.
  destruct (first_named_place _ _ _ _ Hfirst) as (l0 & l1 & Hl & -> & Hsec & Hfresh).
  pose proof (identifiers_place _ _ _ _ Hl) as Hids.
  assert (new_name ∉ sectionIdentifier <$> elements_of l0) as Hnew0.
  { rewrite Hids, not_elem_of_app in Hnew. by destruct Hnew. }
  assert (first_named new_name (indexed (inputs node'))
          = Some (length l0, with_identifier sec new_name)) as Hfirst'.
  { unfold node'. rewrite (with_section_place _ _ _ _ _ Hl). unfold indexed.
    rewrite first_named_here by done. by rewrite Nat.add_0_r. }
  split_and!.
  - eapply step_returns; [|done..].
    eapply step_value_node; [apply step_set_section_name_any|].
    rewrite bool_decide_eq_false_2 by done. unfold update_named.
    by rewrite Hfirst.
  - unfold section_idx. by rewrite Hfirst'.
  - unfold weight_of. by rewrite Hfirst'.
  - unfold influences_of. by rewrite Hfirst'.
  - intros j Hj. unfold node'. rewrite with_section_get.
    by rewrite decide_False.
  - intros Hnd. unfold section_idx.
    assert (first_named name (indexed (inputs node')) = None) as ->; [|done].
    apply first_named_None. fold (sections_of node'). fold (identifiers node').
    unfold node'.
    rewrite (identifiers_place _ _ _ _ (with_section_place _ _ _ _ _ Hl)).
    rewrite Hids in Hnd, Hnew. cbn [with_identifier sectionIdentifier].
    rewrite Hsec in *. apply NoDup_app in Hnd as (_ & Hnd0 & Hnd).
    apply NoDup_cons in Hnd as [Hnd _].
    rewrite not_elem_of_app, not_elem_of_cons in Hnew.
    destruct Hnew as (_ & Hne & _).
    rewrite not_elem_of_app, not_elem_of_cons. split; [done|].
    split; [congruence|done].
Qed.

Lemma set_section_name_renames_witness :
  let node' :=
    with_section sample_node 0 (with_identifier sample_arm (Some "torso")) in
  returns (set_section_name "massimoSettings" (Some "arm") (Some "torso"))
          sample_world "massimoSettings" () node' ∧
  section_idx node' (Some "torso") = Z.of_nat 0 ∧
  weight_of node' (Some "torso") = mass sample_arm ∧
  influences_of node' (Some "torso")
  = elements_of (pointsOfBounds sample_arm) ∧
  (∀ j, j ≠ 0 → sparse_get j (inputs node') = sparse_get j (inputs sample_node)) ∧
  (NoDup (identifiers sample_node) → section_idx node' (Some "arm") = (-1)%Z).
Proof.
  apply (set_section_name_renames sample_world "massimoSettings" sample_node
           (Some "arm") (Some "torso") 0 sample_arm).
  - vm_compute. reflexivity.
  - left. reflexivity.
  - vm_compute. reflexivity.
  - refine (bool_decide_unpack _ _). vm_compute. exact I.
Defined.

(** X12. Under a coherent cache [set_section_name] does nothing, and raises
    nothing, when a section of the node already bears the new name (the old
    name included) or when no section bears the old name: the scene and the
    files stay as they were. *)
Theorem set_section_name_rejects (w : World) (mass_node : string)
    (node : MassNode) (name new_name : PyName) :
  mass_nodes (scene w) !! mass_node = Some node → coherent w mass_node →
  new_name ∈ identifiers node ∨ name ∉ identifiers node →
  reads (set_section_name mass_node name new_name) w mass_node ().
Proof.
  intros Hn Hcoh Hcase. eapply step_reads; [|done..].
  eapply step_value_node; [apply step_set_section_name_any|].
  case_bool_decide as Hin; [done|].
  destruct Hcase as [?|Hout]; [done|].
  unfold update_named. apply (first_named_None name 0) in Hout.
  unfold indexed. by rewrite Hout.
Qed.

Lemma set_section_name_rejects_witness :
  reads (set_section_name "massimoSettings" (Some "arm") (Some "leg"))
        sample_world "massimoSettings" ().
Proof.
  apply (set_section_name_rejects sample_world "massimoSettings" sample_node
           (Some "arm") (Some "leg")).
  - vm_compute. reflexivity.
  - left. reflexivity.
  - left. refine (bool_decide_unpack _ _). vm_compute. exact I.
Defined.

Lemma remove_first_named_app name (secs0 secs1 : list SectionPlug) :
  name ∉ sectionIdentifier <$> secs0 →
  remove_first_named name (secs0 ++ secs1)
  = secs0 ++ remove_first_named name secs1.
Proof.
  induction secs0 as [|s secs0 IH]; intros Hfresh; [done|].
  rewrite fmap_cons, not_elem_of_cons in Hfresh. destruct Hfresh as [Hne Hfresh].
  cbn [app remove_first_named]. rewrite bool_decide_eq_false_2 by done.
  by rewrite IH.
Qed.

Lemma remove_first_named_absent name (secs : list SectionPlug) :
  name ∉ sectionIdentifier <$> secs → remove_first_named name secs = secs.
Proof.
  intros Hfresh. rewrite <- (app_nil_r secs) at 1.
  rewrite remove_first_named_app by done. cbn. apply app_nil_r.
Qed.

(** X13. Under a coherent cache [remove_mass_group] removes the first section
    that bears the name and no other: the sections that remain are the
    earlier ones without it, each at the index it had, and when the names
    were unique the name is no longer found.  When no section bears the name
    the node stays as it was. *)
Theorem remove_mass_group_removes_first (w : World) (mass_node : string)
    (node : MassNode) (name : PyName) :
  mass_nodes (scene w) !! mass_node = Some node → coherent w mass_node →
  let node' := remove_named node name in
  returns (remove_mass_group mass_node name) w mass_node () node' ∧
  sections_of node' = remove_first_named name (sections_of node) ∧
  (∀ j sec, sparse_get j (inputs node') = Some sec →
            sparse_get j (inputs node) = Some sec) ∧
  (NoDup (identifiers node) → section_idx node' name = (-1)%Z).
Proof.
  intros Hn Hcoh node'. split; [|unfold node', remove_named].
  { eapply step_returns; [apply step_remove_mass_group|done..]. }
  destruct (first_named name (indexed (inputs node))) as [[i sec]|] eqn:Hfirst.
  - destruct (first_named_place _ _ _ _ Hfirst)
      as (l0 & l1 & Hl & -> & Hsec & Hfresh).
    pose proof (without_section_place _ _ _ _ Hl) as Hl'.
    split_and!.
    + unfold sections_of. rewrite Hl, Hl'.
      rewrite !elements_of_app, elements_of_cons_None, elements_of_cons_Some.
      rewrite remove_first_named_app by done.
      cbn [remove_first_named]. by rewrite bool_decide_eq_true_2.
    + intros j s. unfold without_section. cbn [inputs].
      rewrite sparse_get_remove. by destruct (decide _).
    + intros Hnd. unfold section_idx.
      assert (first_named name (indexed (inputs (without_section node (length l0))))
              = None) as ->; [|done].
      apply first_named_None. rewrite Hl'.
      rewrite elements_of_app, elements_of_cons_None, fmap_app.
      rewrite (identifiers_place _ _ _ _ Hl), Hsec in Hnd.
      apply NoDup_app in Hnd as (_ & _ & Hnd). apply NoDup_cons in Hnd as [Hnd _].
      by apply not_elem_of_app.
  - split_and!.
    + apply first_named_None in Hfirst.
      by rewrite remove_first_named_absent.
    + done.
    + intros _. unfold section_idx. by rewrite Hfirst.
Qed.

Lemma remove_mass_group_removes_first_witness :
  let node' := remove_named sample_node (Some "arm") in
  returns (remove_mass_group "massimoSettings" (Some "arm")) sample_world
          "massimoSettings" () node' ∧
  sections_of node' = remove_first_named (Some "arm") (sections_of sample_node) ∧
  (∀ j sec, sparse_get j (inputs node') = Some sec →
            sparse_get j (inputs sample_node) = Some sec) ∧
  (NoDup (identifiers sample_node) → section_idx node' (Some "arm") = (-1)%Z).
Proof.
  apply (remove_mass_group_removes_first sample_world "massimoSettings"
           sample_node (Some "arm")).
  - vm_compute. reflexivity.
  - left. reflexivity.
Defined.

(** ** Adding a section *)

(** The index that [add_mass_group] settles on splits the array into a dense
    prefix of sections whose identifiers read as true, and a rest that is
    empty, or starts with a gap or with a section whose identifier reads as
    false. *)
Lemma first_free_section_split o (l : list (option SectionPlug)) :
  ∃ secs t,
    l = (Some <$> secs) ++ t ∧ first_free_section o l = o + length secs ∧
    Forall (λ sec, truthy (sectionIdentifier sec) = true) secs ∧
    truthy (sparse_get 0 t ≫= sectionIdentifier) = false.
Proof.
  revert o. induction l as [|[s|] l IH]; intros o.
  - exists [], []. split_and!; try done; cbn; lia.
  - cbn [first_free_section].
    destruct (truthy (sectionIdentifier s)) eqn:Htruthy.
    + destruct (IH (S o)) as (secs & t & -> & -> & Hsecs & Ht).
      exists (s :: secs), t. split_and!; try done; [cbn; lia|by constructor].
    + exists [], (Some s :: l). split_and!; try done; cbn; lia.
  - exists [], (None :: l). split_and!; try done; cbn; lia.
Qed.

Lemma sparse_get_dense {A} (xs : list A) j :
  sparse_get j (Some <$> xs) = xs !! j.
Proof.
  unfold sparse_get. rewrite list_lookup_fmap. by destruct (xs !! j).
Qed.

Lemma sparse_get_tail {A} (t : list (option A)) x :
  sparse_get 0 (match t with [] => [Some x] | _ :: t' => Some x :: t' end)
  = Some x.
Proof. by destruct t. Qed.

Lemma elements_of_first_set {A} (xs : list A) (t : list (option A)) x :
  elements_of
    ((Some <$> xs) ++ match t with [] => [Some x] | _ :: t' => Some x :: t' end)
  = xs ++ x :: elements_of (tail t).
Proof.
  rewrite elements_of_app, elements_of_dense. f_equal.
  destruct t as [|y t]; by rewrite elements_of_cons_Some.
Qed.

Lemma length_fmap_Some {A} (xs : list A) :
  length (Some <$> xs : list (option A)) = length xs.
Proof. apply length_fmap. Qed.

(** X14. [add_mass_group] returns on every node of the scene, whatever the
    state of the cache, and marks the cache dirty.  It names the element at
    the least index whose identifier reads as false (a gap, a section never
    named or named with the empty string, or the end of the array): every
    index below holds a section whose identifier reads as true.  The element
    keeps the weight and the influences it had, or takes the defaults; every
    other element is unchanged; and a name that no section bore is found at
    the index returned. *)
Theorem add_mass_group_takes_first_free (w : World) (mass_node : string)
    (node : MassNode) (name : PyName) :
  mass_nodes (scene w) !! mass_node = Some node →
  let c := first_free_section 0 (inputs node) in
  let node' := with_section node c (named_section node name) in
  (∃ w', add_mass_group mass_node name w = Ok (c, w') ∧
         objects (scene w') = objects (scene w) ∧
         mass_nodes (scene w')
         = <[mass_node := node']> (mass_nodes (scene w)) ∧
         files w' = files w ∧
         _SECTION_CACHE_IS_DIRTY (cache w') = true) ∧
  (∀ j, j < c → ∃ sec, sparse_get j (inputs node) = Some sec ∧
                       truthy (sectionIdentifier sec) = true) ∧
  truthy (sparse_get c (inputs node) ≫= sectionIdentifier) = false ∧
  (∀ j, sparse_get j (inputs node')
        = if decide (c = j) then Some (named_section node name)
          else sparse_get j (inputs node)) ∧
  (name ∉ identifiers node → section_idx node' name = Z.of_nat c).
Proof.
  intros Hn c node'.
  destruct (first_free_section_split 0 (inputs node))
    as (secs & t & Hl & Hc & Hsecs & Ht).
  fold c in Hc. cbn in Hc.
  split_and!.
  - rewrite (add_mass_group_ok _ _ _ _ Hn). by eexists.
  - intros j Hj. rewrite Hl, sparse_get_app_l by (rewrite length_fmap; lia).
    rewrite sparse_get_dense.
    destruct (lookup_lt_is_Some_2 secs j) as [sec Hsec]; [lia|].
    exists sec. split; [done|].
    rewrite Forall_forall in Hsecs. by eapply Hsecs, list_elem_of_lookup_2.
  - rewrite Hl, Hc, <- (length_fmap_Some secs), <- (Nat.add_0_r (length _)).
    by rewrite sparse_get_app_r.
  - intros j. apply with_section_get.
  - intros Hfresh. unfold section_idx, node', with_section, indexed.
    cbn [inputs]. unfold identifiers, sections_of in Hfresh.
    rewrite Hl in *. rewrite Hc, <- (length_fmap_Some secs).
    rewrite sparse_set_app_length.
    rewrite elements_of_app, fmap_app, not_elem_of_app in Hfresh.
    destruct Hfresh as [Hfresh _].
    rewrite first_named_app by done.
    assert (sectionIdentifier (named_section node name) = name) as Hname by done.
    destruct t; cbn [indexed_from first_named];
      rewrite bool_decide_eq_true_2 by done; f_equal; lia.
Qed.

Lemma add_mass_group_takes_first_free_witness :
  let c := first_free_section 0 (inputs sample_node) in
  let node' := with_section sample_node c (named_section sample_node (Some "tail")) in
  (∃ w', add_mass_group "massimoSettings" (Some "tail") sample_world
         = Ok (c, w') ∧
         objects (scene w') = objects (scene sample_world) ∧
         mass_nodes (scene w')
         = <["massimoSettings" := node']> (mass_nodes (scene sample_world)) ∧
         files w' = files sample_world ∧
         _SECTION_CACHE_IS_DIRTY (cache w') = true) ∧
  (∀ j, j < c → ∃ sec, sparse_get j (inputs sample_node) = Some sec ∧
                       truthy (sectionIdentifier sec) = true) ∧
  truthy (sparse_get c (inputs sample_node) ≫= sectionIdentifier) = false ∧
  (∀ j, sparse_get j (inputs node')
        = if decide (c = j) then Some (named_section sample_node (Some "tail"))
          else sparse_get j (inputs sample_node)) ∧
  (Some "tail" ∉ identifiers sample_node →
   section_idx node' (Some "tail") = Z.of_nat c).
Proof.
  apply (add_mass_group_takes_first_free sample_world "massimoSettings"
           sample_node (Some "tail")).
  vm_compute. reflexivity.
Defined.

Lemma count_filter_app (name : PyName) (l0 l1 : list PyName) :
  length (filter (λ i, i = name) (l0 ++ l1))
  = length (filter (λ i, i = name) l0) + length (filter (λ i, i = name) l1).
Proof. by rewrite filter_app, length_app. Qed.

(** X15. [add_mass_group] never rejects a name: for a name that reads as true
    the number of sections of the node that bear it grows by one, also when
    a section bears it already. *)
Theorem add_mass_group_allows_duplicates (w : World) (mass_node : string)
    (node : MassNode) (name : PyName) :
  mass_nodes (scene w) !! mass_node = Some node →
  truthy name = true →
  ∃ c w' node',
    add_mass_group mass_node name w = Ok (c, w') ∧
    mass_nodes (scene w') !! mass_node = Some node' ∧
    count_named name node' = S (count_named name node).
Proof.
  intros Hn Htruthy.
  destruct (first_free_section_split 0 (inputs node))
    as (secs & t & Hl & Hc & Hsecs & Ht).
  cbn in Hc.
  rewrite (add_mass_group_ok _ _ _ _ Hn). do 3 eexists.
  split; [reflexivity|]. split; [apply set_node_lookup|].
  unfold count_named, identifiers, sections_of. cbn [inputs].
  rewrite Hc, Hl, <- (length_fmap_Some secs), sparse_set_app_length.
  rewrite elements_of_first_set, elements_of_app, elements_of_dense.
  rewrite !fmap_app, fmap_cons, !count_filter_app, filter_cons.
  cbn [with_identifier sectionIdentifier]. rewrite decide_True by done.
  cbn [length]. rewrite <- Nat.add_succ_r. f_equal. f_equal.
  destruct t as [|[s|] t]; [done| |by rewrite elements_of_cons_None].
  rewrite elements_of_cons_Some, fmap_cons, filter_cons.
  rewrite decide_False; [done|].
  intros Hs. rewrite sparse_get_cons_0 in Ht. cbn in Ht. congruence.
Qed.

Lemma add_mass_group_allows_duplicates_witness :
  ∃ c w' node',
    add_mass_group "massimoSettings" (Some "arm") sample_world = Ok (c, w') ∧
    mass_nodes (scene w') !! "massimoSettings" = Some node' ∧
    count_named (Some "arm") node' = S (count_named (Some "arm") sample_node).
Proof.
  apply (add_mass_group_allows_duplicates sample_world "massimoSettings"
           sample_node (Some "arm")).
  - vm_compute. reflexivity.
  - reflexivity.
Defined.

Lemma first_named_added (node : MassNode) (name : PyName) :
  name ∉ identifiers node →
  first_named name
    (indexed (inputs (with_section node (first_free_section 0 (inputs node))
                                   (named_section node name))))
  = Some (first_free_section 0 (inputs node), named_section node name).
Proof.
  intros Hfresh.
  destruct (first_free_section_split 0 (inputs node))
    as (secs & t & Hl & Hc & _ & _).
  cbn in Hc. unfold with_section, indexed. cbn [inputs].
  unfold identifiers, sections_of in Hfresh.
  rewrite Hc. generalize (named_section node name) (eq_refl : sectionIdentifier (named_section node name) = name).
  intros sec Hsec. rewrite Hl in *.
  rewrite <- (length_fmap_Some secs), sparse_set_app_length.
  rewrite elements_of_app, fmap_app, not_elem_of_app in Hfresh.
  destruct Hfresh as [Hfresh _].
  rewrite first_named_app by done.
  destruct t; cbn [indexed_from first_named];
    rewrite bool_decide_eq_true_2 by done; do 2 f_equal; lia.
Qed.

(** X16. The attribute [mass] is a 32-bit float.  Whatever the state of the
    cache, adding a group under a name that no section of the node bears,
    setting its weight and reading the weight back returns the 32-bit float
    nearest to the weight set; the new section sits at the index that
    [add_mass_group] settles on, where the name is found, and every other
    element is unchanged. *)
Theorem add_mass_group_then_set_weight (w : World) (mass_node : string)
    (node : MassNode) (name : PyName) (v stored : Qc) :
  mass_nodes (scene w) !! mass_node = Some node →
  name ∉ identifiers node →
  float32 v = Some stored →
  let c := first_free_section 0 (inputs node) in
  let node' :=
    with_section node c (with_mass (named_section node name) stored) in
  returns (add_mass_group mass_node name;;
           set_section_weight mass_node name v;;
           get_section_weight mass_node name) w mass_node stored node' ∧
  section_idx node' name = Z.of_nat c ∧
  (∀ j, j ≠ c → sparse_get j (inputs node') = sparse_get j (inputs node)).
Proof.
  intros Hn Hfresh Hstored c node'.
  set (node1 := with_section node c (named_section node name)).
  pose proof (first_named_added node name Hfresh) as Hfirst1.
  fold c node1 in Hfirst1.
  assert (node' = update_named node1 name (λ sec, with_mass sec stored))
    as Hnode'.
  { unfold update_named. rewrite Hfirst1. unfold node1.
    by rewrite with_section_twice. }
  assert (first_named name (indexed (inputs node'))
          = Some (c, with_mass (named_section node name) stored)) as Hfirst'.
  { unfold node'. rewrite <- (with_section_twice node c (named_section node name)).
    by apply (with_section_first_named _ _ _ _ _ Hfirst1). }
  split_and!.
  - pose proof (add_mass_group_ok w mass_node node name Hn) as Hadd.
    cbn zeta in Hadd.
    change (mkNode (settings node) _) with node1 in Hadd.
    set (w1 := set_node _ _ node1) in Hadd.
    assert (step (objects (scene w1)) mass_node node1
              (set_section_weight mass_node name v;;
               get_section_weight mass_node name) stored node') as Hstep.
    { eapply step_bind; [by apply step_set_section_weight_any|].
      rewrite <- Hnode'.
      eapply step_value; [apply step_section_weight|].
      unfold weight_of. by rewrite Hfirst'. }
    destruct (Hstep w1 eq_refl) as (w2 & Hrun & Hobjs & Hnodes & Hf & Hcoh & _);
      [apply set_node_lookup|by left|].
    exists w2. split_and!; try done.
    + by rewrite (bind_ok _ _ _ _ _ Hadd).
    + rewrite Hnodes. unfold w1. cbn. by rewrite insert_insert_eq.
  - unfold section_idx. by rewrite Hfirst'.
  - intros j Hj. unfold node'. rewrite with_section_get. by rewrite decide_False.
Qed.

Lemma add_mass_group_then_set_weight_witness :
  let c := first_free_section 0 (inputs sample_node) in
  let node' :=
    with_section sample_node c
      (with_mass (named_section sample_node (Some "tail")) float32_tenth) in
  returns (add_mass_group "massimoSettings" (Some "tail");;
           set_section_weight "massimoSettings" (Some "tail") tenth;;
           get_section_weight "massimoSettings" (Some "tail"))
          sample_world "massimoSettings" float32_tenth node' ∧
  section_idx node' (Some "tail") = Z.of_nat c ∧
  (∀ j, j ≠ c → sparse_get j (inputs node') = sparse_get j (inputs sample_node)).
Proof.
  apply (add_mass_group_then_set_weight sample_world "massimoSettings"
           sample_node (Some "tail") tenth float32_tenth).
  - vm_compute. reflexivity.
  - refine (bool_decide_unpack _ _). vm_compute. exact I.
  - refine (bool_decide_unpack _ _). vm_compute. exact I.
Defined.

(** ** Influences *)

Lemma used_influences_of_section node i sec :
  sparse_get i (inputs node) = Some sec →
  (filter (λ p, Z.of_nat p.1 = Z.of_nat i) (listAttr_bounds node)).*2
  = used_indices (pointsOfBounds sec).
Proof.
  intros Hget. unfold listAttr_bounds. rewrite bounds_of_section.
  rewrite decide_True by lia. by rewrite Nat.sub_0_r, Hget.
Qed.

Section Influences.
Context (objs : list (string * bool)) (n : string).

Lemma step_add_section_influence_none node name influence :
  (influence, true) ∉ objs ∨ name ∉ identifiers node →
  step objs n node (add_section_influence n name influence) None node.
Proof.
  intros Hcase. unfold add_section_influence.
  eapply step_bind; [apply step_PyNode|].
  eapply step_bind; [apply step_objExists|].
  destruct (bool_decide (influence ∈ objs.*1)); cbn [negb]; [|apply step_ret].
  eapply step_bind; [apply step_worldMatrix_exists|].
  case_bool_decide as Hmatrix; cbn [negb]; [|apply step_ret].
  destruct Hcase as [?|Hout]; [done|].
  eapply step_bind; [apply step_section_idx|].
  unfold section_idx. apply (first_named_None name 0) in Hout.
  unfold indexed. rewrite Hout.
  rewrite bool_decide_eq_true_2 by lia. apply step_ret.
Qed.

Lemma step_add_section_influence_some node name influence i sec :
  (influence, true) ∈ objs →
  first_named name (indexed (inputs node)) = Some (i, sec) →
  step objs n node (add_section_influence n name influence)
       (Some (first_free (pointsOfBounds sec)))
       (with_section node i
          (with_bounds sec
             (sparse_set (first_free (pointsOfBounds sec)) influence
                         (pointsOfBounds sec)))).
Proof.
  intros Hobj Hfirst. unfold add_section_influence.
  pose proof (first_named_lookup _ _ _ _ Hfirst) as Hget.
  eapply step_bind; [apply step_PyNode|].
  eapply step_bind; [apply step_objExists|].
  rewrite bool_decide_eq_true_2
    by (apply (list_elem_of_fmap_2 fst _ (influence, true)); done).
  cbn [negb].
  eapply step_bind; [apply step_worldMatrix_exists|].
  rewrite bool_decide_eq_true_2 by done. cbn [negb].
  eapply step_bind; [apply step_section_idx|].
  unfold section_idx. rewrite Hfirst.
  rewrite bool_decide_eq_false_2 by lia.
  eapply step_bind; [apply step_used_influence_indices|].
  rewrite (used_influences_of_section _ _ _ Hget). rewrite Nat2Z.id.
  fold (first_free (pointsOfBounds sec)).
  eapply step_bind; [|apply step_ret].
  unfold connectAttr.
  eapply step_bind; [by apply step_touch|].
  by eapply step_put_section.
Qed.

End Influences.

Lemma influences_of_with_section node name i sec sec' :
  first_named name (indexed (inputs node)) = Some (i, sec) →
  sectionIdentifier sec' = sectionIdentifier sec →
  (∀ any, influences_of (with_section node i sec') any
          = if decide (any = name) then elements_of (pointsOfBounds sec')
            else influences_of node any) ∧
  (∀ any, weight_of (with_section node i sec') any
          = if decide (any = name) then mass sec' else weight_of node any) ∧
  (∀ any, section_idx (with_section node i sec') any = section_idx node any).
Proof.
  intros Hfirst Hsame.
  pose proof (first_named_elem _ _ _ _ Hfirst) as [_ Hsec].
  assert (∀ any, first_named any (indexed (inputs (with_section node i sec')))
                 = if decide (any = name) then Some (i, sec')
                   else first_named any (indexed (inputs node))) as Hfn.
  { intros any. destruct (decide (any = name)) as [->|Hany].
    - apply (with_section_first_named _ _ _ _ _ Hfirst). congruence.
    - destruct (with_section_first_other _ _ _ _ sec' any Hfirst)
        as [Hsnd Hfst]; [done|congruence|].
      destruct (first_named any (indexed (inputs (with_section node i sec'))))
        as [[? ?]|], (first_named any (indexed (inputs node))) as [[? ?]|];
        cbn in Hsnd, Hfst; congruence. }
  split_and!; intros any;
    unfold influences_of, weight_of, section_idx; rewrite Hfn;
    destruct (decide (any = name)) as [->|Hany]; try done.
  by rewrite Hfirst.
Qed.

Lemma first_free_facts {A} (b : list (option A)) (x : A) :
  let c := first_free b in
  elements_of (sparse_set c x b)
  = take c (elements_of b) ++ x :: drop c (elements_of b) ∧
  sparse_get c b = None ∧
  (∀ j, j < c → is_Some (sparse_get j b)).
Proof.
  intros c. destruct (first_free_split b) as (xs & t & Hb & Hc & Ht).
  fold c in Hc. split_and!.
  - rewrite Hb at 2 3. rewrite elements_of_app, elements_of_dense.
    rewrite Hc, take_app_length, drop_app_length.
    rewrite Hb, <- (length_fmap_Some xs), sparse_set_app_length.
    rewrite elements_of_first_set. do 2 f_equal.
    by destruct Ht as [->|(t' & ->)]; [|rewrite elements_of_cons_None].
  - rewrite Hb, Hc, <- (length_fmap_Some xs), <- (Nat.add_0_r (length _)).
    rewrite sparse_get_app_r. by destruct Ht as [->|(t' & ->)].
  - intros j Hj. rewrite Hb, sparse_get_app_l by (rewrite length_fmap; lia).
    rewrite sparse_get_dense. apply lookup_lt_is_Some_2. lia.
Qed.

(** X17. Under a coherent cache, for an object of the scene that has a
    [worldMatrix] and a name that a section bears, [add_section_influence]
    connects the influence at the least index of [pointsOfBounds] that is
    not in use, in the first section that bears the name: no connection is
    overwritten, [get_section_influences] then lists the influence at that
    place among the earlier ones, and the influences found for any other
    name and every weight stay as they were. *)
Theorem add_section_influence_fills_first_gap (w : World) (mass_node : string)
    (node : MassNode) (name : PyName) (influence : string)
    (i : nat) (sec : SectionPlug) :
  mass_nodes (scene w) !! mass_node = Some node → coherent w mass_node →
  first_named name (indexed (inputs node)) = Some (i, sec) →
  (influence, true) ∈ objects (scene w) →
  let c := first_free (pointsOfBounds sec) in
  let node' :=
    with_section node i
      (with_bounds sec (sparse_set c influence (pointsOfBounds sec))) in
  returns (add_section_influence mass_node name influence;;
           get_section_influences mass_node name) w mass_node
          (take c (influences_of node name) ++ influence
             :: drop c (influences_of node name)) node' ∧
  eval (add_section_influence mass_node name influence) w = Ok (Some c) ∧
  sparse_get c (pointsOfBounds sec) = None ∧
  (∀ j, j < c → is_Some (sparse_get j (pointsOfBounds sec))) ∧
  (∀ other, other ≠ name →
            influences_of node' other = influences_of node other) ∧
  (∀ any, weight_of node' any = weight_of node any).
Proof.
  intros Hn Hcoh Hfirst Hobj c node'.
  pose proof (step_add_section_influence_some (objects (scene w)) mass_node
                node name influence i sec Hobj Hfirst) as Hstep.
  destruct (influences_of_with_section node name i sec
              (with_bounds sec (sparse_set c influence (pointsOfBounds sec)))
              Hfirst eq_refl) as (Hinfl & Hweight & _).
  fold node' in Hinfl, Hweight.
  destruct (first_free_facts (pointsOfBounds sec) influence)
    as (Helems & Hfree & Hdense).
  fold c in Helems, Hfree, Hdense.
  split_and!; [| |done|done| |].
  - eapply step_returns; [|done..].
    eapply step_bind; [apply Hstep|].
    eapply step_value; [apply step_section_influences|].
    rewrite Hinfl, decide_True by done. cbn [with_bounds pointsOfBounds].
    rewrite Helems. unfold influences_of. by rewrite Hfirst.
  - destruct (Hstep w eq_refl Hn Hcoh) as (w' & Hrun & _).
    unfold eval. by rewrite Hrun.
  - intros other Hother. by rewrite Hinfl, decide_False.
  - intros any. rewrite Hweight. destruct (decide (any = name)) as [->|]; [|done].
    unfold weight_of. by rewrite Hfirst.
Qed.

Lemma add_section_influence_fills_first_gap_witness :
  let c := first_free (pointsOfBounds sample_arm) in
  let node' :=
    with_section sample_node 0
      (with_bounds sample_arm
         (sparse_set c "knee" (pointsOfBounds sample_arm))) in
  returns (add_section_influence "massimoSettings" (Some "arm") "knee";;
           get_section_influences "massimoSettings" (Some "arm"))
          sample_world "massimoSettings"
          (take c (influences_of sample_node (Some "arm")) ++ "knee"
             :: drop c (influences_of sample_node (Some "arm"))) node' ∧
  eval (add_section_influence "massimoSettings" (Some "arm") "knee")
       sample_world = Ok (Some c) ∧
  sparse_get c (pointsOfBounds sample_arm) = None ∧
  (∀ j, j < c → is_Some (sparse_get j (pointsOfBounds sample_arm))) ∧
  (∀ other, other ≠ Some "arm" →
            influences_of node' other = influences_of sample_node other) ∧
  (∀ any, weight_of node' any = weight_of sample_node any).
Proof.
  apply (add_section_influence_fills_first_gap sample_world "massimoSettings"
           sample_node (Some "arm") "knee" 0 sample_arm).
  - vm_compute. reflexivity.
  - left. reflexivity.
  - vm_compute. reflexivity.
  - refine (bool_decide_unpack _ _). vm_compute. exact I.
Defined.

(** X18. Under a coherent cache [add_section_influence] returns [None] and
    changes neither the scene nor the files when the influence is not an
    object of the scene, is an object without a [worldMatrix], or when no
    section of the node bears the name. *)
Theorem add_section_influence_rejects (w : World) (mass_node : string)
    (node : MassNode) (name : PyName) (influence : string) :
  mass_nodes (scene w) !! mass_node = Some node → coherent w mass_node →
  (influence, true) ∉ objects (scene w) ∨ name ∉ identifiers node →
  reads (add_section_influence mass_node name influence) w mass_node None.
Proof.
  intros Hn Hcoh Hcase. eapply step_reads; [|done..].
  by apply step_add_section_influence_none.
Qed.

Lemma add_section_influence_rejects_witness :
  reads (add_section_influence "massimoSettings" (Some "arm") "ghost")
        sample_world "massimoSettings" None.
Proof.
  apply (add_section_influence_rejects sample_world "massimoSettings"
           sample_node (Some "arm") "ghost").
  - vm_compute. reflexivity.
  - left. reflexivity.
  - left. refine (bool_decide_unpack _ _). vm_compute. exact I.
Defined.

(** ** Removing an influence *)

Lemma elem_of_bounds_from o (l : list (option SectionPlug)) i j :
  (i, j) ∈ bounds_from o l ↔
  ∃ k sec, i = o + k ∧ sparse_get k l = Some sec ∧
           is_Some (sparse_get j (pointsOfBounds sec)).
Proof.
  revert o. induction l as [|[s|] l IH]; intros o; cbn [bounds_from].
  - split; [by intros ?%elem_of_nil|]. intros (k & sec & _ & Hk & _).
    by rewrite sparse_get_nil in Hk.
  - rewrite elem_of_app, list_elem_of_fmap, IH. split.
    + intros [(j' & [= -> ->] & Hj)|(k & sec & -> & Hk & Hj)].
      * exists 0, s. split_and!; [lia|done|]. by apply elem_of_used_indices.
      * exists (S k), sec. split_and!; [lia|done|done].
    + intros ([|k] & sec & -> & Hk & Hj).
      * rewrite sparse_get_cons_0 in Hk. injection Hk as ->. left.
        exists j. split; [f_equal; lia|]. by apply elem_of_used_indices.
      * rewrite sparse_get_cons_S in Hk. right. exists k, sec.
        split_and!; [lia|done|done].
  - rewrite IH. split.
    + intros (k & sec & -> & Hk & Hj). exists (S k), sec.
      split_and!; [lia|done|done].
    + intros ([|k] & sec & -> & Hk & Hj).
      * by rewrite sparse_get_cons_0 in Hk.
      * rewrite sparse_get_cons_S in Hk. exists k, sec.
        split_and!; [lia|done|done].
Qed.

Lemma elem_of_driven_bounds influence node i j :
  (i, j) ∈ driven_bounds influence node ↔
  ∃ sec, sparse_get i (inputs node) = Some sec ∧
         sparse_get j (pointsOfBounds sec) = Some influence.
Proof.
  unfold driven_bounds, listAttr_bounds.
  rewrite list_elem_of_filter, elem_of_bounds_from. cbn [fst snd]. split.
  - intros [Hdriven (k & sec & Hik & Hk & _)]. cbn in Hik. subst k.
    exists sec. split; [done|]. by rewrite Hk in Hdriven.
  - intros (sec & Hi & Hj). split.
    + by rewrite Hi.
    + exists i, sec. split_and!; [done|done|by eexists].
Qed.

Lemma elem_of_outputs (s : Scene) influence k i j :
  (k, (i, j)) ∈ (map_to_list (mass_nodes s)
                   ≫= λ kn, (λ p, (kn.1, p)) <$> driven_bounds influence kn.2)
  ↔ ∃ other sec, mass_nodes s !! k = Some other ∧
                 sparse_get i (inputs other) = Some sec ∧
                 sparse_get j (pointsOfBounds sec) = Some influence.
Proof.
  rewrite list_elem_of_bind. split.
  - intros ([k' other] & Hin & Hk%elem_of_map_to_list).
    apply list_elem_of_fmap in Hin as (p & [= -> <-] & Hp). cbn in Hk.
    apply elem_of_driven_bounds in Hp as (sec & Hi & Hj). by exists other, sec.
  - intros (other & sec & Hk & Hi & Hj). exists (k, other). split.
    + apply list_elem_of_fmap. exists (i, j). split; [done|].
      apply elem_of_driven_bounds. by exists sec.
    + by apply elem_of_map_to_list.
Qed.

Lemma bounds_without_length i plugs bounds :
  length (bounds_without i plugs bounds) = length bounds.
Proof.
  unfold bounds_without. revert bounds.
  induction plugs as [|p plugs IH]; intros bounds; [done|].
  cbn [foldl]. rewrite IH. case_bool_decide; [|done].
  apply length_insert.
Qed.

Lemma bounds_without_get i plugs bounds j :
  sparse_get j (bounds_without i plugs bounds)
  = if bool_decide ((i, j) ∈ plugs.*2) then None else sparse_get j bounds.
Proof.
  unfold bounds_without. revert bounds.
  induction plugs as [|[k [i' j']] plugs IH]; intros bounds.
  - cbn [foldl]. rewrite bool_decide_eq_false_2; [done|].
    by intros ?%elem_of_nil.
  - cbn [foldl fst snd]. rewrite IH. clear IH. rewrite fmap_cons. cbn [snd].
    destruct (decide ((i, j) ∈ plugs.*2)) as [Hin|Hout].
    + rewrite !bool_decide_eq_true_2; [done|by right|done].
    + rewrite (bool_decide_eq_false_2 _ Hout).
      destruct (decide (i' = i ∧ j' = j)) as [[-> ->]|Hne].
      * rewrite !bool_decide_eq_true_2; [|by left|done].
        rewrite sparse_get_remove. by rewrite decide_True.
      * rewrite (bool_decide_eq_false_2 (_ ∈ _ :: _)).
        2:{ intros [[= -> ->]|Hin]%elem_of_cons; [by apply Hne|done]. }
        case_bool_decide as Hi; [|done]. subst i'.
        rewrite sparse_get_remove. rewrite decide_False; [done|].
        intros ->. by apply Hne.
Qed.

Lemma removeMultiInstance_bound_ok w n node i sec j :
  mass_nodes (scene w) !! n = Some node →
  sparse_get i (inputs node) = Some sec →
  removeMultiInstance_bound n i j w
  = Ok ((), set_node w n
              (with_section node i
                 (with_bounds sec (sparse_remove j (pointsOfBounds sec))))).
Proof.
  intros Hn Hi. unfold removeMultiInstance_bound.
  rewrite (bind_ok _ _ _ _ _ (PyNode_ok _ _ _ Hn)). rewrite Hi.
  apply put_node_ok.
Qed.

Lemma remove_plugs_ok plugs w n node i sec :
  mass_nodes (scene w) !! n = Some node →
  sparse_get i (inputs node) = Some sec →
  forM_ plugs (remove_plug n (Z.of_nat i)) w
  = Ok ((), set_node w n
              (with_section node i
                 (with_bounds sec
                    (bounds_without i plugs (pointsOfBounds sec))))).
Proof.
  unfold bounds_without.
  revert w node sec. induction plugs as [|p plugs IH]; intros w node sec Hn Hi.
  - cbn. unfold ret. do 2 f_equal. symmetry.
    unfold with_section, with_bounds. destruct sec. cbn.
    rewrite sparse_set_same by done. destruct node. by apply set_node_id.
  - cbn [forM_ foldl]. unfold remove_plug at 1.
    destruct (decide (p.2.1 = i)) as [Hp|Hp].
    + rewrite !bool_decide_eq_true_2 by (try lia; done). rewrite Nat2Z.id.
      rewrite (bind_ok _ _ _ _ _
                 (removeMultiInstance_bound_ok _ _ _ _ _ p.2.2 Hn Hi)).
      rewrite (IH _ (with_section node i
                       (with_bounds sec
                          (sparse_remove p.2.2 (pointsOfBounds sec))))
                  (with_bounds sec (sparse_remove p.2.2 (pointsOfBounds sec)))).
      * by rewrite set_node_set_node, with_section_twice.
      * apply set_node_lookup.
      * apply sparse_get_set_eq.
    + rewrite !bool_decide_eq_false_2 by (try lia; done).
      unfold bind at 1, ret at 1. by apply IH.
Qed.

Lemma coherent_set_node w n node node' :
  mass_nodes (scene w) !! n = Some node →
  listAttr_sections node' = listAttr_sections node →
  coherent w n → coherent (set_node w n node') n.
Proof.
  intros Hn Hsame [Hdirty|Hcoh]; [by left|right].
  intros cached Hcached. destruct (Hcoh cached Hcached) as [->|(node0 & Hn0 & ->)];
    [by left|right].
  assert (node0 = node) as -> by congruence.
  exists node'. split; [apply set_node_lookup|done].
Qed.

Lemma remove_section_influence_run (w : World) n node name influence i sec :
  mass_nodes (scene w) !! n = Some node → coherent w n →
  first_named name (indexed (inputs node)) = Some (i, sec) →
  (influence, true) ∈ objects (scene w) →
  let plugs := map_to_list (mass_nodes (scene w))
                 ≫= λ kn, (λ p, (kn.1, p)) <$> driven_bounds influence kn.2 in
  let node' := with_section node i
                 (with_bounds sec (bounds_without i plugs (pointsOfBounds sec))) in
  ∃ w', remove_section_influence n name influence w = Ok ((), w') ∧
        objects (scene w') = objects (scene w) ∧
        mass_nodes (scene w') = <[n := node']> (mass_nodes (scene w)) ∧
        files w' = files w ∧ coherent w' n.
Proof.
  intros Hn Hcoh Hfirst Hobj plugs node'.
  pose proof (first_named_lookup _ _ _ _ Hfirst) as Hi.
  unfold remove_section_influence.
  rewrite (bind_ok _ _ _ _ _ (PyNode_ok _ _ _ Hn)).
  unfold bind at 1, objExists at 1, bind at 1, get_scene at 1, ret at 1.
  rewrite bool_decide_eq_true_2
    by (apply (list_elem_of_fmap_2 fst _ (influence, true)); done).
  cbn [negb].
  destruct (step_section_idx (objects (scene w)) n node name w eq_refl Hn Hcoh)
    as (w1 & Hrun & Hobjs1 & Hnodes1 & Hf1 & Hcoh1 & _).
  assert (scene w1 = scene w) as Hscene by by eapply scene_unchanged.
  rewrite (bind_ok _ _ _ _ _ Hrun).
  unfold section_idx. rewrite Hfirst.
  rewrite bool_decide_eq_false_2 by lia.
  unfold bind at 1, worldMatrix_outputs at 1, bind at 1, worldMatrix_exists at 1,
    bind at 1, get_scene at 1, ret at 1.
  rewrite Hscene. rewrite bool_decide_eq_true_2 by done. cbn [negb].
  unfold bind at 1, get_scene at 1, ret at 1. rewrite Hscene. fold plugs.
  assert (mass_nodes (scene w1) !! n = Some node) as Hn1 by by rewrite Hscene.
  rewrite (remove_plugs_ok plugs w1 n node i sec Hn1 Hi). fold node'.
  eexists. split; [reflexivity|]. cbn. rewrite Hscene. split_and!; try done.
  apply coherent_set_node with node; [done| |done].
  unfold node', with_section, listAttr_sections, used_indices. cbn [inputs].
  by erewrite used_from_sparse_set.
Qed.

Lemma returns_bind {A B} (m : M A) (k : A → M B) w n v node1 v' node2 :
  returns m w n v node1 →
  (∀ w1, m w = Ok (v, w1) → returns (k v) w1 n v' node2) →
  returns (bind m k) w n v' node2.
Proof.
  intros (w1 & Hrun & Hobjs & Hnodes & Hf & Hcoh) Hk.
  destruct (Hk w1 Hrun) as (w2 & Hrun2 & Hobjs2 & Hnodes2 & Hf2 & Hcoh2).
  exists w2. split_and!; try congruence.
  - by rewrite (bind_ok _ _ _ _ _ Hrun).
  - by rewrite Hnodes2, Hnodes, insert_insert_eq.
Qed.

(** X19. Under a coherent cache, for an object that has a [worldMatrix] and a
    name that a section bears, [remove_section_influence] returns and
    changes only the [pointsOfBounds] of the first section that bears the
    name, at its index [i]: afterwards the influence drives none of its
    elements.  The element [j] is removed exactly when the influence drives
    the element [j] of the section [i] of some node of the scene, this node
    or another: the node that bears a plug is not looked at. *)
Theorem remove_section_influence_disconnects (w : World) (mass_node : string)
    (node : MassNode) (name : PyName) (influence : string)
    (i : nat) (sec : SectionPlug) :
  mass_nodes (scene w) !! mass_node = Some node → coherent w mass_node →
  first_named name (indexed (inputs node)) = Some (i, sec) →
  (influence, true) ∈ objects (scene w) →
  ∃ bounds',
    returns (remove_section_influence mass_node name influence) w mass_node ()
            (with_section node i (with_bounds sec bounds')) ∧
    (influence ∉ elements_of bounds') ∧
    (∀ j, drives (scene w) influence i j → sparse_get j bounds' = None) ∧
    (∀ j, ¬ drives (scene w) influence i j →
          sparse_get j bounds' = sparse_get j (pointsOfBounds sec)).
Proof.
  intros Hn Hcoh Hfirst Hobj.
  pose proof (first_named_lookup _ _ _ _ Hfirst) as Hi.
  destruct (remove_section_influence_run w mass_node node name influence i sec
              Hn Hcoh Hfirst Hobj) as (w' & Hrun).
  set (plugs := map_to_list (mass_nodes (scene w)) ≫= _) in *.
  assert (∀ j, (i, j) ∈ plugs.*2 ↔ drives (scene w) influence i j) as Hplugs.
  { intros j. rewrite list_elem_of_fmap. split.
    - intros ([k [i' j']] & [= <- <-] & Hin).
      apply elem_of_outputs in Hin as (other & s & ? & ? & ?).
      by exists k, other, s.
    - intros (k & other & s & ? & ? & ?). exists (k, (i, j)). split; [done|].
      apply elem_of_outputs. by exists other, s. }
  exists (bounds_without i plugs (pointsOfBounds sec)). split_and!.
  - by exists w'.
  - rewrite elem_of_elements_of. intros (j & Hj).
    rewrite bounds_without_get in Hj. case_bool_decide as Hin; [done|].
    apply Hin, Hplugs. by exists mass_node, node, sec.
  - intros j Hj%Hplugs. rewrite bounds_without_get.
    by rewrite bool_decide_eq_true_2.
  - intros j Hj. rewrite bounds_without_get.
    rewrite bool_decide_eq_false_2; [done|]. by rewrite Hplugs.
Qed.

Lemma remove_section_influence_disconnects_witness :
  ∃ bounds',
    returns (remove_section_influence "massimoSettings" (Some "arm") "elbow")
            sample_world "massimoSettings" ()
            (with_section sample_node 0 (with_bounds sample_arm bounds')) ∧
    ("elbow" ∉ elements_of bounds') ∧
    (∀ j, drives (scene sample_world) "elbow" 0 j →
          sparse_get j bounds' = None) ∧
    (∀ j, ¬ drives (scene sample_world) "elbow" 0 j →
          sparse_get j bounds' = sparse_get j (pointsOfBounds sample_arm)).
Proof.
  apply (remove_section_influence_disconnects sample_world "massimoSettings"
           sample_node (Some "arm") "elbow" 0 sample_arm).
  - vm_compute. reflexivity.
  - left. reflexivity.
  - vm_compute. reflexivity.
  - refine (bool_decide_unpack _ _). vm_compute. exact I.
Defined.

Lemma sparse_ext {A} (l l' : list (option A)) :
  length l = length l' → (∀ j, sparse_get j l = sparse_get j l') → l = l'.
Proof.
  revert l'. induction l as [|x l IH]; intros [|x' l'] Hlen Hget; try done.
  f_equal.
  - specialize (Hget 0). by rewrite !sparse_get_cons_0 in Hget.
  - apply IH; [by injection Hlen|]. intros j. specialize (Hget (S j)).
    by rewrite !sparse_get_cons_S in Hget.
Qed.

Lemma sparse_get_fmap {A} (f : option A → option A) (l : list (option A)) j :
  f None = None →
  sparse_get j (f <$> l) = f (sparse_get j l).
Proof.
  intros Hf. unfold sparse_get. rewrite list_lookup_fmap.
  by destruct (l !! j).
Qed.

Lemma elements_of_without_influence influence bounds :
  elements_of (without_influence influence bounds)
  = filter (λ x, x ≠ influence) (elements_of bounds).
Proof.
  unfold without_influence. induction bounds as [|[x|] bounds IH]; [done| |].
  - rewrite fmap_cons, elements_of_cons_Some, filter_cons.
    destruct (decide (x = influence)) as [->|Hne].
    + rewrite bool_decide_eq_true_2 by done.
      rewrite decide_False by (by intros []).
      by rewrite elements_of_cons_None.
    + rewrite bool_decide_eq_false_2 by congruence.
      rewrite decide_True by done.
      by rewrite elements_of_cons_Some, IH.
  - rewrite fmap_cons. rewrite bool_decide_eq_false_2 by done.
    by rewrite !elements_of_cons_None.
Qed.

Lemma bounds_without_only (s : Scene) n node influence i sec :
  mass_nodes s !! n = Some node →
  sparse_get i (inputs node) = Some sec →
  drives_only s n influence i →
  bounds_without i
    (map_to_list (mass_nodes s)
       ≫= λ kn, (λ p, (kn.1, p)) <$> driven_bounds influence kn.2)
    (pointsOfBounds sec)
  = without_influence influence (pointsOfBounds sec).
Proof.
  intros Hn Hi Honly. apply sparse_ext.
  { unfold without_influence. by rewrite bounds_without_length, length_fmap. }
  intros j. rewrite bounds_without_get. unfold without_influence.
  rewrite sparse_get_fmap by done.
  destruct (decide (sparse_get j (pointsOfBounds sec) = Some influence))
    as [Hj|Hj].
  - rewrite !bool_decide_eq_true_2; [done|done|].
    apply list_elem_of_fmap. exists (n, (i, j)). split; [done|].
    apply elem_of_outputs. by exists node, sec.
  - rewrite !bool_decide_eq_false_2; [done|done|].
    intros ([k [i' j']] & [= <- <-] & Hin)%list_elem_of_fmap.
    apply elem_of_outputs in Hin as (other & s' & Hk & Hi' & Hj').
    assert (k = n) as -> by by eapply Honly.
    congruence.
Qed.

Lemma remove_section_influence_only (w : World) n node name influence i sec :
  mass_nodes (scene w) !! n = Some node → coherent w n →
  first_named name (indexed (inputs node)) = Some (i, sec) →
  (influence, true) ∈ objects (scene w) →
  drives_only (scene w) n influence i →
  returns (remove_section_influence n name influence) w n ()
          (with_section node i
             (with_bounds sec
                (without_influence influence (pointsOfBounds sec)))).
Proof.
  intros Hn Hcoh Hfirst Hobj Honly.
  pose proof (first_named_lookup _ _ _ _ Hfirst) as Hi.
  destruct (remove_section_influence_run w n node name influence
              i sec Hn Hcoh Hfirst Hobj) as (w' & Hrun).
  rewrite (bounds_without_only _ _ _ _ _ _ Hn Hi Honly) in Hrun.
  by exists w'.
Qed.

Lemma returns_lookup {A} (m : M A) w n v node' w' :
  returns m w n v node' → m w = Ok (v, w') →
  objects (scene w') = objects (scene w) ∧
  mass_nodes (scene w') = <[n := node']> (mass_nodes (scene w)) ∧
  mass_nodes (scene w') !! n = Some node' ∧ coherent w' n.
Proof.
  intros (w1 & Hrun & Hobjs & Hnodes & _ & Hcoh) Hrun'.
  assert (w1 = w') as -> by congruence.
  split_and!; try done. by rewrite Hnodes, lookup_insert_eq.
Qed.

Lemma sample_drives_only i influence :
  drives_only (scene sample_world) "massimoSettings" influence i.
Proof.
  intros k other sec j Hk _ _. unfold sample_world in Hk.
  cbn [scene mass_nodes] in Hk.
  apply lookup_singleton_Some in Hk as [Hk _]. by symmetry.
Defined.

(** X20. Under a coherent cache, when the influence drives the section of
    that index on no other node, [remove_section_influence] followed by
    [get_section_influences] returns the influences the section had, in
    their order, without the one removed (every occurrence of it); the
    identifiers, every weight and the influences found for any other name
    stay as they were. *)
Theorem remove_then_get_section_influences (w : World) (mass_node : string)
    (node : MassNode) (name : PyName) (influence : string)
    (i : nat) (sec : SectionPlug) :
  mass_nodes (scene w) !! mass_node = Some node → coherent w mass_node →
  first_named name (indexed (inputs node)) = Some (i, sec) →
  (influence, true) ∈ objects (scene w) →
  drives_only (scene w) mass_node influence i →
  let node' :=
    with_section node i
      (with_bounds sec (without_influence influence (pointsOfBounds sec))) in
  returns (remove_section_influence mass_node name influence;;
           get_section_influences mass_node name) w mass_node
          (filter (λ x, x ≠ influence) (influences_of node name)) node' ∧
  (∀ other, other ≠ name →
            influences_of node' other = influences_of node other) ∧
  (∀ any, weight_of node' any = weight_of node any) ∧
  identifiers node' = identifiers node.
Proof.
  intros Hn Hcoh Hfirst Hobj Honly node'.
  destruct (influences_of_with_section node name i sec
              (with_bounds sec (without_influence influence (pointsOfBounds sec)))
              Hfirst eq_refl) as (Hinfl & Hweight & _).
  fold node' in Hinfl, Hweight.
  pose proof (remove_section_influence_only w mass_node node name influence
                i sec Hn Hcoh Hfirst Hobj Honly) as Hremove.
  split_and!.
  - eapply returns_bind; [apply Hremove|]. intros w1 Hrun1.
    destruct (returns_lookup _ _ _ _ _ _ Hremove Hrun1) as (_ & _ & Hn1 & Hcoh1).
    eapply step_returns; [|done..].
    eapply step_value; [apply step_section_influences|].
    fold node'. rewrite Hinfl, decide_True by done.
    cbn [with_bounds pointsOfBounds].
    rewrite elements_of_without_influence. unfold influences_of.
    by rewrite Hfirst.
  - intros other Hother. by rewrite Hinfl, decide_False.
  - intros any. rewrite Hweight. destruct (decide (any = name)) as [->|]; [|done].
    unfold weight_of. by rewrite Hfirst.
  - by apply (with_section_identifiers _ _ _ _ _ Hfirst).
Qed.

Lemma remove_then_get_section_influences_witness :
  let node' :=
    with_section sample_node 0
      (with_bounds sample_arm
         (without_influence "elbow" (pointsOfBounds sample_arm))) in
  returns (remove_section_influence "massimoSettings" (Some "arm") "elbow";;
           get_section_influences "massimoSettings" (Some "arm"))
          sample_world "massimoSettings"
          (filter (λ x, x ≠ "elbow") (influences_of sample_node (Some "arm")))
          node' ∧
  (∀ other, other ≠ Some "arm" →
            influences_of node' other = influences_of sample_node other) ∧
  (∀ any, weight_of node' any = weight_of sample_node any) ∧
  identifiers node' = identifiers sample_node.
Proof.
  apply (remove_then_get_section_influences sample_world "massimoSettings"
           sample_node (Some "arm") "elbow" 0 sample_arm).
  - vm_compute. reflexivity.
  - left. reflexivity.
  - vm_compute. reflexivity.
  - refine (bool_decide_unpack _ _). vm_compute. exact I.
  - apply sample_drives_only.
Defined.

Lemma drives_only_insert (s : Scene) n node' influence i objs :
  drives_only s n influence i →
  drives_only (mkScene objs (<[n := node']> (mass_nodes s))) n influence i.
Proof.
  intros Honly k other sec j Hk Hi Hj. cbn in Hk.
  destruct (decide (k = n)) as [->|Hne]; [done|].
  rewrite lookup_insert_ne in Hk by done. by eapply Honly.
Qed.

Lemma filter_take_drop {A} (P : A → Prop) `{∀ x, Decision (P x)}
    (l : list A) (x : A) c :
  ¬ P x → filter P (take c l ++ x :: drop c l) = filter P l.
Proof.
  intros Hx. rewrite filter_app, filter_cons, decide_False by done.
  by rewrite <- filter_app, take_drop.
Qed.

(** X21. Under a coherent cache, when the influence drives the section of
    that index on no other node, adding an influence to a section and
    removing it again leaves the influences of the section as they were, in
    their order, less any earlier connection of the same influence; the
    identifiers, every weight and the influences found for any other name
    stay as they were. *)
Theorem add_then_remove_section_influence (w : World) (mass_node : string)
    (node : MassNode) (name : PyName) (influence : string)
    (i : nat) (sec : SectionPlug) :
  mass_nodes (scene w) !! mass_node = Some node → coherent w mass_node →
  first_named name (indexed (inputs node)) = Some (i, sec) →
  (influence, true) ∈ objects (scene w) →
  drives_only (scene w) mass_node influence i →
  ∃ node',
    returns (add_section_influence mass_node name influence;;
             remove_section_influence mass_node name influence;;
             get_section_influences mass_node name) w mass_node
            (filter (λ x, x ≠ influence) (influences_of node name)) node' ∧
    identifiers node' = identifiers node ∧
    (∀ any, weight_of node' any = weight_of node any) ∧
    (∀ other, other ≠ name →
              influences_of node' other = influences_of node other).
Proof.
  intros Hn Hcoh Hfirst Hobj Honly.
  set (c := first_free (pointsOfBounds sec)).
  set (sec1 := with_bounds sec (sparse_set c influence (pointsOfBounds sec))).
  set (node1 := with_section node i sec1).
  set (sec2 := with_bounds sec1
                 (without_influence influence (pointsOfBounds sec1))).
  set (node2 := with_section node1 i sec2).
  destruct (influences_of_with_section node name i sec sec1 Hfirst eq_refl)
    as (Hinfl1 & Hweight1 & _).
  assert (first_named name (indexed (inputs node1)) = Some (i, sec1)) as Hfirst1.
  { apply (with_section_first_named _ _ _ _ _ Hfirst).
    by apply first_named_elem in Hfirst as [_ ?]. }
  destruct (influences_of_with_section node1 name i sec1 sec2 Hfirst1 eq_refl)
    as (Hinfl2 & Hweight2 & _).
  fold node1 in Hinfl1, Hweight1. fold node2 in Hinfl2, Hweight2.
  destruct (first_free_facts (pointsOfBounds sec) influence) as (Helems & _).
  fold c in Helems.
  assert (returns (add_section_influence mass_node name influence) w mass_node
                  (Some c) node1) as Hadd.
  { eapply step_returns; [|done..].
    by apply step_add_section_influence_some. }
  exists node2. split_and!.
  - eapply returns_bind; [apply Hadd|]. intros w1 Hrun1.
    destruct (returns_lookup _ _ _ _ _ _ Hadd Hrun1)
      as (Hobjs1 & Hnodes1 & Hn1 & Hcoh1).
    assert (returns (remove_section_influence mass_node name influence)
                    w1 mass_node () node2) as Hremove.
    { apply remove_section_influence_only; try done.
      - by rewrite Hobjs1.
      - destruct (scene w1) as [objs1 nodes1]. cbn in Hnodes1. subst nodes1.
        by apply drives_only_insert. }
    eapply returns_bind; [apply Hremove|]. intros w2 Hrun2.
    destruct (returns_lookup _ _ _ _ _ _ Hremove Hrun2) as (_ & _ & Hn2 & Hcoh2).
    eapply step_returns; [|done..].
    eapply step_value; [apply step_section_influences|].
    rewrite Hinfl2, decide_True by done. unfold sec2, sec1.
    cbn [with_bounds pointsOfBounds]. rewrite elements_of_without_influence.
    rewrite Helems.
    rewrite filter_take_drop by (by intros []).
    unfold influences_of. by rewrite Hfirst.
  - unfold node2.
    rewrite (with_section_identifiers _ _ _ _ _ Hfirst1) by done.
    by apply (with_section_identifiers _ _ _ _ _ Hfirst).
  - intros any. rewrite Hweight2, Hweight1.
    destruct (decide (any = name)) as [->|]; [|done].
    unfold weight_of. by rewrite Hfirst.
  - intros other Hother. by rewrite Hinfl2, Hinfl1, !decide_False.
Qed.

Lemma add_then_remove_section_influence_witness :
  ∃ node',
    returns (add_section_influence "massimoSettings" (Some "arm") "knee";;
             remove_section_influence "massimoSettings" (Some "arm") "knee";;
             get_section_influences "massimoSettings" (Some "arm"))
            sample_world "massimoSettings"
            (filter (λ x, x ≠ "knee") (influences_of sample_node (Some "arm")))
            node' ∧
    identifiers node' = identifiers sample_node ∧
    (∀ any, weight_of node' any = weight_of sample_node any) ∧
    (∀ other, other ≠ Some "arm" →
              influences_of node' other = influences_of sample_node other).
Proof.
  apply (add_then_remove_section_influence sample_world "massimoSettings"
           sample_node (Some "arm") "knee" 0 sample_arm).
  - vm_compute. reflexivity.
  - left. reflexivity.
  - vm_compute. reflexivity.
  - refine (bool_decide_unpack _ _). vm_compute. exact I.
  - apply sample_drives_only.
Defined.

(** ** Saving *)

(** X23. Under a coherent cache [serialise] leaves the scene as it is and
    writes a file only for a path that is not empty.  Its document has one
    entry for every section that exists, by ascending index, and each entry
    holds what the lookups by name return for the section's identifier: the
    weight and the influences of the first section that bears that
    identifier.  Sections that share a name are therefore all written with
    the data of the first of them. *)
Theorem serialise_reads_by_name (w : World) (mass_node : string)
    (node : MassNode) (filepath : option string) :
  mass_nodes (scene w) !! mass_node = Some node → coherent w mass_node →
  let data :=
    mkMassData mass_node
      ((λ name, mkSectionData name (weight_of node name)
                              (influences_of node name))
         <$> identifiers node)
      (Some (settings node)) in
  ∃ w', serialise mass_node filepath w = Ok (data, w') ∧
        scene w' = scene w ∧ coherent w' mass_node ∧
        files w' = match filepath with
                   | Some path =>
                     if bool_decide (path = EmptyString) then files w
                     else <[path := data]> (files w)
                   | None => files w
                   end.
Proof.
  intros Hn Hcoh data.
  assert (step (objects (scene w)) mass_node node
               (node ← PyNode mass_node;
                names ← get_section_names mass_node;
                sections ← mapM (serialise_section mass_node) names;
                ret (mkMassData mass_node sections (Some (settings node))))
               data node) as Hstep.
  { eapply step_bind; [apply step_PyNode|].
    eapply step_bind; [apply step_section_names|].
    eapply step_bind; [|apply step_ret].
    pose proof (step_mapM (objects (scene w)) mass_node node
                  (serialise_section mass_node)
                  ((λ name, (name, mkSectionData name (weight_of node name)
                                     (influences_of node name)))
                     <$> identifiers node)) as Hmap.
    rewrite <- !list_fmap_compose in Hmap.
    rewrite (list_fmap_ext _ id (identifiers node)) in Hmap by done.
    rewrite list_fmap_id in Hmap. apply Hmap.
    intros name d (name' & Heq & _)%list_elem_of_fmap.
    injection Heq as -> ->. apply step_serialise_section. }
  destruct (Hstep w eq_refl Hn Hcoh) as (w1 & Hrun & Hobjs & Hnodes & Hf & Hc & Hk).
  assert (scene w1 = scene w) as Hscene by by eapply scene_unchanged.
  unfold serialise. unfold bind in Hrun |- *.
  destruct (PyNode mass_node w) as [[node0 w0]|e]; [|done].
  destruct (get_section_names mass_node w0) as [[names w0']|e]; [|done].
  destruct (mapM (serialise_section mass_node) names w0') as [[sections w0'']|e];
    [|done].
  apply Ok_inj, pair_equal_spec in Hrun as [Hdata ->]. rewrite Hdata.
  destruct filepath as [path|]; [case_bool_decide|].
  - by exists w1.
  - eexists. split; [reflexivity|]. cbn. rewrite Hf. by split_and!.
  - by exists w1.
Qed.

Lemma serialise_reads_by_name_witness :
  let data :=
    mkMassData "massimoSettings"
      ((λ name, mkSectionData name (weight_of sample_node name)
                              (influences_of sample_node name))
         <$> identifiers sample_node)
      (Some (settings sample_node)) in
  ∃ w', serialise "massimoSettings" (Some "body.mass") sample_world
        = Ok (data, w') ∧
        scene w' = scene sample_world ∧ coherent w' "massimoSettings" ∧
        files w' = match Some "body.mass" with
                   | Some path =>
                     if bool_decide (path = EmptyString) then files sample_world
                     else <[path := data]> (files sample_world)
                   | None => files sample_world
                   end.
Proof.
  apply (serialise_reads_by_name sample_world "massimoSettings" sample_node
           (Some "body.mass")).
  - vm_compute. reflexivity.
  - left. reflexivity.
Defined.

End CoreFacts.
